(** * Instance-state and provide/inject glue of the reactive core

    A shallow embedding of [src/core/instance/state.js] ([proxy], [getData],
    [initComputed], [defineComputed], [createComputedGetter],
    [createGetterInvoker], [initWatch], [createWatcher], [$watch]), of the
    provide/inject file ([initInjections], [resolveInject]) and of
    [resolveModifiedOptions] of [src/core/instance/init.js].

    The JavaScript heap, the active-target stack and the observation toggle are
    threaded explicitly through a small state/exception/trace monad.  Closures
    created by the source are defunctionalised: one constructor per closure,
    carrying the variables it captures.  The collaborators that the source
    imports but that live in other files ([Watcher], [Dep], [pushTarget],
    [popTarget], [observe], [defineReactive], [toggleObserving], [handleError],
    [invokeWithErrorHandling], [warn]) are modelled from the specification and
    marked as such. *)

From stdpp Require Import gmap strings list fin_maps sorting.
From Stdlib Require Import ZArith.

Set Default Proof Using "Type".

(** ** Values *)

Definition loc := nat.
Definition watcher_id := nat.
Definition dep_id := nat.

(** Function values.  [UserFn] is code supplied by the application, identified
    by a number and interpreted by the environment; the other constructors are
    closures built by the engine. *)
Inductive Fn :=
| noop
| UserFn (id : nat)
| parsePath (path : string)
| unwatchFn (watcher : watcher_id).

(** Numbers carry integers only (no claim depends on fractions or NaN). *)
Inductive Value :=
| VUndefined
| VNull
| VBool (b : bool)
| VNum (n : Z)
| VStr (s : string)
| VObj (l : loc)
| VFun (f : Fn)
| VError (name : string).

#[global] Instance Fn_eq_dec : EqDecision Fn.
Proof. solve_decision. Defined.
#[global] Instance Value_eq_dec : EqDecision Value.
Proof. solve_decision. Defined.

(** JavaScript truthiness. *)
Definition truthy (v : Value) : bool :=
  match v with
  | VUndefined | VNull => false
  | VBool b => b
  | VNum n => negb (n =? 0)%Z
  | VStr s => negb (String.eqb s EmptyString)
  | VObj _ | VFun _ | VError _ => true
  end.

(** A property key is a string or a symbol. *)
Inductive PropKey :=
| KStr (s : string)
| KSym (n : nat).

#[global] Instance PropKey_eq_dec : EqDecision PropKey.
Proof. solve_decision. Defined.
#[global] Instance PropKey_countable : Countable PropKey.
Proof.
  refine (inj_countable'
            (fun k => match k with KStr s => inl s | KSym n => inr n end)
            (fun x => match x with inl s => KStr s | inr n => KSym n end) _).
  by intros [].
Defined.

(** ** Property descriptors

    Accessor functions installed by [Object.defineProperty] in state.js. *)
Inductive Getter :=
| getNoop
| proxyGetter (sourceKey key : string)
| computedGetter (key : string)
| getterInvoker (fn : Fn).

Inductive Setter :=
| setFn (fn : Fn)
| proxySetter (sourceKey key : string)
| computedWarnSetter (key : string).

(** The closure state of a reactive property: the captured value, the
    property's Dep (created on the first tracked read), the marker of the
    value when it is observed, the warning closure passed as custom setter
    (message and owner) and the shallow flag. *)
Record Reactive := {
  r_val : Value;
  r_dep : option dep_id;
  r_childOb : option dep_id;
  r_customSetter : option (string * Value);
  r_shallow : bool }.

Inductive Property :=
| DataProperty (v : Value)
| AccessorProperty (get : Getter) (set : Setter)
| ReactiveProperty (r : Reactive).

#[global] Instance Getter_eq_dec : EqDecision Getter.
Proof. solve_decision. Defined.
#[global] Instance Setter_eq_dec : EqDecision Setter.
Proof. solve_decision. Defined.
#[global] Instance Reactive_eq_dec : EqDecision Reactive.
Proof. solve_decision. Defined.
#[global] Instance Property_eq_dec : EqDecision Property.
Proof. solve_decision. Defined.

(** ** Objects, watchers and the store *)

(** An object: its own string-keyed properties, the observed marker
    ([__ob__], represented by the marker's Dep) and the two internal slots of
    a component instance that state.js reads. *)
Record Obj := {
  props : gmap string Property;
  ob : option dep_id;
  _computedWatchers : option (gmap string watcher_id);
  _watchers : list watcher_id }.

Definition emptyObj : Obj :=
  {| props := ∅; ob := None; _computedWatchers := None; _watchers := [] |}.

Record Watcher := {
  vm : loc;
  getter : Fn;
  cb : Value;
  expression : string;
  lazy : bool;
  user : bool;
  deep : bool;
  sync : bool;
  dirty : bool;
  active : bool;
  value : Value;
  deps : list dep_id;
  newDeps : list dep_id }.

(** Everything application code can reach. *)
Record Store := {
  heap : gmap loc Obj;
  watchers : gmap watcher_id Watcher;
  subs : gmap dep_id (gset watcher_id);
  queue : list watcher_id }.

(** The store together with the module-level state that only the engine
    touches: the active-target stack of dep.js, the observation toggle and the
    [sharedPropertyDefinition] object of state.js (its [get] and [set]). *)
Record World := {
  store : Store;
  targetStack : list (option watcher_id);
  shouldObserve : bool;
  sharedGet : Getter;
  sharedSet : Setter }.

Definition emptyStore : Store :=
  {| heap := ∅; watchers := ∅; subs := ∅; queue := [] |}.

Definition initialWorld : World :=
  {| store := emptyStore; targetStack := []; shouldObserve := true;
     sharedGet := getNoop; sharedSet := setFn noop |}.

Definition with_store (st : Store) (w : World) : World :=
  {| store := st; targetStack := targetStack w; shouldObserve := shouldObserve w;
     sharedGet := sharedGet w; sharedSet := sharedSet w |}.

Definition with_targetStack (s : list (option watcher_id)) (w : World) : World :=
  {| store := store w; targetStack := s; shouldObserve := shouldObserve w;
     sharedGet := sharedGet w; sharedSet := sharedSet w |}.

Definition with_shouldObserve (b : bool) (w : World) : World :=
  {| store := store w; targetStack := targetStack w; shouldObserve := b;
     sharedGet := sharedGet w; sharedSet := sharedSet w |}.

Definition with_sharedGet (g : Getter) (w : World) : World :=
  {| store := store w; targetStack := targetStack w; shouldObserve := shouldObserve w;
     sharedGet := g; sharedSet := sharedSet w |}.

Definition with_sharedSet (s : Setter) (w : World) : World :=
  {| store := store w; targetStack := targetStack w; shouldObserve := shouldObserve w;
     sharedGet := sharedGet w; sharedSet := s |}.

Definition with_heap (h : gmap loc Obj) (st : Store) : Store :=
  {| heap := h; watchers := watchers st; subs := subs st; queue := queue st |}.

Definition with_watchers (ws : gmap watcher_id Watcher) (st : Store) : Store :=
  {| heap := heap st; watchers := ws; subs := subs st; queue := queue st |}.

Definition with_subs (s : gmap dep_id (gset watcher_id)) (st : Store) : Store :=
  {| heap := heap st; watchers := watchers st; subs := s; queue := queue st |}.

Definition with_queue (q : list watcher_id) (st : Store) : Store :=
  {| heap := heap st; watchers := watchers st; subs := subs st; queue := q |}.

(** ** Outcomes, events and the environment *)

Inductive Outcome (A : Type) :=
| Return (a : A)
| Throw (e : Value).
Arguments Return {A} a.
Arguments Throw {A} e.

(** What the engine does that is visible from outside: entering a user
    function, a call of the warning hook, a call of the error hook. *)
Inductive Event :=
| ECall (id : nat) (this : Value) (args : list Value)
| EWarn (msg : string) (owner : Value)
| EHandleError (err : Value) (owner : Value) (info : string).

#[global] Instance Event_eq_dec : EqDecision Event.
Proof. solve_decision. Defined.

Definition isWarn (ev : Event) : Prop :=
  match ev with
  | EWarn _ _ => True
  | _ => False
  end.

(** The environment: build flags, the runtime's call-depth limit and the
    bodies of application code.  Application code sees the whole world but can
    change the store only: the target stack and the toggle are reachable only
    through the engine's bracketed operations. *)
Record Env := {
  production : bool;
  hasSymbol : bool;
  isServerRendering : bool;
  stackLimit : nat;
  userBody : nat -> Value -> list Value -> World -> Outcome Value * Store;
  pathBody : string -> Value -> World -> Outcome Value * Store;
  traverseBody : Value -> World -> Store;
  sourceText : nat -> string }.

(** ** The monad *)

Definition M (A : Type) : Type := World -> Outcome A * World * list Event.

Definition ret {A} (a : A) : M A := fun w => (Return a, w, []).

Definition throw {A} (e : Value) : M A := fun w => (Throw e, w, []).

Definition bind {A B} (m : M A) (k : A -> M B) : M B := fun w =>
  match m w with
  | (Return a, w1, t1) =>
      match k a w1 with (r, w2, t2) => (r, w2, t1 ++ t2) end
  | (Throw e, w1, t1) => (Throw e, w1, t1)
  end.

Declare Scope js_scope.
Delimit Scope js_scope with js.
Notation "x <- m ;; k" := (bind m (fun x => k))
  (at level 100, m at next level, right associativity) : js_scope.
Notation "m ;; k" := (bind m (fun _ => k))
  (at level 100, right associativity) : js_scope.
Open Scope js_scope.

(** [try { m } catch (e) { h e }] *)
Definition try_catch {A} (m : M A) (h : Value -> M A) : M A := fun w =>
  match m w with
  | (Return a, w1, t1) => (Return a, w1, t1)
  | (Throw e, w1, t1) =>
      match h e w1 with (r, w2, t2) => (r, w2, t1 ++ t2) end
  end.

(** [try { m } finally { f }]: [f] runs on both exits; the outcome of [m] is
    kept unless [f] itself throws. *)
Definition try_finally {A} (m : M A) (f : M unit) : M A := fun w =>
  match m w with
  | (r, w1, t1) =>
      match f w1 with
      | (Return _, w2, t2) => (r, w2, t1 ++ t2)
      | (Throw e, w2, t2) => (Throw e, w2, t1 ++ t2)
      end
  end.

Definition emit (e : Event) : M unit := fun w => (Return tt, w, [e]).
Definition getWorld : M World := fun w => (Return w, w, []).
Definition getStore : M Store := fun w => (Return (store w), w, []).
Definition modifyWorld (f : World -> World) : M unit := fun w => (Return tt, f w, []).
Definition modifyStore (f : Store -> Store) : M unit :=
  modifyWorld (fun w => with_store (f (store w)) w).

(** Application code: it returns or throws, and leaves a new store. *)
Definition runUser (body : World -> Outcome Value * Store) : M Value := fun w =>
  match body w with (r, st) => (r, with_store st w, []) end.

Fixpoint forEach {A} (l : list A) (f : A -> M unit) : M unit :=
  match l with
  | [] => ret tt
  | x :: r => f x ;; forEach r f
  end.

Definition outcome_of {A} (x : Outcome A * World * list Event) : Outcome A := x.1.1.
Definition world_of {A} (x : Outcome A * World * list Event) : World := x.1.2.
Definition trace_of {A} (x : Outcome A * World * list Event) : list Event := x.2.

(** The double-quote character, for the messages that quote a key. *)
Definition dq : string := String (Ascii.ascii_of_nat 34) EmptyString.

Definition quoted (s : string) : string := dq +:+ s +:+ dq.

(** ** Pure store operations *)

Definition inertWatcher : Watcher :=
  {| vm := 0; getter := noop; cb := VUndefined; expression := EmptyString;
     lazy := false; user := false; deep := false; sync := false;
     dirty := false; active := false; value := VUndefined;
     deps := []; newDeps := [] |}.

(** A watcher id always denotes an object: ids not in the table read as an
    inert watcher. *)
Definition theWatcher (st : Store) (id : watcher_id) : Watcher :=
  default inertWatcher (watchers st !! id).

Definition updateWatcher (id : watcher_id) (f : Watcher -> Watcher) (st : Store) : Store :=
  with_watchers (<[id := f (theWatcher st id)]> (watchers st)) st.

Definition setDirty (b : bool) (w : Watcher) : Watcher :=
  {| vm := vm w; getter := getter w; cb := cb w; expression := expression w;
     lazy := lazy w; user := user w; deep := deep w; sync := sync w;
     dirty := b; active := active w; value := value w;
     deps := deps w; newDeps := newDeps w |}.

Definition setActive (b : bool) (w : Watcher) : Watcher :=
  {| vm := vm w; getter := getter w; cb := cb w; expression := expression w;
     lazy := lazy w; user := user w; deep := deep w; sync := sync w;
     dirty := dirty w; active := b; value := value w;
     deps := deps w; newDeps := newDeps w |}.

Definition setValue (v : Value) (w : Watcher) : Watcher :=
  {| vm := vm w; getter := getter w; cb := cb w; expression := expression w;
     lazy := lazy w; user := user w; deep := deep w; sync := sync w;
     dirty := dirty w; active := active w; value := v;
     deps := deps w; newDeps := newDeps w |}.

Definition setDeps (d n : list dep_id) (w : Watcher) : Watcher :=
  {| vm := vm w; getter := getter w; cb := cb w; expression := expression w;
     lazy := lazy w; user := user w; deep := deep w; sync := sync w;
     dirty := dirty w; active := active w; value := value w;
     deps := d; newDeps := n |}.

Definition theObj (st : Store) (l : loc) : Obj := default emptyObj (heap st !! l).

Definition updateObj (l : loc) (f : Obj -> Obj) (st : Store) : Store :=
  with_heap (alter f l (heap st)) st.

Definition setProps (p : gmap string Property) (o : Obj) : Obj :=
  {| props := p; ob := ob o; _computedWatchers := _computedWatchers o;
     _watchers := _watchers o |}.

Definition setOb (d : option dep_id) (o : Obj) : Obj :=
  {| props := props o; ob := d; _computedWatchers := _computedWatchers o;
     _watchers := _watchers o |}.

Definition setWatcherList (l : list watcher_id) (o : Obj) : Obj :=
  {| props := props o; ob := ob o; _computedWatchers := _computedWatchers o;
     _watchers := l |}.

Definition setProperty (k : string) (p : Property) (o : Obj) : Obj :=
  setProps (<[k := p]> (props o)) o.

(** Modelled from the spec: the subscribers of a Dep (dep.js is not among
    the sources), "an identity-keyed set of subscriber Watchers". *)
Definition depSubs (st : Store) (d : dep_id) : gset watcher_id :=
  default ∅ (subs st !! d).

(** Modelled from the spec: [Dep.addSub] (dep.js), adding to that set. *)
Definition addSub (d : dep_id) (w : watcher_id) (st : Store) : Store :=
  with_subs (<[d := {[w]} ∪ depSubs st d]> (subs st)) st.

(** Modelled from the spec: [Dep.removeSub] (dep.js), removing from that
    set. *)
Definition removeSub (d : dep_id) (w : watcher_id) (st : Store) : Store :=
  with_subs (<[d := depSubs st d ∖ {[w]}]> (subs st)) st.

(** Modelled from the spec: [Watcher.addDep] (watcher.js is not among the
    sources), the registration of a Dep with a Watcher, "(a) adds
    the Dep to the active Watcher's new-dep set and (b) adds the Watcher to the
    Dep's subscriber set, each guarded against duplicate registration". *)
Definition addDep (t : watcher_id) (d : dep_id) (st : Store) : Store :=
  let w := theWatcher st t in
  if decide (d ∈ newDeps w) then st
  else
    let st1 := updateWatcher t (setDeps (deps w) (newDeps w ++ [d])) st in
    if decide (d ∈ deps w) then st1 else addSub d t st1.

(** Modelled from the spec: [Dep.target] (dep.js), the top of the
    active-target stack ("pushing a new target suspends tracking for the
    enclosing one, popping restores it"). *)
Definition Dep_target (w : World) : option watcher_id :=
  match targetStack w with
  | [] => None
  | t :: _ => t
  end.

(** Modelled from the spec: [dep.depend()] (dep.js) under a given active
    target; without a target it does nothing. *)
Definition dep_depend (target : option watcher_id) (d : dep_id) (st : Store) : Store :=
  match target with
  | Some t => addDep t d st
  | None => st
  end.

(** Modelled from the spec: [Watcher.depend], "attaches every Dep this Watcher
    currently holds to that outer target". *)
Definition watcher_depend (target : option watcher_id) (id : watcher_id)
    (st : Store) : Store :=
  foldl (fun s d => dep_depend target d s) st (deps (theWatcher st id)).

(** Modelled from the spec: dep-set reconciliation at the end of an
    evaluation, "any Dep subscribed last round but not touched this round is
    unsubscribed; the touched set becomes the new baseline". *)
Definition cleanupDeps (id : watcher_id) (st : Store) : Store :=
  let w := theWatcher st id in
  let st1 :=
    foldl (fun s d => if decide (d ∈ newDeps w) then s else removeSub d id s)
          st (deps w) in
  updateWatcher id (setDeps (newDeps w) []) st1.

(** Modelled from the spec: [Watcher.teardown], "removes itself from its
    owner's watcher list and unsubscribes from every held Dep; idempotent
    (no-op if already inactive)". *)
Definition teardown (id : watcher_id) (st : Store) : Store :=
  let w := theWatcher st id in
  if active w then
    let st1 :=
      updateObj (vm w)
        (fun o => setWatcherList (filter (fun x => x ≠ id) (_watchers o)) o) st in
    let st2 := foldl (fun s d => removeSub d id s) st1 (deps w) in
    updateWatcher id (setActive false) st2
  else st.

(** Modelled from the spec: the scheduler queue (scheduler.js is not among
    the sources), in which "one Watcher appears at most once per flush". *)
Definition enqueue (id : watcher_id) (st : Store) : Store :=
  if decide (id ∈ queue st) then st else with_queue (queue st ++ [id]) st.

(** A fresh object. *)
Definition allocObj (o : Obj) (st : Store) : loc * Store :=
  let l := fresh (dom (heap st)) in
  (l, with_heap (<[l := o]> (heap st)) st).

(** Modelled from the spec: [new Dep()] (dep.js), a Dep with no
    subscriber. *)
Definition newDep (st : Store) : dep_id * Store :=
  let d := fresh (dom (subs st)) in
  (d, with_subs (<[d := ∅]> (subs st)) st).

(** ** The collaborators of the instance layer *)

Section Engine.

Variable E : Env.

(** Modelled from the spec: [warn] (util is not among the sources), the
    "externally supplied warning hook", "purely advisory". *)
Definition warn (msg : string) (owner : Value) : M unit := emit (EWarn msg owner).

(** Modelled from the spec: [handleError(error, owner, contextLabel)] (util),
    the error-reporting hook, called "rather than crashing the evaluation
    pass". *)
Definition handleError (err owner : Value) (info : string) : M unit :=
  emit (EHandleError err owner info).

(** Modelled from the spec: [pushTarget] (dep.js), a push on the
    active-target stack; called without argument it pushes an empty
    target. *)
Definition pushTarget (t : option watcher_id) : M unit :=
  modifyWorld (fun w => with_targetStack (t :: targetStack w) w).

(** Modelled from the spec: [popTarget] (dep.js), the pop that restores the
    enclosing evaluator. *)
Definition popTarget : M unit :=
  modifyWorld (fun w => with_targetStack (tail (targetStack w)) w).

(** Modelled from the spec: [toggleObserving(bool)] (observer/index.js is not
    among the sources), the "process-wide flag" that "disables recursive
    observation". *)
Definition toggleObserving (b : bool) : M unit :=
  modifyWorld (with_shouldObserve b).

(** [f.call(this, ...args)].  A path getter reads from its first argument;
    what it reads is left to the environment. *)
Definition call_fn (f : Fn) (this : Value) (args : list Value) : M Value :=
  match f with
  | noop => ret VUndefined
  | UserFn id => emit (ECall id this args) ;; runUser (userBody E id this args)
  | parsePath p => runUser (pathBody E p (hd VUndefined args))
  | unwatchFn id => modifyStore (teardown id) ;; ret VUndefined
  end.

Definition call_value (f : Value) (this : Value) (args : list Value) : M Value :=
  match f with
  | VFun fn => call_fn fn this args
  | _ => throw (VError "TypeError")
  end.

(** Modelled from the spec: [invokeWithErrorHandling] (util), by which a
    throwing callback is "forwarded to the external
    error handler with contextual label, and evaluation yields a safe fallback
    (empty/undefined) rather than propagating". *)
Definition invokeWithErrorHandling (handler context : Value) (args : list Value)
    (owner : Value) (info : string) : M Value :=
  try_catch (call_value handler context args)
            (fun e => handleError e owner info ;; ret VUndefined).

(** Modelled from the spec: the deep traversal of a value, which only
    touches fields to register Deps; what it touches is left to the
    environment. *)
Definition traverse (v : Value) : M unit := fun w =>
  (Return tt, with_store (traverseBody E v w) w, []).

(** Modelled from the spec: [Watcher.get] (watcher.js), which "pushes itself onto the
    active-target stack, invokes the getter (catching and surfacing errors
    without crashing the caller when the option user is set)", reconciles its
    dep set and pops the stack in a guaranteed-cleanup block, "then if deep is
    set, recursively touches every nested field of the returned value". *)
Definition watcher_get (id : watcher_id) : M Value :=
  pushTarget (Some id) ;;
  st <- getStore ;;
  let w := theWatcher st id in
  v <- try_finally
         (try_catch
            (call_fn (getter w) (VObj (vm w)) [VObj (vm w)])
            (fun e =>
               if user w then
                 handleError e (VObj (vm w))
                   ("getter for watcher " +:+ quoted (expression w)) ;;
                 ret VUndefined
               else throw e))
         (popTarget ;; modifyStore (cleanupDeps id)) ;;
  (if deep w then traverse v else ret tt) ;;
  ret v.

(** Modelled from the spec: [Watcher.evaluate] (watcher.js) "forces get()
    and clears dirty". *)
Definition evaluate (id : watcher_id) : M unit :=
  v <- watcher_get id ;;
  modifyStore (updateWatcher id (fun w => setDirty false (setValue v w))).

(** Modelled from the spec: [Watcher.run] (watcher.js); a synchronous
    watcher "evaluates immediately": it re-evaluates and hands a changed value
    to its callback. *)
Definition watcher_run (id : watcher_id) : M unit :=
  st <- getStore ;;
  if active (theWatcher st id) then
    v <- watcher_get id ;;
    st' <- getStore ;;
    let w := theWatcher st' id in
    let old := value w in
    if decide (v = old) then ret tt
    else
      modifyStore (updateWatcher id (setValue v)) ;;
      if user w then
        invokeWithErrorHandling (cb w) (VObj (vm w)) [v; old] (VObj (vm w))
          ("callback for watcher " +:+ quoted (expression w)) ;;
        ret tt
      else
        call_value (cb w) (VObj (vm w)) [v; old] ;; ret tt
  else ret tt.

(** Modelled from the spec: [Watcher.update] (watcher.js), "If lazy, simply sets
    dirty=true ... If sync, evaluates immediately. Otherwise enqueues itself
    into a scheduler queue" (one entry per watcher). *)
Definition update (id : watcher_id) : M unit :=
  st <- getStore ;;
  let w := theWatcher st id in
  if lazy w then modifyStore (updateWatcher id (setDirty true))
  else if sync w then watcher_run id
  else modifyStore (enqueue id).

(** Modelled from the spec: [dep.notify()] (dep.js) "snapshots the current subscriber
    list, sorts it by insertion id ascending, and invokes each subscriber's
    update hook in that order". *)
Definition notify (d : dep_id) : M unit :=
  st <- getStore ;;
  forEach (merge_sort (≤) (elements (depSubs st d))) update.

(** The options of a watcher, by truthiness. *)
Record WatchOptions := {
  o_lazy : bool;
  o_user : bool;
  o_deep : bool;
  o_sync : bool;
  o_immediate : bool }.

Definition noOptions : WatchOptions :=
  {| o_lazy := false; o_user := false; o_deep := false; o_sync := false;
     o_immediate := false |}.

Definition withUser (o : WatchOptions) : WatchOptions :=
  {| o_lazy := o_lazy o; o_user := true; o_deep := o_deep o; o_sync := o_sync o;
     o_immediate := o_immediate o |}.

(** The first argument of [$watch] and of the Watcher constructor: a function
    or a dotted path. *)
Inductive ExpOrFn :=
| ExpFn (f : Fn)
| ExpPath (path : string).

Definition fnText (f : Fn) : string :=
  match f with
  | noop => "function noop (a, b, c) {}"
  | UserFn id => sourceText E id
  | parsePath p => p
  | unwatchFn _ => "function unwatchFn () {}"
  end.

Definition expOrFnText (e : ExpOrFn) : string :=
  match e with
  | ExpFn f => fnText f
  | ExpPath p => p
  end.

(** Modelled from the spec: the object built by the Watcher constructor
    (watcher.js), which "resolves exprOrFn to a zero-argument getter (a
    dotted-path accessor if given a path string; the function itself
    otherwise)" and, "if lazy, starts dirty with no value computed". *)
Definition makeWatcher (owner : loc) (expOrFn : ExpOrFn) (callback : Value)
    (o : WatchOptions) : Watcher :=
  {| vm := owner;
     getter := match expOrFn with ExpFn f => f | ExpPath p => parsePath p end;
     cb := callback; expression := expOrFnText expOrFn;
     lazy := o_lazy o; user := o_user o; deep := o_deep o; sync := o_sync o;
     dirty := o_lazy o; active := true; value := VUndefined;
     deps := []; newDeps := [] |}.

(** Modelled from the spec: the new watcher enters the store and joins "its
    owner's watcher list" (the list [teardown] removes it from). *)
Definition registerWatcher (id : watcher_id) (w : Watcher) (st : Store) : Store :=
  updateObj (vm w) (fun o => setWatcherList (_watchers o ++ [id]) o)
    (with_watchers (<[id := w]> (watchers st)) st).

(** Modelled from the spec: [new Watcher(owner, exprOrFn, callback,
    options)] (watcher.js): "If lazy, starts dirty with no value computed;
    otherwise evaluates immediately and captures the initial value". *)
Definition newWatcher (owner : loc) (expOrFn : ExpOrFn) (callback : Value)
    (options : option WatchOptions) : M watcher_id :=
  st <- getStore ;;
  let o := default noOptions options in
  let id := fresh (dom (watchers st)) in
  modifyStore (registerWatcher id (makeWatcher owner expOrFn callback o)) ;;
  (if o_lazy o then ret tt
   else v <- watcher_get id ;; modifyStore (updateWatcher id (setValue v))) ;;
  ret id.

(** Modelled from the spec: the effect of [defineReactive] (observer/index.js)
    on the store: it observes the value unless [shallow] and installs the
    accessor pair, whose Dep is created on the first tracked read.  [obs] is
    [observe]. *)
Definition installReactive (obs : Store -> Value -> Store * option dep_id)
    (l : loc) (key : string) (val : Value) (customSetter : option (string * Value))
    (shallow : bool) (st : Store) : Store :=
  let '(st1, childOb) := if shallow then (st, None) else obs st val in
  updateObj l
    (setProperty key
       (ReactiveProperty
          {| r_val := val; r_dep := None; r_childOb := childOb;
             r_customSetter := customSetter; r_shallow := shallow |})) st1.

(** Modelled from the spec: [observe] (observer/index.js): "if value is not a
    structured object or is already marked observed, returns the existing
    marker or nothing; otherwise creates an Observer, recursively observes
    every enumerable field"; with the toggle off nothing is created.  [fuel]
    bounds the depth of the walk, [so] is the toggle. *)
Fixpoint observeFuel (fuel : nat) (so : bool) (st : Store) (v : Value)
    : Store * option dep_id :=
  match v with
  | VObj l =>
      match heap st !! l with
      | None => (st, None)
      | Some o =>
          match ob o with
          | Some d => (st, Some d)
          | None =>
              if so then
                match fuel with
                | 0 => (st, None)
                | S n =>
                    let '(d, st1) := newDep st in
                    let st2 := updateObj l (setOb (Some d)) st1 in
                    let st3 :=
                      foldl (fun s kv =>
                               match kv.2 with
                               | DataProperty x =>
                                   installReactive (observeFuel n so) l kv.1 x None false s
                               | _ => s
                               end)
                            st2 (map_to_list (props o)) in
                    (st3, Some d)
                end
              else (st, None)
          end
      end
  | _ => (st, None)
  end.

(** Modelled from the spec: [observe] at the current toggle.  Every nested
    call marks one more object, so the number of objects bounds the depth of
    the walk. *)
Definition observe (v : Value) : M (option dep_id) := fun w =>
  match observeFuel (S (size (heap (store w)))) (shouldObserve w) (store w) v with
  | (st, m) => (Return m, with_store st w, [])
  end.

(** Modelled from the spec: [defineReactive(object, key, initialValue,
    customSetter?, shallow?)] (observer/index.js). *)
Definition defineReactive (obj : Value) (key : string) (val : Value)
    (customSetter : option (string * Value)) (shallow : bool) : M unit :=
  w <- getWorld ;;
  match obj with
  | VObj l =>
      if decide (is_Some (heap (store w) !! l)) then
        modifyStore
          (installReactive
             (observeFuel (S (size (heap (store w)))) (shouldObserve w))
             l key val customSetter shallow)
      else throw (VError "TypeError")
  | _ => throw (VError "TypeError")
  end.

(** Modelled from the spec: the getter that [defineReactive] installs: "if
    no active target, returns raw value. If an active target exists, lazily
    creates a Dep for this property (first access) and calls dep.depend() ...
    If the raw value is itself observed, also calls depend() on its
    structural marker's Dep". *)
Definition reactiveGetter (l : loc) (key : string) (r : Reactive) : M Value :=
  w <- getWorld ;;
  match Dep_target w with
  | None => ret (r_val r)
  | Some t =>
      d <- match r_dep r with
           | Some d => ret d
           | None => fun w' =>
               match newDep (store w') with
               | (d, st) =>
                   (Return d,
                    with_store
                      (updateObj l
                         (setProperty key
                            (ReactiveProperty
                               {| r_val := r_val r; r_dep := Some d;
                                  r_childOb := r_childOb r;
                                  r_customSetter := r_customSetter r;
                                  r_shallow := r_shallow r |})) st) w',
                    [])
               end
           end ;;
      modifyStore (addDep t d) ;;
      match r_childOb r with
      | Some c => modifyStore (addDep t c)
      | None => ret tt
      end ;;
      ret (r_val r)
  end.

(** Modelled from the spec: the setter that [defineReactive] installs: "if
    equal, no-op. Otherwise stores the new value, observes it if shallow is
    false, and calls dep.notify()"; the custom setter, present in development
    builds, warns first. *)
Definition reactiveSetter (l : loc) (key : string) (r : Reactive) (newVal : Value)
    : M unit :=
  if decide (newVal = r_val r) then ret tt
  else
    match r_customSetter r with
    | Some (msg, owner) => warn msg owner
    | None => ret tt
    end ;;
    childOb <- (if r_shallow r then ret None else observe newVal) ;;
    modifyStore
      (updateObj l
         (setProperty key
            (ReactiveProperty
               {| r_val := newVal; r_dep := r_dep r; r_childOb := childOb;
                  r_customSetter := r_customSetter r;
                  r_shallow := r_shallow r |}))) ;;
    match r_dep r with
    | Some d => notify d
    | None => ret tt
    end.

(** ** state.js *)

(** The function returned by [createComputedGetter(key)], run with receiver
    [this]. *)
Definition computedGetterBody (key : string) (this : Value) : M Value :=
  match this with
  | VObj l =>
      st <- getStore ;;
      match _computedWatchers (theObj st l) ≫= (fun m => m !! key) with
      | Some watcher =>
          (if dirty (theWatcher st watcher) then evaluate watcher else ret tt) ;;
          w <- getWorld ;;
          match Dep_target w with
          | Some t => modifyStore (watcher_depend (Some t) watcher)
          | None => ret tt
          end ;;
          st' <- getStore ;;
          ret (value (theWatcher st' watcher))
      | None => ret VUndefined
      end
  | VUndefined | VNull => throw (VError "TypeError")
  | _ => ret VUndefined
  end.

(** The function returned by [createGetterInvoker(fn)]. *)
Definition getterInvokerBody (fn : Fn) (this : Value) : M Value :=
  call_fn fn this [this].

(** The two closure makers. *)
Definition createComputedGetter (key : string) : Getter := computedGetter key.

Definition createGetterInvoker (fn : Fn) : Getter := getterInvoker fn.

(** Property read [o[k]] on own properties.  [depth] is the call depth left
    to the runtime: every accessor call uses one level, and running out is
    the runtime's RangeError. *)
Fixpoint js_get (depth : nat) (o : Value) (k : string) : M Value :=
  match depth with
  | 0 => throw (VError "RangeError")
  | S n =>
      match o with
      | VObj l =>
          st <- getStore ;;
          match props (theObj st l) !! k with
          | None => ret VUndefined
          | Some (DataProperty v) => ret v
          | Some (ReactiveProperty r) => reactiveGetter l k r
          | Some (AccessorProperty g _) =>
              match g with
              | getNoop => ret VUndefined
              | proxyGetter sourceKey key =>
                  (* return this[sourceKey][key] *)
                  backing <- js_get n o sourceKey ;;
                  js_get n backing key
              | computedGetter key => computedGetterBody key o
              | getterInvoker fn => getterInvokerBody fn o
              end
          end
      | VUndefined | VNull => throw (VError "TypeError")
      | _ => ret VUndefined
      end
  end.

Definition noSetterMessage (key : string) : string :=
  "Computed property " +:+ quoted key +:+
  " was assigned to but it has no setter.".

(** Property write [o[k] = v] (strict mode). *)
Fixpoint js_set (depth : nat) (o : Value) (k : string) (v : Value) : M unit :=
  match depth with
  | 0 => throw (VError "RangeError")
  | S n =>
      match o with
      | VObj l =>
          st <- getStore ;;
          match props (theObj st l) !! k with
          | None | Some (DataProperty _) =>
              modifyStore (updateObj l (setProperty k (DataProperty v)))
          | Some (ReactiveProperty r) => reactiveSetter l k r v
          | Some (AccessorProperty _ s) =>
              match s with
              | setFn fn => call_fn fn o [v] ;; ret tt
              | proxySetter sourceKey key =>
                  (* this[sourceKey][key] = val *)
                  backing <- js_get n o sourceKey ;;
                  js_set n backing key v
              | computedWarnSetter key => warn (noSetterMessage key) o
              end
          end
      | _ => throw (VError "TypeError")
      end
  end.

(** [Object.defineProperty(target, key, sharedPropertyDefinition)]: the
    accessor pair currently held by the shared descriptor is copied onto the
    target. *)
Definition defineSharedProperty (target : Value) (key : string) : M unit :=
  w <- getWorld ;;
  match target with
  | VObj l =>
      if decide (is_Some (heap (store w) !! l)) then
        modifyStore
          (updateObj l
             (setProperty key (AccessorProperty (sharedGet w) (sharedSet w))))
      else throw (VError "TypeError")
  | _ => throw (VError "TypeError")
  end.

Definition proxy (target : Value) (sourceKey key : string) : M unit :=
  modifyWorld (with_sharedGet (proxyGetter sourceKey key)) ;;
  modifyWorld (with_sharedSet (proxySetter sourceKey key)) ;;
  defineSharedProperty target key.

(** The object literal [{}]. *)
Definition newObject : M Value := fun w =>
  match allocObj emptyObj (store w) with
  | (l, st) => (Return (VObj l), with_store st w, [])
  end.

Definition getData (data : Fn) (vm : Value) : M Value :=
  pushTarget None ;;
  try_finally
    (try_catch
       (call_fn data vm [vm])
       (fun e => handleError e vm "data()" ;; newObject))
    popTarget.

(** A computed definition: a function, or an object with optional [get] and
    [set] and a [cache] field ([VUndefined] when absent). *)
Inductive UserDef :=
| UserDefFn (f : Fn)
| UserDefObj (get : option Fn) (set : option Fn) (cache : Value).

Definition defineComputed (target : Value) (key : string) (userDef : UserDef)
    : M unit :=
  let shouldCache := negb (isServerRendering E) in
  match userDef with
  | UserDefFn f =>
      modifyWorld
        (with_sharedGet
           (if shouldCache then createComputedGetter key
            else createGetterInvoker f)) ;;
      modifyWorld (with_sharedSet (setFn noop))
  | UserDefObj g s cache =>
      modifyWorld
        (with_sharedGet
           match g with
           | Some gf =>
               if shouldCache && bool_decide (cache ≠ VBool false)
               then createComputedGetter key
               else createGetterInvoker gf
           | None => getNoop
           end) ;;
      modifyWorld (with_sharedSet (setFn (default noop s)))
  end ;;
  w <- getWorld ;;
  (if negb (production E) && bool_decide (sharedSet w = setFn noop) then
     modifyWorld (with_sharedSet (computedWarnSetter key))
   else ret tt) ;;
  defineSharedProperty target key.

(** The second argument of [$watch]: a plain object [{ handler, ...options }],
    given as it is written, or any other value (a function, a method name,
    ...).  Plain objects are followed where they are written only: the store
    does not record whether an object it holds is a plain one, and a value
    read from the instance under a method name is passed on as the
    callback. *)
Inductive WatchHandler :=
| HValue (v : Value)
| HObject (handler : WatchHandler) (opts : WatchOptions).

(** [$watch] when [cb] is not a plain object. *)
Definition watchValue (this : loc) (expOrFn : ExpOrFn) (cb : Value)
    (options : option WatchOptions) : M Value :=
  let options := withUser (default noOptions options) in
  watcher <- newWatcher this expOrFn cb (Some options) ;;
  (if o_immediate options then
     st <- getStore ;;
     let info := "callback for immediate watcher " +:+
                 quoted (expression (theWatcher st watcher)) in
     pushTarget None ;;
     invokeWithErrorHandling cb (VObj this) [value (theWatcher st watcher)]
       (VObj this) info ;;
     popTarget
   else ret tt) ;;
  ret (VFun (unwatchFn watcher)).

(** [Vue.prototype.$watch].  A plain-object [cb] goes through
    [createWatcher], which takes the object as the options, its [handler] as
    the callback, resolves a method name on the instance and calls [$watch]
    again. *)
Fixpoint dollar_watch (this : loc) (expOrFn : ExpOrFn) (cb : WatchHandler)
    (options : option WatchOptions) : M Value :=
  match cb with
  | HObject handler opts =>
      match handler with
      | HValue (VStr name) =>
          method <- js_get (stackLimit E) (VObj this) name ;;
          watchValue this expOrFn method (Some opts)
      | _ => dollar_watch this expOrFn handler (Some opts)
      end
  | HValue v => watchValue this expOrFn v options
  end.

Definition createWatcher (this : loc) (expOrFn : ExpOrFn) (handler : WatchHandler)
    (options : option WatchOptions) : M Value :=
  match handler with
  | HObject inner opts =>
      match inner with
      | HValue (VStr name) =>
          method <- js_get (stackLimit E) (VObj this) name ;;
          dollar_watch this expOrFn (HValue method) (Some opts)
      | _ => dollar_watch this expOrFn inner (Some opts)
      end
  | HValue (VStr name) =>
      method <- js_get (stackLimit E) (VObj this) name ;;
      dollar_watch this expOrFn (HValue method) options
  | HValue _ => dollar_watch this expOrFn handler options
  end.

(** [count] successive reads of [o[k]], collecting the values read. *)
Fixpoint readTimes (count depth : nat) (o : Value) (k : string) : M (list Value) :=
  match count with
  | 0 => ret []
  | S c =>
      v <- js_get depth o k ;;
      vs <- readTimes c depth o k ;;
      ret (v :: vs)
  end.

(** ** Provide / inject *)

(** One entry of the normalised [inject] option: [{ from, default? }]
    ([idefault] is [None] when the object has no 'default' property), and
    whether the property holding it is enumerable.  Local names are strings;
    a source key may be a string or a symbol.  The property list is in
    enumeration order. *)
Record InjectDescriptor := {
  from : PropKey;
  idefault : option Value }.

Record InjectProperty := {
  enumerable : bool;
  descriptor : InjectDescriptor }.

(** What [resolveInject] reads of an instance: its identity, its
    [$options.inject], its [_provided] mapping and its [$parent].  The
    ownership chain of a live instance is finite, hence the inductive type. *)
#[warnings="-register-all"]
Inductive Component :=
  MkComponent {
    self : loc;
    inject : option (list (string * InjectProperty));
    _provided : option (gmap PropKey Value);
    parent : option Component }.

(** Ordered string-keyed objects: read and assignment. *)
Fixpoint alist_get {V} (k : string) (l : list (string * V)) : option V :=
  match l with
  | [] => None
  | (k', v) :: r => if decide (k = k') then Some v else alist_get k r
  end.

Fixpoint alist_set {V} (k : string) (v : V) (l : list (string * V))
    : list (string * V) :=
  match l with
  | [] => [(k, v)]
  | (k', v') :: r =>
      if decide (k = k') then (k, v) :: r else (k', v') :: alist_set k v r
  end.

(** [Reflect.ownKeys(inject)] and [Object.keys(inject)]. *)
Definition Reflect_ownKeys (o : list (string * InjectProperty)) : list string :=
  o.*1.

Definition Object_keys (o : list (string * InjectProperty)) : list string :=
  (filter (fun p => enumerable p.2 = true) o).*1.

(** The [while (source)] loop: the value provided by the nearest instance on
    the chain that has [provideKey] in its [_provided], or [None] when the
    loop ends with [source] undefined. *)
Fixpoint findProvided (source : Component) (provideKey : PropKey) : option Value :=
  match _provided source ≫= (fun p => p !! provideKey) with
  | Some v => Some v
  | None =>
      match parent source with
      | Some p => findProvided p provideKey
      | None => None
      end
  end.

Definition notFoundMessage (key : string) : string :=
  "Injection " +:+ quoted key +:+ " not found".

(** One round of the [for] loop of [resolveInject]. *)
Definition resolveInjectKey (inj : list (string * InjectProperty)) (vm : Component)
    (result : list (string * Value)) (key : string) : M (list (string * Value)) :=
  if decide (key = "__ob__") then ret result
  else
    match alist_get key inj with
    | None => throw (VError "TypeError")
    | Some p =>
        let provideKey := from (descriptor p) in
        match findProvided vm provideKey with
        | Some v => ret (alist_set key v result)
        | None =>
            match idefault (descriptor p) with
            | Some provideDefault =>
                v <- match provideDefault with
                     | VFun f => call_fn f (VObj (self vm)) []
                     | _ => ret provideDefault
                     end ;;
                ret (alist_set key v result)
            | None =>
                if negb (production E) then
                  warn (notFoundMessage key) (VObj (self vm)) ;;
                  ret result
                else ret result
            end
        end
    end.

Fixpoint resolveInjectKeys (inj : list (string * InjectProperty)) (vm : Component)
    (keys : list string) (result : list (string * Value))
    : M (list (string * Value)) :=
  match keys with
  | [] => ret result
  | key :: rest =>
      result' <- resolveInjectKey inj vm result key ;;
      resolveInjectKeys inj vm rest result'
  end.

(** [hasSymbol ? Reflect.ownKeys(inject) : Object.keys(inject)] *)
Definition injectKeys (inj : list (string * InjectProperty)) : list string :=
  if hasSymbol E then Reflect_ownKeys inj else Object_keys inj.

Definition resolveInject (inj : option (list (string * InjectProperty)))
    (vm : Component) : M (option (list (string * Value))) :=
  match inj with
  | Some inj =>
      let keys := injectKeys inj in
      result <- resolveInjectKeys inj vm keys [] ;;
      ret (Some result)
  | None => ret None
  end.

(** The instances from [vm] up to the root, nearest first. *)
Fixpoint chain (vm : Component) : list Component :=
  vm :: match parent vm with
        | Some p => chain p
        | None => []
        end.

(** Whether an instance holds a provided mapping with [provideKey] as own
    key, and the value there. *)
Definition provides (c : Component) (provideKey : PropKey) : option Value :=
  _provided c ≫= (fun p => p !! provideKey).

(** [Object.keys(result)]: every property of [result] was created by
    assignment, so all of them are enumerable. *)
Definition result_keys (result : list (string * Value)) : list string :=
  result.*1.

(** [result[key]] on a prototype-less object. *)
Definition result_get (result : list (string * Value)) (key : string) : Value :=
  default VUndefined (alist_get key result).

Definition injectionWarning (key : string) : string :=
  "Avoid mutating an injected value directly since the changes will be " +:+
  "overwritten whenever the provided component re-renders. " +:+
  "injection being mutated: " +:+ quoted key.

Definition initInjections (vm : Component) : M unit :=
  result <- resolveInject (inject vm) vm ;;
  match result with
  | Some result =>
      toggleObserving false ;;
      forEach (result_keys result) (fun key =>
        if negb (production E) then
          defineReactive (VObj (self vm)) key (result_get result key)
            (Some (injectionWarning key, VObj (self vm))) false
        else
          defineReactive (VObj (self vm)) key (result_get result key) None false) ;;
      toggleObserving true
  | None => ret tt
  end.

End Engine.


(** ** More of the instance layer

    Functions of the same files that sit beside the ones above. *)

(** *** init.js *)

(** What [resolveModifiedOptions] depends on beside its two objects: the
    values options can have, with the language's [undefined] and [===] on
    them (which is not reflexive: [NaN === NaN] is false), and the data
    properties of [Object.prototype], which both option objects and the
    object [{}] inherit, each with its [enumerable] attribute. *)
Record Realm := {
  OptionValue : Type;
  undefinedValue : OptionValue;
  strictEquals : OptionValue -> OptionValue -> bool;
  Object_prototype : list (string * (bool * OptionValue)) }.

(** [o[key]] on an option object (its own properties in enumeration order):
    the own property, else the one inherited from [Object.prototype], else
    [undefined]. *)
Definition optionValue (R : Realm) (o : list (string * OptionValue R))
    (key : string) : OptionValue R :=
  match alist_get key o with
  | Some v => v
  | None =>
      match alist_get key (Object_prototype R) with
      | Some p => p.2
      | None => undefinedValue R
      end
  end.

(** The keys that [for (const key in o)] visits: the own keys (all
    enumerable, the options being built by assignment), then the enumerable
    keys of [Object.prototype] that the object does not shadow. *)
Definition forInKeys (R : Realm) (o : list (string * OptionValue R))
    : list string :=
  o.*1 ++
  filter (fun key => key ∉ o.*1)
         (filter (fun p => p.2.1 = true) (Object_prototype R)).*1.

(** The [for (const key in latest)] loop of [resolveModifiedOptions];
    [modified] starts undefined and becomes [{}] at the first difference. *)
Fixpoint resolveModifiedKeys (R : Realm) (latest sealed : list (string * OptionValue R))
    (keys : list string) (modified : option (list (string * OptionValue R)))
    : option (list (string * OptionValue R)) :=
  match keys with
  | [] => modified
  | key :: rest =>
      if negb (strictEquals R (optionValue R latest key) (optionValue R sealed key))
      then
        resolveModifiedKeys R latest sealed rest
          (Some (alist_set key (optionValue R latest key) (default [] modified)))
      else resolveModifiedKeys R latest sealed rest modified
  end.

(** [resolveModifiedOptions(Ctor)], given [Ctor.options] and
    [Ctor.sealedOptions]. *)
Definition resolveModifiedOptions (R : Realm)
    (latest sealed : list (string * OptionValue R))
    : option (list (string * OptionValue R)) :=
  resolveModifiedKeys R latest sealed (forInKeys R latest) None.


(** *** state.js: [initWatch] *)

(** One value of the [watch] option: a handler, or an array of handlers. *)
Inductive WatchEntry :=
| WatchOne (handler : WatchHandler)
| WatchMany (handlers : list WatchHandler).

Definition initWatch (E : Env) (vm : loc) (watch : list (string * WatchEntry))
    : M unit :=
  forEach watch (fun entry =>
    match entry.2 with
    | WatchMany handlers =>
        forEach handlers (fun handler =>
          createWatcher E vm (ExpPath entry.1) handler None ;; ret tt)
    | WatchOne handler =>
        createWatcher E vm (ExpPath entry.1) handler None ;; ret tt
    end).


(** *** state.js: [initComputed] *)

Definition computedWatcherOptions : WatchOptions :=
  {| o_lazy := true; o_user := false; o_deep := false; o_sync := false;
     o_immediate := false |}.

Definition setComputedWatchers (m : option (gmap string watcher_id)) (o : Obj) : Obj :=
  {| props := props o; ob := ob o; _computedWatchers := m;
     _watchers := _watchers o |}.

(** What [initComputed] consults of the instance beside the store: the keys
    that [in] finds on the instance without their being properties held in
    the store (those of its prototype chain and its other own fields), the
    keys of [Object.prototype], and the keys of the [props] and [methods]
    options where the options are present. *)
Record InstanceShape := {
  otherKeys : gset string;
  objectPrototype : gset string;
  propsOption : option (gset string);
  methodsOption : option (gset string) }.

(** [key in o] for an object of the store whose prototype chain has the keys
    [proto]. *)
Definition hasKey (proto : gset string) (o : Obj) (key : string) : bool :=
  bool_decide (is_Some (props o !! key))
  || bool_decide (key = "__ob__" ∧ is_Some (ob o))
  || bool_decide (key = "_computedWatchers" ∧ is_Some (_computedWatchers o))
  || bool_decide (key ∈ proto).

(** [key in o].  Functions and error objects have no own properties in the
    store; on a primitive the operator throws. *)
Definition js_in (proto : gset string) (key : string) (o : Value) : M bool :=
  match o with
  | VObj l => st <- getStore ;; ret (hasKey proto (theObj st l) key)
  | VFun _ | VError _ => ret (bool_decide (key ∈ proto))
  | _ => throw (VError "TypeError")
  end.

(** [options && key in options] for the [props] and [methods] options. *)
Definition keyInOption (shape : InstanceShape) (opt : option (gset string))
    (key : string) : bool :=
  match opt with
  | Some keys => bool_decide (key ∈ keys ∨ key ∈ objectPrototype shape)
  | None => false
  end.

(** [typeof userDef === 'function' ? userDef : userDef.get] *)
Definition userGetter (userDef : UserDef) : option Fn :=
  match userDef with
  | UserDefFn f => Some f
  | UserDefObj g _ _ => g
  end.

Definition definedMessage (key place : string) : string :=
  "The computed property " +:+ quoted key +:+ " is already defined " +:+ place +:+ ".".

(** The body of the loop of [initComputed], for one key of [computed]. *)
Definition initComputedKey (E : Env) (shape : InstanceShape) (vm : loc)
    (key : string) (userDef : UserDef) : M unit :=
  let getter := userGetter userDef in
  (if negb (production E) && bool_decide (getter = None) then
     warn ("Getter is missing for computed property " +:+ quoted key +:+ ".")
       (VObj vm)
   else ret tt) ;;
  (if negb (isServerRendering E) then
     watcher <- newWatcher E vm (ExpFn (default noop getter)) (VFun noop)
                  (Some computedWatcherOptions) ;;
     (* watchers[key] = watcher *)
     modifyStore
       (updateObj vm (fun o =>
          setComputedWatchers
            (Some (<[key := watcher]> (default ∅ (_computedWatchers o)))) o))
   else ret tt) ;;
  inVm <- js_in (otherKeys shape) key (VObj vm) ;;
  if negb inVm then defineComputed E (VObj vm) key userDef
  else if negb (production E) then
    (* vm.$data is the accessor of stateMixin: this._data *)
    data <- js_get E (stackLimit E) (VObj vm) "_data" ;;
    inData <- js_in (objectPrototype shape) key data ;;
    if inData then warn (definedMessage key "in data") (VObj vm)
    else if keyInOption shape (propsOption shape) key then
      warn (definedMessage key "as a prop") (VObj vm)
    else if keyInOption shape (methodsOption shape) key then
      warn (definedMessage key "as a method") (VObj vm)
    else ret tt
  else ret tt.

Definition initComputed (E : Env) (shape : InstanceShape) (vm : loc)
    (computed : list (string * UserDef)) : M unit :=
  modifyStore (updateObj vm (setComputedWatchers (Some ∅))) ;;
  forEach computed (fun entry => initComputedKey E shape vm entry.1 entry.2).

(** ** Example environments and instances *)

(** Application code that does nothing and returns undefined. *)
Definition idleBody (w : World) : Outcome Value * Store := (Return VUndefined, store w).

Definition devEnv : Env :=
  {| production := false; hasSymbol := true; isServerRendering := false;
     stackLimit := 64;
     userBody := fun _ _ _ => idleBody;
     pathBody := fun _ _ => idleBody;
     traverseBody := fun _ w => store w;
     sourceText := fun _ => "function () {}" |}.

Definition prodEnv : Env :=
  {| production := true; hasSymbol := true; isServerRendering := false;
     stackLimit := 64;
     userBody := fun _ _ _ => idleBody;
     pathBody := fun _ _ => idleBody;
     traverseBody := fun _ w => store w;
     sourceText := fun _ => "function () {}" |}.

(** Application code that throws. *)
Definition failingBody (w : World) : Outcome Value * Store :=
  (Throw (VError "Error"), store w).

Definition failingEnv : Env :=
  {| production := false; hasSymbol := true; isServerRendering := false;
     stackLimit := 64;
     userBody := fun _ _ _ => failingBody;
     pathBody := fun _ _ => idleBody;
     traverseBody := fun _ w => store w;
     sourceText := fun _ => "function () { throw new Error() }" |}.

(** Root (provides [{theme: 'dark'}]) -> Mid -> Leaf (injects [theme] from
    ['theme']). *)
Definition themeInject : list (string * InjectProperty) :=
  [("theme", {| enumerable := true;
                descriptor := {| from := KStr "theme"; idefault := None |} |})].

Definition Root : Component :=
  {| self := 0; inject := None;
     _provided := Some {[ KStr "theme" := VStr "dark" ]}; parent := None |}.

Definition Mid : Component :=
  {| self := 1; inject := None; _provided := None; parent := Some Root |}.

Definition Leaf : Component :=
  {| self := 2; inject := Some themeInject; _provided := None; parent := Some Mid |}.

(** The same chain after Root's provide is removed. *)
Definition BareRoot : Component :=
  {| self := 0; inject := None; _provided := None; parent := None |}.

Definition BareMid : Component :=
  {| self := 1; inject := None; _provided := None; parent := Some BareRoot |}.

Definition BareLeaf : Component :=
  {| self := 2; inject := Some themeInject; _provided := None;
     parent := Some BareMid |}.

(** An observed inject object: the marker is an own, non-enumerable
    property, listed by [Reflect.ownKeys]. *)
Definition observedInject : list (string * InjectProperty) :=
  themeInject ++
  [("__ob__", {| enumerable := false;
                 descriptor := {| from := KStr "theme"; idefault := None |} |})].

(** An instance (object 0) whose [_data] is object 1, holding [msg]. *)
Definition dataWorld : World :=
  with_store
    (with_heap
       (<[0 := setProperty "_data" (DataProperty (VObj 1)) emptyObj]>
          (<[1 := setProperty "msg" (DataProperty (VStr "hi")) emptyObj]> ∅))
       emptyStore)
    initialWorld.

(** The specification's computed example, [sum = a + b] with [a = 1] and
    [b = 2].  User function 0 is the getter body: it reads the two fields of
    the data object (object 1), registering their Deps (10 and 11) with the
    active target. *)
Definition numberAt (st : Store) (l : loc) (k : string) : Z :=
  match props (theObj st l) !! k with
  | Some (DataProperty (VNum n)) => n
  | _ => 0%Z
  end.

Definition sumBody (w : World) : Outcome Value * Store :=
  let st := dep_depend (Dep_target w) 11 (dep_depend (Dep_target w) 10 (store w)) in
  (Return (VNum (numberAt st 1 "a" + numberAt st 1 "b")), st).

Definition sumEnv : Env :=
  {| production := false; hasSymbol := true; isServerRendering := false;
     stackLimit := 64;
     userBody := fun _ _ _ => sumBody;
     pathBody := fun _ _ => idleBody;
     traverseBody := fun _ w => store w;
     sourceText := fun _ => "function () { return this.a + this.b }" |}.

Definition lazyOptions : WatchOptions :=
  {| o_lazy := true; o_user := false; o_deep := false; o_sync := false;
     o_immediate := false |}.

(** The instance (object 0) as [initComputed] leaves it: a lazy watcher for
    [sum] in [_computedWatchers], and the accessor installed by
    [defineComputed]. *)
Definition sumWorld : World :=
  let w0 :=
    with_store
      (with_heap
         (<[0 := {| props := ∅; ob := None;
                    _computedWatchers := Some {[ "sum" := 0 ]};
                    _watchers := [] |}]>
            (<[1 := setProperty "a" (DataProperty (VNum 1))
                      (setProperty "b" (DataProperty (VNum 2)) emptyObj)]> ∅))
         emptyStore)
      initialWorld in
  let w1 :=
    world_of (newWatcher sumEnv 0 (ExpFn (UserFn 0)) (VFun noop) (Some lazyOptions) w0) in
  world_of (defineComputed sumEnv (VObj 0) "sum" (UserDefFn (UserFn 0)) w1).

(** The same example on observed data.  The getter body reads [a] and [b]
    of the data object through the reactive accessors, so the Deps are
    registered by the engine itself; a later write goes through the reactive
    setter and its notification. *)
Definition numberOf (v : Value) : Z :=
  match v with
  | VNum n => n
  | _ => 0%Z
  end.

Definition reactiveSumBody (w : World) : Outcome Value * Store :=
  match (a <- js_get devEnv 2 (VObj 1) "a" ;;
         b <- js_get devEnv 2 (VObj 1) "b" ;;
         ret (VNum (numberOf a + numberOf b))) w with
  | (r, w', _) => (r, store w')
  end.

Definition reactiveSumEnv : Env :=
  {| production := false; hasSymbol := true; isServerRendering := false;
     stackLimit := 64;
     userBody := fun _ _ _ => reactiveSumBody;
     pathBody := fun _ _ => idleBody;
     traverseBody := fun _ w => store w;
     sourceText := fun _ => "function () { return this.a + this.b }" |}.

Definition reactiveSumWorld : World :=
  let w0 :=
    with_store
      (with_heap
         (<[0 := {| props := ∅; ob := None;
                    _computedWatchers := Some {[ "sum" := 0 ]};
                    _watchers := [] |}]>
            (<[1 := setProperty "a" (DataProperty (VNum 1))
                      (setProperty "b" (DataProperty (VNum 2)) emptyObj)]> ∅))
         emptyStore)
      initialWorld in
  let w1 := world_of (observe (VObj 1) w0) in
  let w2 :=
    world_of (newWatcher reactiveSumEnv 0 (ExpFn (UserFn 0)) (VFun noop)
                (Some lazyOptions) w1) in
  world_of (defineComputed reactiveSumEnv (VObj 0) "sum" (UserDefFn (UserFn 0)) w2).

(** Two reads, a write to [a], two more reads. *)
Definition readWriteRead : M (list Value) :=
  r1 <- js_get reactiveSumEnv 2 (VObj 0) "sum" ;;
  r2 <- js_get reactiveSumEnv 2 (VObj 0) "sum" ;;
  js_set reactiveSumEnv 2 (VObj 1) "a" (VNum 5) ;;
  r3 <- js_get reactiveSumEnv 2 (VObj 0) "sum" ;;
  r4 <- js_get reactiveSumEnv 2 (VObj 0) "sum" ;;
  ret [r1; r2; r3; r4].

(** An instance that is being evaluated by watcher 9 when [getData] or
    [$watch] is called. *)
Definition nestedWorld : World :=
  with_targetStack [Some 9] dataWorld.

Definition immediateOptions : WatchOptions :=
  {| o_lazy := false; o_user := false; o_deep := false; o_sync := false;
     o_immediate := true |}.

(** A world whose heap holds the three instances. *)
Definition threeInstances : World :=
  with_store
    (with_heap (<[0 := emptyObj]> (<[1 := emptyObj]> (<[2 := emptyObj]> ∅)))
       emptyStore)
    initialWorld.


(** The values of the store as option values, compared by identity, under
    an [Object.prototype] that has [toString]. *)
Definition valueRealm : Realm :=
  {| OptionValue := Value; undefinedValue := VUndefined;
     strictEquals := fun a b => bool_decide (a = b);
     Object_prototype := [("toString", (false, VFun (UserFn 9)))] |}.

(** Constructor options after a global mixin changed [created] and added
    [mounted]; [name] was removed from the latest options. *)
Definition latestOptions : list (string * Value) :=
  [("created", VFun (UserFn 2)); ("el", VStr "#app"); ("mounted", VFun (UserFn 3))].

Definition sealedOptions : list (string * Value) :=
  [("created", VFun (UserFn 1)); ("el", VStr "#app"); ("name", VStr "App")].


(** [inject: { theme: { from: 'theme', default: () => ... } }], on the chain
    with Root's provide and on the bare one. *)
Definition themeWithDefault : list (string * InjectProperty) :=
  [("theme", {| enumerable := true;
                descriptor := {| from := KStr "theme";
                                 idefault := Some (VFun (UserFn 5)) |} |})].


Definition BareFactoryLeaf : Component :=
  {| self := 2; inject := Some themeWithDefault; _provided := None;
     parent := Some BareMid |}.


(** A getter body that returns 3 and touches nothing. *)
Definition constantBody (w : World) : Outcome Value * Store :=
  (Return (VNum 3), store w).

Definition serverEnv : Env :=
  {| production := true; hasSymbol := true; isServerRendering := true;
     stackLimit := 64;
     userBody := fun _ _ _ => constantBody;
     pathBody := fun _ _ => idleBody;
     traverseBody := fun _ w => store w;
     sourceText := fun _ => "function () { return 3 }" |}.


(** An instance (object 0) whose [_data] is object 1, holding [a] and [b]. *)
Definition twoFieldWorld : World :=
  with_store
    (with_heap
       (<[0 := setProperty "_data" (DataProperty (VObj 1)) emptyObj]>
          (<[1 := setProperty "a" (DataProperty (VNum 1))
                    (setProperty "b" (DataProperty (VNum 2)) emptyObj)]> ∅))
       emptyStore)
    initialWorld.


(** [watch: { msg: [{ handler: f7, immediate: true }, f8] }] *)
Definition msgWatch : list (string * WatchEntry) :=
  [("msg", WatchMany [HObject (HValue (VFun (UserFn 7))) immediateOptions;
                      HValue (VFun (UserFn 8))])].


(** An instance without [props] and [methods] options; [$watch] and
    [toString] are found on its prototype chain. *)
Definition plainShape : InstanceShape :=
  {| otherKeys := {[ "$watch"; "toString" ]};
     objectPrototype := {[ "toString" ]};
     propsOption := None; methodsOption := None |}.

(** [computed: { sum () { return this.a + this.b }, _data: { set: f1 } }] *)
Definition sumComputed : list (string * UserDef) :=
  [("sum", UserDefFn (UserFn 0));
   ("_data", UserDefObj None (Some (UserFn 1)) VUndefined)].


(** [inject: { locale: { from: 'locale' }, theme: { from: 'theme', default:
    () => ... } }] on the bare chain: [locale] has neither provider nor
    default. *)
Definition localeAndTheme : list (string * InjectProperty) :=
  ("locale", {| enumerable := true;
                descriptor := {| from := KStr "locale"; idefault := None |} |})
  :: themeWithDefault.

Definition WarnedFactoryLeaf : Component :=
  {| self := 2; inject := Some localeAndTheme; _provided := None;
     parent := Some BareMid |}.

(** ** Vocabulary of the statements *)

(** A computation that leaves the active-target stack as it found it, on
    every exit. *)
Definition keeps_stack {A} (m : M A) : Prop :=
  ∀ w, targetStack (world_of (m w)) = targetStack w.

(** A computation that pops the stack once, on every exit. *)
Definition pops_stack {A} (m : M A) : Prop :=
  ∀ w, targetStack (world_of (m w)) = tail (targetStack w).

(** A computation that always returns. *)
Definition never_throws {A} (m : M A) : Prop :=
  ∀ w, ∃ a, outcome_of (m w) = Return a.

(** The accessor pair that [defineComputed] leaves on the target. *)
Definition installedGetter (E : Env) (key : string) (userDef : UserDef) : Getter :=
  match userDef with
  | UserDefFn f =>
      if isServerRendering E then getterInvoker f else computedGetter key
  | UserDefObj (Some gf) _ cache =>
      if isServerRendering E then getterInvoker gf
      else if decide (cache = VBool false) then getterInvoker gf
      else computedGetter key
  | UserDefObj None _ _ => getNoop
  end.

Definition installedSetter (E : Env) (key : string) (userDef : UserDef) : Setter :=
  match userDef with
  | UserDefObj _ (Some (UserFn id)) _ => setFn (UserFn id)
  | UserDefObj _ (Some (parsePath p)) _ => setFn (parsePath p)
  | UserDefObj _ (Some (unwatchFn id)) _ => setFn (unwatchFn id)
  | _ => if production E then setFn noop else computedWarnSetter key
  end.

(** Two stores with the same heap in which every watcher has the same
    configuration, dirty flag, cached value and held Deps. *)
Definition same_cache (st st' : Store) : Prop :=
  heap st' = heap st ∧
  ∀ x, dirty (theWatcher st' x) = dirty (theWatcher st x) ∧
       value (theWatcher st' x) = value (theWatcher st x) ∧
       deps (theWatcher st' x) = deps (theWatcher st x).

(** The marker an already observed value carries, if any. *)
Definition existingOb (st : Store) (v : Value) : option dep_id :=
  match v with
  | VObj l => heap st !! l ≫= ob
  | _ => None
  end.

(** The reactive property that [initInjections] installs for a binding. *)
Definition injectedProperty (E : Env) (owner : loc) (st : Store) (key : string)
    (v : Value) : Property :=
  ReactiveProperty
    {| r_val := v; r_dep := None; r_childOb := existingOb st v;
       r_customSetter :=
         if production E then None else Some (injectionWarning key, VObj owner);
       r_shallow := false |}.

(** The store after the install loop of [initInjections]: one property
    written per key. *)
Definition installedStore (E : Env) (owner : loc) (result : list (string * Value))
    (st0 : Store) (keys : list string) (st : Store) : Store :=
  foldl (fun s key =>
           updateObj owner
             (setProperty key
                (injectedProperty E owner st0 key (result_get result key))) s)
        st keys.

(** A computed definition for which [defineComputed] enables caching
    outside server rendering: a function, or an object with a getter whose
    [cache] field is not [false]. *)
Definition cachingDef (userDef : UserDef) : Prop :=
  match userDef with
  | UserDefFn _ => True
  | UserDefObj g _ cache => is_Some g ∧ cache ≠ VBool false
  end.

(** A property slot that holds no accessor: absent, or a data property. *)
Definition plainSlot (p : option Property) : Prop :=
  p = None ∨ ∃ x, p = Some (DataProperty x).

(** A computed definition without a user setter. *)
Definition noSetter (userDef : UserDef) : Prop :=
  match userDef with
  | UserDefFn _ => True
  | UserDefObj _ s _ => s = None
  end.


(** The events of a trace that are not warnings. *)
#[global] Instance isWarn_dec ev : Decision (isWarn ev).
Proof. destruct ev; simpl; apply _. Defined.

Definition withoutWarnings (t : list Event) : list Event :=
  filter (fun ev => ¬ isWarn ev) t.

(** Two environments that differ at most in the build flag [production]. *)
Definition same_application (E E' : Env) : Prop :=
  hasSymbol E = hasSymbol E' ∧
  (∀ id this args w, userBody E id this args w = userBody E' id this args w) ∧
  (∀ path o w, pathBody E path o w = pathBody E' path o w).


(** The getter that [defineComputed] wraps with [createGetterInvoker]: the
    user's getter, under server rendering or when the definition says
    [cache: false]. *)
Definition uncachedGetter (E : Env) (userDef : UserDef) : option Fn :=
  match userDef with
  | UserDefFn f => if isServerRendering E then Some f else None
  | UserDefObj (Some gf) _ cache =>
      if isServerRendering E then Some gf
      else if decide (cache = VBool false) then Some gf
      else None
  | UserDefObj None _ _ => None
  end.


(** The callback and the options that a chain of plain-object handlers
    ends in. *)
Fixpoint innermostHandler (cb : WatchHandler) : Value :=
  match cb with
  | HValue v => v
  | HObject handler _ => innermostHandler handler
  end.

Fixpoint innermostOptions (cb : WatchHandler) (options : option WatchOptions)
    : option WatchOptions :=
  match cb with
  | HValue _ => options
  | HObject handler opts => innermostOptions handler (Some opts)
  end.

(** Whether a plain-object handler names a method ([{ handler: 'name' }]),
    and whether a handler given to [createWatcher] does, directly or so. *)
Fixpoint namesMethod (cb : WatchHandler) : bool :=
  match cb with
  | HValue _ => false
  | HObject (HValue (VStr _)) _ => true
  | HObject handler _ => namesMethod handler
  end.

Definition byMethodName (handler : WatchHandler) : bool :=
  match handler with
  | HValue (VStr _) => true
  | _ => namesMethod handler
  end.

Definition handlersOf (entry : WatchEntry) : list WatchHandler :=
  match entry with
  | WatchOne handler => [handler]
  | WatchMany handlers => handlers
  end.


(** An instance on which [initComputed] can run: it is in the store and,
    where the build reports name clashes, its [_data] holds an object. *)
Definition instanceReady (E : Env) (st : Store) (vm : loc) : Prop :=
  is_Some (heap st !! vm) ∧
  (production E = false →
   0 < stackLimit E ∧
   ∃ d, props (theObj st vm) !! "_data" = Some (DataProperty (VObj d))).

(** The watcher that [initComputed] makes for a definition. *)
Definition computedWatcher (E : Env) (vm : loc) (userDef : UserDef) : Watcher :=
  makeWatcher E vm (ExpFn (default noop (userGetter userDef))) (VFun noop)
    computedWatcherOptions.


(** The store after [initComputed] has made the watcher of one key, after
    it has handled one key, and after the whole loop. *)
Definition withComputedWatcher (E : Env) (vm : loc) (key : string)
    (userDef : UserDef) (st : Store) : Store :=
  let id := fresh (dom (watchers st)) in
  updateObj vm
    (fun o =>
       setComputedWatchers
         (Some (<[key := id]> (default ∅ (_computedWatchers o)))) o)
    (registerWatcher id (computedWatcher E vm userDef) st).

Definition computedKeyStore (E : Env) (shape : InstanceShape) (vm : loc)
    (key : string) (userDef : UserDef) (st : Store) : Store :=
  let st1 :=
    if isServerRendering E then st else withComputedWatcher E vm key userDef st in
  if hasKey (otherKeys shape) (theObj st1 vm) key then st1
  else
    updateObj vm
      (setProperty key
         (AccessorProperty (installedGetter E key userDef)
                           (installedSetter E key userDef)))
      st1.

Definition computedStore (E : Env) (shape : InstanceShape) (vm : loc)
    (computed : list (string * UserDef)) (st : Store) : Store :=
  foldl (fun st entry => computedKeyStore E shape vm entry.1 entry.2 st)
    st computed.

Definition computedSlot (st : Store) (vm : loc) (key : string) : option watcher_id :=
  _computedWatchers (theObj st vm) ≫= (fun m => m !! key).


(** Nothing is lost between two stores: the objects of the first are objects
    of the second, and those marked observed are still marked. *)
Definition marksKept (st st' : Store) : Prop :=
  (∀ l, is_Some (heap st !! l) → is_Some (heap st' !! l)) ∧
  (∀ l, is_Some (ob (theObj st l)) → is_Some (ob (theObj st' l))).

(** ** Proofs *)

Ltac munfold :=
  unfold bind, ret, throw, try_catch, try_finally, emit, getWorld, getStore,
    modifyStore, modifyWorld, runUser in *.

Lemma bind_Return_inv {A B} (m : M A) (k : A → M B) w b w' t :
  bind m k w = (Return b, w', t) →
  ∃ a w1 t1 t2,
    m w = (Return a, w1, t1) ∧ k a w1 = (Return b, w', t2) ∧ t = t1 ++ t2.
Proof.
  unfold bind. destruct (m w) as [[[a|e] w1] t1]; [|done].
  destruct (k a w1) as [[r w2] t2] eqn:Hk. intros [= -> -> <-].
  by exists a, w1, t1, t2.
Qed.

Lemma bind_Return {A B} (m : M A) (k : A → M B) w a w1 t1 :
  m w = (Return a, w1, t1) →
  bind m k w =
  match k a w1 with (r, w2, t2) => (r, w2, t1 ++ t2) end.
Proof. unfold bind. by intros ->. Qed.

Lemma bind_Throw {A B} (m : M A) (k : A → M B) w e w1 t1 :
  m w = (Throw e, w1, t1) → bind m k w = (Throw e, w1, t1).
Proof. unfold bind. by intros ->. Qed.

Lemma triple_eta {A} (x : Outcome A * World * list Event) :
  (let (p, t2) := x in let (r, w2) := p in (r, w2, [] ++ t2)) = x.
Proof. by destruct x as [[r w2] t2]. Qed.

Section InjectProofs.

Variable E : Env.

Lemma alist_get_set_eq {V} (k : string) (v : V) l :
  alist_get k (alist_set k v l) = Some v.
Proof.
  induction l as [|[k' v'] l IH]; simpl.
  - by rewrite decide_True.
  - destruct (decide (k = k')) as [->|Hne]; simpl.
    + by rewrite decide_True.
    + by rewrite decide_False.
Qed.

Lemma alist_get_set_ne {V} (k k' : string) (v : V) l :
  k ≠ k' → alist_get k (alist_set k' v l) = alist_get k l.
Proof.
  intros Hne. induction l as [|[k2 v2] l IH]; simpl.
  - by rewrite decide_False.
  - destruct (decide (k' = k2)) as [->|Hne2]; simpl.
    + by rewrite !decide_False.
    + destruct (decide (k = k2)); auto.
Qed.

Lemma Component_chain_ind (P : Component → Prop) :
  (∀ c, parent c = None → P c) →
  (∀ c p, parent c = Some p → P p → P c) →
  ∀ c, P c.
Proof.
  intros Hroot Hstep. fix IH 1. intros [s i pr [p|]].
  - apply (Hstep (MkComponent s i pr (Some p)) p eq_refl (IH p)).
  - by apply Hroot.
Qed.

Lemma findProvided_unfold source provideKey :
  findProvided source provideKey =
  match provides source provideKey with
  | Some v => Some v
  | None =>
      match parent source with
      | Some p => findProvided p provideKey
      | None => None
      end
  end.
Proof. by destruct source. Qed.

Lemma chain_unfold vm :
  chain vm = vm :: match parent vm with Some p => chain p | None => [] end.
Proof. by destruct vm. Qed.

(** The walk returns the value of the first instance on the chain that
    provides the key, whatever lies beyond it. *)
Lemma findProvided_nearest vm provideKey pre provider post v :
  chain vm = pre ++ provider :: post →
  Forall (fun c => provides c provideKey = None) pre →
  provides provider provideKey = Some v →
  findProvided vm provideKey = Some v.
Proof.
  revert vm. induction pre as [|c pre IH]; intros vm Hchain Hpre Hv.
  - rewrite chain_unfold in Hchain. simpl in Hchain.
    injection Hchain as -> _. rewrite findProvided_unfold. by rewrite Hv.
  - rewrite chain_unfold in Hchain. simpl in Hchain.
    injection Hchain as -> Hrest.
    apply Forall_cons in Hpre as [Hc Hpre].
    rewrite findProvided_unfold, Hc.
    destruct (parent c) as [p|].
    + by apply IH.
    + by destruct pre.
Qed.

Lemma findProvided_None vm provideKey :
  findProvided vm provideKey = None ↔
  Forall (fun c => provides c provideKey = None) (chain vm).
Proof.
  induction vm as [c Hroot|c p Hp IH] using Component_chain_ind.
  - rewrite findProvided_unfold, chain_unfold, Hroot. split.
    + intros H. destruct (provides c provideKey) eqn:Hc; [done|].
      by repeat constructor.
    + intros H. apply Forall_cons in H as [-> _]. done.
  - rewrite findProvided_unfold, chain_unfold, Hp. split.
    + intros H. destruct (provides c provideKey) eqn:Hc; [done|].
      constructor; [done|]. by apply IH.
    + intros H. apply Forall_cons in H as [-> H]. by apply IH.
Qed.

Lemma resolveInjectKey_found inj vm result key p v w :
  key ≠ "__ob__" →
  alist_get key inj = Some p →
  findProvided vm (from (descriptor p)) = Some v →
  resolveInjectKey E inj vm result key w = (Return (alist_set key v result), w, []).
Proof.
  intros Hne Hp Hv. unfold resolveInjectKey.
  rewrite decide_False by done. by rewrite Hp, Hv.
Qed.

Lemma resolveInjectKey_shape inj vm result key w r w' t :
  resolveInjectKey E inj vm result key w = (Return r, w', t) →
  r = result ∨ (key ≠ "__ob__" ∧ ∃ v, r = alist_set key v result).
Proof.
  unfold resolveInjectKey. destruct (decide (key = "__ob__")) as [|Hne].
  { intros [= <- _ _]. by left. }
  destruct (alist_get key inj) as [p|]; [|done].
  destruct (findProvided vm (from (descriptor p))) as [v|].
  { intros [= <- _ _]. right. eauto. }
  destruct (idefault (descriptor p)) as [d|].
  - intros H. apply bind_Return_inv in H as (v & w1 & t1 & t2 & _ & H & _).
    injection H as <- _ _. right. eauto.
  - destruct (negb (production E)).
    + intros H. apply bind_Return_inv in H as (v & w1 & t1 & t2 & _ & H & _).
      injection H as <- _ _. by left.
    + intros [= <- _ _]. by left.
Qed.

Lemma resolveInjectKey_other inj vm result key w r w' t k :
  resolveInjectKey E inj vm result key w = (Return r, w', t) →
  k ≠ key ∨ k = "__ob__" →
  alist_get k r = alist_get k result.
Proof.
  intros H Hk. apply resolveInjectKey_shape in H as [->|[Hne [v ->]]]; [done|].
  apply alist_get_set_ne. destruct Hk; congruence.
Qed.

Lemma resolveInjectKeys_other inj vm keys : ∀ result w r w' t k,
  resolveInjectKeys E inj vm keys result w = (Return r, w', t) →
  k ∉ keys ∨ k = "__ob__" →
  alist_get k r = alist_get k result.
Proof.
  induction keys as [|key rest IH]; intros result w r w' t k H Hk; simpl in H.
  - by injection H as <- _ _.
  - apply bind_Return_inv in H as (r1 & w1 & t1 & t2 & H1 & H2 & _).
    rewrite (IH _ _ _ _ _ k H2).
    + apply (resolveInjectKey_other _ _ _ _ _ _ _ _ _ H1).
      destruct Hk as [Hk|Hk]; [left|by right]. set_solver.
    + destruct Hk as [Hk|Hk]; [left|by right]. set_solver.
Qed.

Lemma resolveInjectKeys_found inj vm keys : ∀ result w r w' t k p v,
  resolveInjectKeys E inj vm keys result w = (Return r, w', t) →
  k ≠ "__ob__" →
  alist_get k inj = Some p →
  findProvided vm (from (descriptor p)) = Some v →
  k ∈ keys ∨ alist_get k result = Some v →
  alist_get k r = Some v.
Proof.
  induction keys as [|key rest IH]; intros result w r w' t k p v H Hne Hp Hv Hk;
    simpl in H.
  - injection H as <- _ _. destruct Hk as [Hk|Hk]; [by apply elem_of_nil in Hk|done].
  - apply bind_Return_inv in H as (r1 & w1 & t1 & t2 & H1 & H2 & _).
    eapply IH; eauto.
    destruct (decide (k = key)) as [->|Hkey].
    + right. rewrite (resolveInjectKey_found _ _ _ _ _ _ _ Hne Hp Hv) in H1.
      injection H1 as <- _ _. apply alist_get_set_eq.
    + destruct Hk as [Hk|Hk].
      * left. by apply elem_of_cons in Hk as [?|?].
      * right. rewrite (resolveInjectKey_other _ _ _ _ _ _ _ _ k H1); auto.
Qed.

(** C2: for every injected key, [resolveInject] walks the ownership chain from
    the consuming instance along [$parent] and binds the key to the value held
    by the nearest instance whose [_provided] has the source key; instances
    farther up the chain, whatever they provide, do not matter.  (The marker
    key [__ob__] is not an injected key, see C10.) *)
Theorem resolveInject_nearest_provider inj vm w result w' t key p pre provider post v :
  resolveInject E (Some inj) vm w = (Return (Some result), w', t) →
  key ∈ injectKeys E inj →
  key ≠ "__ob__" →
  alist_get key inj = Some p →
  chain vm = pre ++ provider :: post →
  Forall (fun c => provides c (from (descriptor p)) = None) pre →
  provides provider (from (descriptor p)) = Some v →
  alist_get key result = Some v.
Proof.
  intros H Hkey Hne Hp Hchain Hpre Hv. unfold resolveInject in H.
  apply bind_Return_inv in H as (r & w1 & t1 & t2 & H & Hret & _).
  injection Hret as <- _ _.
  eapply resolveInjectKeys_found; eauto.
  eapply findProvided_nearest; eauto.
Qed.

Lemma alist_get_None {V} (k : string) (l : list (string * V)) :
  alist_get k l = None ↔ k ∉ l.*1.
Proof.
  induction l as [|[k' v] l IH]; simpl.
  - split; [intros _; apply not_elem_of_nil|done].
  - destruct (decide (k = k')) as [->|Hne].
    + split; [done|]. intros H. exfalso. apply H. apply elem_of_cons. by left.
    + rewrite IH, not_elem_of_cons. split; [by intros ?; split|by intros [_ ?]].
Qed.

(** C10: [resolveInject] skips an own key named [__ob__], so the result
    mapping never has a binding for it, whichever way the keys are listed. *)
Theorem resolveInject_skips_ob inj vm w result w' t :
  resolveInject E (Some inj) vm w = (Return (Some result), w', t) →
  alist_get "__ob__" result = None ∧ "__ob__" ∉ result_keys result.
Proof.
  intros H. unfold resolveInject in H.
  apply bind_Return_inv in H as (r & w1 & t1 & t2 & H & Hret & _).
  injection Hret as <- _ _.
  assert (alist_get "__ob__" r = None) as Hnone.
  { rewrite (resolveInjectKeys_other _ _ _ _ _ _ _ _ "__ob__" H); [done|by right]. }
  split; [done|]. by apply alist_get_None.
Qed.

(** A key whose round never assigns stays as it was. *)
Lemma resolveInjectKeys_unbound inj vm k keys : ∀ result w r w' t,
  (∀ result w r w' t,
     resolveInjectKey E inj vm result k w = (Return r, w', t) → r = result) →
  resolveInjectKeys E inj vm keys result w = (Return r, w', t) →
  alist_get k r = alist_get k result.
Proof.
  induction keys as [|key rest IH]; intros result w r w' t Hk H; simpl in H.
  - by injection H as <- _ _.
  - apply bind_Return_inv in H as (r1 & w1 & t1 & t2 & H1 & H2 & _).
    rewrite (IH _ _ _ _ _ Hk H2).
    destruct (decide (k = key)) as [->|Hne].
    + by rewrite (Hk _ _ _ _ _ H1).
    + apply (resolveInjectKey_other _ _ _ _ _ _ _ _ _ H1). by left.
Qed.

(** A property that every round on [k] establishes holds at the end. *)
Lemma resolveInjectKeys_established inj vm k (Q : option Value → Prop) keys :
  ∀ result w r w' t,
  (∀ result w r w' t,
     resolveInjectKey E inj vm result k w = (Return r, w', t) →
     Q (alist_get k r)) →
  resolveInjectKeys E inj vm keys result w = (Return r, w', t) →
  k ∈ keys ∨ Q (alist_get k result) →
  Q (alist_get k r).
Proof.
  induction keys as [|key rest IH]; intros result w r w' t Hstep H Hk; simpl in H.
  - injection H as <- _ _. destruct Hk as [Hk|Hk]; [by apply elem_of_nil in Hk|done].
  - apply bind_Return_inv in H as (r1 & w1 & t1 & t2 & H1 & H2 & _).
    apply (IH _ _ _ _ _ Hstep H2).
    destruct (decide (k = key)) as [->|Hne].
    + right. eapply Hstep; eauto.
    + destruct Hk as [Hk|Hk].
      * left. by apply elem_of_cons in Hk as [?|?].
      * right. rewrite (resolveInjectKey_other _ _ _ _ _ _ _ _ k H1); auto.
Qed.

(** An event that every round on [k] emits is in the trace of the loop. *)
Lemma resolveInjectKeys_emits inj vm k ev keys : ∀ result w r w' t,
  (∀ result w r w' t,
     resolveInjectKey E inj vm result k w = (Return r, w', t) → ev ∈ t) →
  resolveInjectKeys E inj vm keys result w = (Return r, w', t) →
  k ∈ keys →
  ev ∈ t.
Proof.
  induction keys as [|key rest IH]; intros result w r w' t Hstep H Hk; simpl in H.
  - by apply elem_of_nil in Hk.
  - apply bind_Return_inv in H as (r1 & w1 & t1 & t2 & H1 & H2 & ->).
    apply elem_of_app. apply elem_of_cons in Hk as [->|Hk].
    + left. eapply Hstep; eauto.
    + right. eapply IH; eauto.
Qed.

Lemma call_fn_no_warn f this args w :
  Forall (fun ev => ¬ isWarn ev) (trace_of (call_fn E f this args w)).
Proof.
  unfold trace_of. destruct f; simpl; munfold; simpl.
  - constructor.
  - destruct (userBody E id this args w) as [r st]. simpl.
    repeat constructor. by intros [].
  - destruct (pathBody E path (hd VUndefined args) w) as [r st]. constructor.
  - constructor.
Qed.

Lemma resolveInjectKey_production_silent inj vm result key w :
  production E = true →
  Forall (fun ev => ¬ isWarn ev)
         (trace_of (resolveInjectKey E inj vm result key w)).
Proof.
  intros Hprod. unfold resolveInjectKey.
  destruct (decide (key = "__ob__")); [by constructor|].
  destruct (alist_get key inj) as [p|]; [|by constructor].
  destruct (findProvided vm (from (descriptor p))); [by constructor|].
  destruct (idefault (descriptor p)) as [d|].
  - destruct d; try by constructor.
    pose proof (call_fn_no_warn f (VObj (self vm)) [] w) as Hc.
    unfold bind. destruct (call_fn E f (VObj (self vm)) [] w) as [[[v|e] w1] t1];
      unfold trace_of in *; simpl in *; [|done].
    by rewrite app_nil_r.
  - rewrite Hprod. by constructor.
Qed.

Lemma resolveInjectKeys_production_silent inj vm keys : ∀ result w,
  production E = true →
  Forall (fun ev => ¬ isWarn ev)
         (trace_of (resolveInjectKeys E inj vm keys result w)).
Proof.
  induction keys as [|key rest IH]; intros result w Hprod; simpl.
  - by constructor.
  - pose proof (resolveInjectKey_production_silent inj vm result key w Hprod) as H1.
    unfold bind.
    destruct (resolveInjectKey E inj vm result key w) as [[[r1|e] w1] t1];
      unfold trace_of in *; simpl in *; [|done].
    pose proof (IH r1 w1 Hprod) as H2.
    destruct (resolveInjectKeys E inj vm rest r1 w1) as [[r2 w2] t2].
    simpl in *. by apply Forall_app.
Qed.

Lemma resolveInjectKey_not_found inj vm result key p w :
  key ≠ "__ob__" →
  alist_get key inj = Some p →
  findProvided vm (from (descriptor p)) = None →
  idefault (descriptor p) = None →
  resolveInjectKey E inj vm result key w =
  (Return result, w,
   if production E then [] else [EWarn (notFoundMessage key) (VObj (self vm))]).
Proof.
  intros Hne Hp Hv Hd. unfold resolveInjectKey.
  rewrite decide_False by done. rewrite Hp, Hv, Hd.
  by destruct (production E).
Qed.

Lemma resolveInjectKeys_app inj vm pre post : ∀ result w r w' t,
  resolveInjectKeys E inj vm (pre ++ post) result w = (Return r, w', t) →
  ∃ r1 w1 t1 t2,
    resolveInjectKeys E inj vm pre result w = (Return r1, w1, t1) ∧
    resolveInjectKeys E inj vm post r1 w1 = (Return r, w', t2) ∧
    t = t1 ++ t2.
Proof.
  induction pre as [|k pre IH]; intros result w r w' t H.
  - exists result, w, [], t. by repeat split.
  - cbn [app resolveInjectKeys] in H.
    apply bind_Return_inv in H as (ra & wa & ta & tb & Ha & Hb & ->).
    apply IH in Hb as (r1 & w1 & t1 & t2 & H1 & H2 & ->).
    exists r1, w1, (ta ++ t1), t2. cbn [resolveInjectKeys].
    rewrite (bind_Return _ _ _ _ _ _ Ha), H1. split; [done|]. split; [done|].
    by rewrite app_assoc.
Qed.

(** C3, amended: when no instance on the chain provides the source key, a
    declared default becomes the binding.  A function default is called with
    the instance as receiver and no arguments at the point the loop reaches
    the key: the call takes the world the earlier keys left, its events (for
    an application function, the one call) are part of the trace, the later
    keys continue from the world it leaves, and the value it returns is the
    binding.  Any other default is used as it is.  Without a default the
    round does not throw and binds nothing, so the key reads undefined, and
    the warning hook is called in a development build, while a production
    build signals nothing. *)
Theorem resolveInject_no_provider inj vm w result w' t key p :
  resolveInject E (Some inj) vm w = (Return (Some result), w', t) →
  key ∈ injectKeys E inj →
  key ≠ "__ob__" →
  alist_get key inj = Some p →
  Forall (fun c => provides c (from (descriptor p)) = None) (chain vm) →
  match idefault (descriptor p) with
  | Some (VFun f) =>
      ∃ pre post r1 w1 t1 v w2 t2 t3,
        injectKeys E inj = pre ++ key :: post ∧
        (key ∉ post) ∧
        resolveInjectKeys E inj vm pre [] w = (Return r1, w1, t1) ∧
        call_fn E f (VObj (self vm)) [] w1 = (Return v, w2, t2) ∧
        resolveInjectKeys E inj vm post (alist_set key v r1) w2 =
          (Return result, w', t3) ∧
        t = t1 ++ t2 ++ t3 ∧
        (∀ id, f = UserFn id → t2 = [ECall id (VObj (self vm)) []]) ∧
        alist_get key result = Some v
  | Some d => alist_get key result = Some d
  | None =>
      (∀ r0 w0, ∃ t0,
         resolveInjectKey E inj vm r0 key w0 = (Return r0, w0, t0)) ∧
      alist_get key result = None ∧
      result_get result key = VUndefined ∧
      (production E = false →
       EWarn (notFoundMessage key) (VObj (self vm)) ∈ t) ∧
      (production E = true → Forall (fun ev => ¬ isWarn ev) t)
  end.
Proof.
  intros H Hkey Hne Hp Hchain. apply findProvided_None in Hchain.
  unfold resolveInject in H.
  apply bind_Return_inv in H as (r & w1 & t1 & t2 & H & Hret & ->).
  injection Hret as <- <- <-. rewrite app_nil_r.
  destruct (idefault (descriptor p)) as [d|] eqn:Hd.
  - assert (∀ f, d = VFun f →
              ∃ pre post r1 w1' t1' v w2 t2 t3,
                injectKeys E inj = pre ++ key :: post ∧
                (key ∉ post) ∧
                resolveInjectKeys E inj vm pre [] w = (Return r1, w1', t1') ∧
                call_fn E f (VObj (self vm)) [] w1' = (Return v, w2, t2) ∧
                resolveInjectKeys E inj vm post (alist_set key v r1) w2 =
                  (Return r, w1, t3) ∧
                t1 = t1' ++ t2 ++ t3 ∧
                (∀ id, f = UserFn id → t2 = [ECall id (VObj (self vm)) []]) ∧
                alist_get key r = Some v) as Hfun.
    { intros f ->.
      destruct (list_elem_of_split_r _ _ Hkey) as (pre & post & Hsplit & Hpost).
      rewrite Hsplit in H.
      apply resolveInjectKeys_app in H as (r1 & wa & ta & tb & Hpre & Hrest & ->).
      cbn [resolveInjectKeys] in Hrest.
      apply bind_Return_inv in Hrest as (r2 & wb & tc & td & Hstep & Hrun & ->).
      unfold resolveInjectKey in Hstep.
      rewrite decide_False in Hstep by done. rewrite Hp, Hchain, Hd in Hstep.
      apply bind_Return_inv in Hstep as (v & w2 & t3 & t4 & Hcall & Hret & ->).
      injection Hret as <- <- <-. rewrite app_nil_r.
      exists pre, post, r1, wa, ta, v, w2, t3, td.
      do 5 (split; [done|]). split; [|split].
      - done.
      - intros id ->. unfold call_fn in Hcall. munfold.
        destruct (userBody E id (VObj (self vm)) [] wa) as [[x|x] st];
          by injection Hcall as _ _ <-.
      - rewrite (resolveInjectKeys_other _ _ _ _ _ _ _ _ key Hrun) by (by left).
        apply alist_get_set_eq. }
    assert ((∀ f, d ≠ VFun f) → alist_get key r = Some d) as Hval.
    { intros Hnf.
      apply (resolveInjectKeys_established inj vm key (fun o => o = Some d)
               _ _ _ _ _ _) in H; auto.
      intros r0 w0 r' w0' t0 Hstep. unfold resolveInjectKey in Hstep.
      rewrite decide_False in Hstep by done. rewrite Hp, Hchain, Hd in Hstep.
      destruct d; try (injection Hstep as <- _ _; apply alist_get_set_eq).
      by destruct (Hnf f). }
    destruct d; try (apply Hval; by intros f); by apply Hfun.
  - assert (∀ r0 w0 r' w0' t0,
              resolveInjectKey E inj vm r0 key w0 = (Return r', w0', t0) →
              r' = r0) as Hstay.
    { intros r0 w0 r' w0' t0 Hstep.
      rewrite (resolveInjectKey_not_found _ _ _ _ p) in Hstep by done.
      by injection Hstep as <- _ _. }
    assert (alist_get key r = None) as Hnone.
    { by rewrite (resolveInjectKeys_unbound inj vm key _ _ _ _ _ _ Hstay H). }
    split; [|split; [done|split; [|split]]].
    + intros r0 w0. eexists. by apply (resolveInjectKey_not_found _ _ _ _ p).
    + unfold result_get. by rewrite Hnone.
    + intros Hdev.
      apply (resolveInjectKeys_emits inj vm key _ _ _ _ _ _ _) with (2 := H); auto.
      intros r0 w0 r' w0' t0 Hstep.
      rewrite (resolveInjectKey_not_found _ _ _ _ p) in Hstep by done.
      rewrite Hdev in Hstep. injection Hstep as _ _ <-. apply list_elem_of_here.
    + intros Hprod.
      pose proof (resolveInjectKeys_production_silent inj vm (injectKeys E inj)
                    [] w Hprod) as Hs.
      by rewrite H in Hs.
Qed.

End InjectProofs.

(** The specification's example: Leaf resolves [theme = 'dark'] from Root. *)
Lemma resolveInject_nearest_provider_witness :
  resolveInject devEnv (Some themeInject) Leaf threeInstances =
    (Return (Some [("theme", VStr "dark")]), threeInstances, []) ∧
  alist_get "theme" [("theme", VStr "dark")] = Some (VStr "dark").
Proof.
  assert (resolveInject devEnv (Some themeInject) Leaf threeInstances =
            (Return (Some [("theme", VStr "dark")]), threeInstances, [])) as H
    by (vm_compute; reflexivity).
  split; [exact H|].
  apply (resolveInject_nearest_provider devEnv themeInject Leaf threeInstances
           _ _ _ "theme"
           {| enumerable := true;
              descriptor := {| from := KStr "theme"; idefault := None |} |}
           [Leaf; Mid] Root [] (VStr "dark") H).
  - vm_compute. apply list_elem_of_here.
  - discriminate.
  - reflexivity.
  - reflexivity.
  - repeat constructor.
  - reflexivity.
Defined.

(** An observed inject object listed by [Reflect.ownKeys]: the marker key is
    visited and skipped. *)
Lemma resolveInject_skips_ob_witness :
  "__ob__" ∈ injectKeys devEnv observedInject ∧
  alist_get "__ob__" [("theme", VStr "dark")] = None ∧
  "__ob__" ∉ result_keys [("theme", VStr "dark")].
Proof.
  split.
  - vm_compute. apply list_elem_of_further, list_elem_of_here.
  - apply (resolveInject_skips_ob devEnv observedInject Leaf threeInstances
             [("theme", VStr "dark")] threeInstances []).
    vm_compute. reflexivity.
Defined.

(** Root's provide removed, development build.  Without a default the key is
    left unbound and the warning hook is called; with a function default the
    function is called once, with the instance as receiver, and what it
    returns is bound. *)
Lemma resolveInject_no_provider_witness :
  (resolveInject devEnv (Some themeInject) BareLeaf threeInstances =
     (Return (Some []), threeInstances,
      [EWarn (notFoundMessage "theme") (VObj 2)]) ∧
   result_get [] "theme" = VUndefined) ∧
  (resolveInject devEnv (Some themeWithDefault) BareFactoryLeaf threeInstances =
     (Return (Some [("theme", VUndefined)]), threeInstances,
      [ECall 5 (VObj 2) []]) ∧
   ∃ w1 v w2,
     call_fn devEnv (UserFn 5) (VObj 2) [] w1 =
       (Return v, w2, [ECall 5 (VObj 2) []]) ∧
     alist_get "theme" [("theme", VUndefined)] = Some v).
Proof.
  assert (resolveInject devEnv (Some themeInject) BareLeaf threeInstances =
            (Return (Some []), threeInstances,
             [EWarn (notFoundMessage "theme") (VObj 2)])) as H
    by (vm_compute; reflexivity).
  assert (resolveInject devEnv (Some themeWithDefault) BareFactoryLeaf
            threeInstances =
            (Return (Some [("theme", VUndefined)]), threeInstances,
             [ECall 5 (VObj 2) []])) as H'
    by (vm_compute; reflexivity).
  split; (split; [done|]).
  - refine (proj1 (proj2 (proj2
      (resolveInject_no_provider devEnv themeInject BareLeaf threeInstances
         [] threeInstances _ "theme"
         {| enumerable := true;
            descriptor := {| from := KStr "theme"; idefault := None |} |}
         H _ _ _ _)))).
    + vm_compute. apply list_elem_of_here.
    + discriminate.
    + reflexivity.
    + repeat constructor.
  - destruct (resolveInject_no_provider devEnv themeWithDefault BareFactoryLeaf
                threeInstances _ _ _ "theme"
                {| enumerable := true;
                   descriptor := {| from := KStr "theme";
                                    idefault := Some (VFun (UserFn 5)) |} |}
                H')
      as (pre & post & r1 & w1 & t1 & v & w2 & t2 & t3 &
          _ & _ & _ & Hcall & _ & _ & Hev & Hv).
    + vm_compute. apply list_elem_of_here.
    + discriminate.
    + reflexivity.
    + repeat constructor.
    + exists w1, v, w2. rewrite (Hev 5 eq_refl) in Hcall. by split.
Defined.

(** C3 as stated fails in a production build: with no provider and no
    default, [resolveInject] returns without signalling anything. *)
Lemma resolveInject_not_found_silent_in_production :
  Forall (fun c => provides c (KStr "theme") = None) (chain BareLeaf) ∧
  resolveInject prodEnv (Some themeInject) BareLeaf threeInstances =
    (Return (Some []), threeInstances, []) ∧
  ¬ (∃ msg owner,
       EWarn msg owner ∈
         trace_of (resolveInject prodEnv (Some themeInject) BareLeaf threeInstances)).
Proof.
  assert (resolveInject prodEnv (Some themeInject) BareLeaf threeInstances =
            (Return (Some []), threeInstances, [])) as H
    by (vm_compute; reflexivity).
  split; [repeat constructor|]. split; [exact H|].
  rewrite H. intros (msg & owner & Hin). by apply elem_of_nil in Hin.
Qed.

(** *** The active-target stack is restored *)

Create HintDb stack discriminated.

Lemma keeps_stack_ret {A} (a : A) : keeps_stack (ret a).
Proof. by intros w. Qed.

Lemma keeps_stack_throw {A} e : keeps_stack (@throw A e).
Proof. by intros w. Qed.

Lemma keeps_stack_emit ev : keeps_stack (emit ev).
Proof. by intros w. Qed.

Lemma keeps_stack_getWorld : keeps_stack getWorld.
Proof. by intros w. Qed.

Lemma keeps_stack_getStore : keeps_stack getStore.
Proof. by intros w. Qed.

Lemma keeps_stack_modifyStore f : keeps_stack (modifyStore f).
Proof. by intros w. Qed.

Lemma keeps_stack_runUser body : keeps_stack (runUser body).
Proof. intros w. unfold runUser, world_of. by destruct (body w). Qed.

Lemma keeps_stack_bind {A B} (m : M A) (k : A → M B) :
  keeps_stack m → (∀ a, keeps_stack (k a)) → keeps_stack (bind m k).
Proof.
  intros Hm Hk w. specialize (Hm w). unfold bind, world_of in *.
  destruct (m w) as [[[a|e] w1] t1]; simpl in *; [|done].
  specialize (Hk a w1). unfold world_of in Hk.
  destruct (k a w1) as [[r w2] t2]. simpl in *. congruence.
Qed.

Lemma keeps_stack_try_catch {A} (m : M A) (h : Value → M A) :
  keeps_stack m → (∀ e, keeps_stack (h e)) → keeps_stack (try_catch m h).
Proof.
  intros Hm Hh w. specialize (Hm w). unfold try_catch, world_of in *.
  destruct (m w) as [[[a|e] w1] t1]; simpl in *; [done|].
  specialize (Hh e w1). unfold world_of in Hh.
  destruct (h e w1) as [[r w2] t2]. simpl in *. congruence.
Qed.

Lemma keeps_stack_forEach {A} (l : list A) (f : A → M unit) :
  (∀ a, keeps_stack (f a)) → keeps_stack (forEach l f).
Proof.
  intros Hf. induction l as [|x l IH]; simpl.
  - apply keeps_stack_ret.
  - apply keeps_stack_bind; auto.
Qed.

(** A body that keeps the stack, run between a push and a pop in [finally],
    gives the stack back as it was before the push: on both exits. *)
Lemma pop_after {A} (m : M A) (f : M unit) w :
  keeps_stack m →
  (∀ w, targetStack (world_of (f w)) = tail (targetStack w)) →
  targetStack (world_of (try_finally m f w)) = tail (targetStack w).
Proof.
  intros Hm Hf. specialize (Hm w). unfold try_finally, world_of in *.
  destruct (m w) as [[r w1] t1]. simpl in *.
  specialize (Hf w1). unfold world_of in Hf.
  destruct (f w1) as [[[u|e] w2] t2]; simpl in *; congruence.
Qed.

Lemma keeps_stack_bracket {A} t (m : M A) (f : M unit) :
  keeps_stack m →
  (∀ w, targetStack (world_of (f w)) = tail (targetStack w)) →
  keeps_stack (pushTarget t ;; try_finally m f).
Proof.
  intros Hm Hf w. unfold bind at 1. unfold pushTarget, modifyWorld.
  pose proof (pop_after m f (with_targetStack (t :: targetStack w) w) Hm Hf) as H.
  unfold world_of in *.
  destruct (try_finally m f (with_targetStack (t :: targetStack w) w))
    as [[r w2] t2]. simpl in *. done.
Qed.

Lemma popTarget_stack w :
  targetStack (world_of (popTarget w)) = tail (targetStack w).
Proof. done. Qed.

Lemma pops_stack_popTarget : pops_stack popTarget.
Proof. by intros w. Qed.

Lemma pops_stack_bind {A B} (m : M A) (k : A → M B) :
  pops_stack m → (∀ a, keeps_stack (k a)) → pops_stack (bind m k).
Proof.
  intros Hm Hk w. specialize (Hm w). unfold bind, world_of in *.
  destruct (m w) as [[[a|e] w1] t1]; simpl in *; [|done].
  specialize (Hk a w1). unfold world_of in Hk.
  destruct (k a w1) as [[r w2] t2]. simpl in *. congruence.
Qed.

Lemma pops_stack_getStore_bind {B} (k : Store → M B) :
  (∀ st, pops_stack (k st)) → pops_stack (bind getStore k).
Proof.
  intros Hk w. specialize (Hk (store w) w). unfold bind, getStore, world_of in *.
  destruct (k (store w) w) as [[r w2] t2]. by simpl in *.
Qed.

Lemma pops_stack_try_finally {A} (m : M A) (f : M unit) :
  keeps_stack m → pops_stack f → pops_stack (try_finally m f).
Proof. intros Hm Hf w. by apply pop_after. Qed.

Lemma pops_stack_after {A} (m : M A) :
  keeps_stack m → never_throws m → pops_stack (m ;; popTarget).
Proof.
  intros Hm Hn w. specialize (Hm w). destruct (Hn w) as [a Ha].
  unfold bind, world_of, outcome_of in *.
  destruct (m w) as [[r w1] t1]. simpl in *. subst r. simpl. by rewrite Hm.
Qed.

Lemma keeps_stack_push_then {A} t (m : M A) :
  pops_stack m → keeps_stack (pushTarget t ;; m).
Proof.
  intros Hm w. unfold bind, pushTarget, modifyWorld, world_of.
  specialize (Hm (with_targetStack (t :: targetStack w) w)). unfold world_of in Hm.
  destruct (m (with_targetStack (t :: targetStack w) w)) as [[r w2] t2].
  by simpl in *.
Qed.

#[export] Hint Resolve keeps_stack_ret keeps_stack_throw keeps_stack_emit
  keeps_stack_getWorld keeps_stack_getStore keeps_stack_modifyStore
  keeps_stack_runUser : stack.

Ltac solve_stack :=
  repeat first
    [ progress intros
    | apply keeps_stack_bind
    | apply keeps_stack_try_catch
    | apply keeps_stack_forEach
    | solve [auto with stack]
    | case_match ].

Section StackProofs.

Variable E : Env.

Lemma keeps_stack_call_fn f this args : keeps_stack (call_fn E f this args).
Proof. unfold call_fn. solve_stack. Qed.

Lemma keeps_stack_call_value f this args : keeps_stack (call_value E f this args).
Proof. unfold call_value. destruct f; auto using keeps_stack_call_fn with stack. Qed.

Lemma keeps_stack_handleError e o i : keeps_stack (handleError e o i).
Proof. apply keeps_stack_emit. Qed.

Lemma keeps_stack_warn m o : keeps_stack (warn m o).
Proof. apply keeps_stack_emit. Qed.

Lemma keeps_stack_invoke h c args o i :
  keeps_stack (invokeWithErrorHandling E h c args o i).
Proof.
  unfold invokeWithErrorHandling.
  apply keeps_stack_try_catch; [apply keeps_stack_call_value|].
  intros e. apply keeps_stack_bind; [apply keeps_stack_handleError|auto with stack].
Qed.

Lemma keeps_stack_traverse v : keeps_stack (traverse E v).
Proof. by intros w. Qed.

Lemma keeps_stack_watcher_get id : keeps_stack (watcher_get E id).
Proof.
  unfold watcher_get. apply keeps_stack_push_then.
  apply pops_stack_getStore_bind. intros st.
  apply pops_stack_bind.
  - apply pops_stack_try_finally.
    + apply keeps_stack_try_catch; [apply keeps_stack_call_fn|].
      intros e. destruct (user _); [|auto with stack].
      apply keeps_stack_bind; [apply keeps_stack_handleError|auto with stack].
    + apply pops_stack_bind; [apply pops_stack_popTarget|auto with stack].
  - intros v. apply keeps_stack_bind; [|auto with stack].
    destruct (deep _); [apply keeps_stack_traverse|auto with stack].
Qed.

Lemma keeps_stack_evaluate id : keeps_stack (evaluate E id).
Proof.
  unfold evaluate. apply keeps_stack_bind; [apply keeps_stack_watcher_get|].
  auto with stack.
Qed.

Lemma keeps_stack_watcher_run id : keeps_stack (watcher_run E id).
Proof.
  unfold watcher_run. apply keeps_stack_bind; [auto with stack|]. intros st.
  destruct (active _); [|auto with stack].
  apply keeps_stack_bind; [apply keeps_stack_watcher_get|]. intros v.
  apply keeps_stack_bind; [auto with stack|]. intros st'.
  destruct (decide _); [auto with stack|].
  apply keeps_stack_bind; [auto with stack|]. intros _.
  destruct (user _).
  - apply keeps_stack_bind; [apply keeps_stack_invoke|auto with stack].
  - apply keeps_stack_bind; [apply keeps_stack_call_value|auto with stack].
Qed.

Lemma keeps_stack_update id : keeps_stack (update E id).
Proof.
  unfold update. apply keeps_stack_bind; [auto with stack|]. intros st.
  destruct (lazy _); [auto with stack|].
  destruct (sync _); [apply keeps_stack_watcher_run|auto with stack].
Qed.

Lemma keeps_stack_notify d : keeps_stack (notify E d).
Proof.
  unfold notify. apply keeps_stack_bind; [auto with stack|]. intros st.
  apply keeps_stack_forEach. apply keeps_stack_update.
Qed.

Lemma keeps_stack_observe v : keeps_stack (observe v).
Proof. intros w. unfold observe, world_of. by destruct (observeFuel _ _ _ _). Qed.

Lemma keeps_stack_defineReactive obj key val c sh :
  keeps_stack (defineReactive obj key val c sh).
Proof. unfold defineReactive. solve_stack. Qed.

Lemma keeps_stack_reactiveGetter l key r : keeps_stack (reactiveGetter l key r).
Proof.
  unfold reactiveGetter. apply keeps_stack_bind; [auto with stack|]. intros w.
  destruct (Dep_target w); [|auto with stack].
  apply keeps_stack_bind.
  - destruct (r_dep r); [auto with stack|].
    intros w'. unfold world_of. by destruct (newDep _).
  - solve_stack.
Qed.

Lemma keeps_stack_reactiveSetter l key r v :
  keeps_stack (reactiveSetter E l key r v).
Proof.
  unfold reactiveSetter. destruct (decide _); [auto with stack|].
  apply keeps_stack_bind.
  { destruct (r_customSetter r) as [[m o]|]; [apply keeps_stack_warn|auto with stack]. }
  intros _. apply keeps_stack_bind.
  { destruct (r_shallow r); [auto with stack|apply keeps_stack_observe]. }
  intros c. apply keeps_stack_bind; [auto with stack|]. intros _.
  destruct (r_dep r); [apply keeps_stack_notify|auto with stack].
Qed.

Lemma keeps_stack_computedGetterBody key this :
  keeps_stack (computedGetterBody E key this).
Proof.
  unfold computedGetterBody. destruct this; auto with stack.
  apply keeps_stack_bind; [auto with stack|]. intros st.
  destruct (_ ≫= _); [|auto with stack].
  apply keeps_stack_bind.
  { destruct (dirty _); [apply keeps_stack_evaluate|auto with stack]. }
  solve_stack.
Qed.

Lemma keeps_stack_js_get depth : ∀ o k, keeps_stack (js_get E depth o k).
Proof.
  induction depth as [|n IH]; intros o k; simpl; [auto with stack|].
  destruct o; auto with stack.
  apply keeps_stack_bind; [auto with stack|]. intros st.
  destruct (props _ !! k) as [[v|g s|r]|]; auto with stack.
  - destruct g; auto with stack.
    + apply keeps_stack_bind; auto.
    + apply keeps_stack_computedGetterBody.
    + apply keeps_stack_call_fn.
  - apply keeps_stack_reactiveGetter.
Qed.

Lemma keeps_stack_js_set depth : ∀ o k v, keeps_stack (js_set E depth o k v).
Proof.
  induction depth as [|n IH]; intros o k v; simpl; [auto with stack|].
  destruct o; auto with stack.
  apply keeps_stack_bind; [auto with stack|]. intros st.
  destruct (props _ !! k) as [[x|g s|r]|]; auto with stack.
  - destruct s.
    + apply keeps_stack_bind; [apply keeps_stack_call_fn|auto with stack].
    + apply keeps_stack_bind; [apply keeps_stack_js_get|auto].
    + apply keeps_stack_warn.
  - apply keeps_stack_reactiveSetter.
Qed.

Lemma keeps_stack_newWatcher owner e c o : keeps_stack (newWatcher E owner e c o).
Proof.
  unfold newWatcher. apply keeps_stack_bind; [auto with stack|]. intros st.
  apply keeps_stack_bind; [auto with stack|]. intros _.
  apply keeps_stack_bind; [|auto with stack].
  destruct (o_lazy _); [auto with stack|].
  apply keeps_stack_bind; [apply keeps_stack_watcher_get|auto with stack].
Qed.

(** [invokeWithErrorHandling] turns every throw of the handler into a call of
    the error hook. *)
Lemma invoke_never_throws h c args o i : never_throws (invokeWithErrorHandling E h c args o i).
Proof.
  intros w. unfold invokeWithErrorHandling, try_catch, outcome_of.
  destruct (call_value E h c args w) as [[[a|e] w1] t1]; simpl; eauto.
Qed.

Lemma keeps_stack_watchValue this ex c o : keeps_stack (watchValue E this ex c o).
Proof.
  unfold watchValue. apply keeps_stack_bind; [apply keeps_stack_newWatcher|].
  intros watcher. apply keeps_stack_bind; [|auto with stack].
  destruct (o_immediate _); [|auto with stack].
  apply keeps_stack_bind; [auto with stack|]. intros st.
  apply keeps_stack_push_then.
  (* the pop is not in a finally block: it is reached because
     invokeWithErrorHandling never throws *)
  apply pops_stack_after.
  - apply keeps_stack_invoke.
  - apply invoke_never_throws.
Qed.

Lemma keeps_stack_getData data vm : keeps_stack (getData E data vm).
Proof.
  unfold getData. apply keeps_stack_bracket; [|apply pops_stack_popTarget].
  apply keeps_stack_try_catch; [apply keeps_stack_call_fn|].
  intros e. apply keeps_stack_bind; [apply keeps_stack_handleError|].
  intros _ w. unfold newObject, world_of. by destruct (allocObj _ _).
Qed.

Lemma keeps_stack_dollar_watch this ex cb : ∀ options,
  keeps_stack (dollar_watch E this ex cb options).
Proof.
  induction cb as [v|handler IH opts]; intros options; simpl.
  - apply keeps_stack_watchValue.
  - destruct handler as [v|h o]; [|apply IH].
    destruct v; try apply IH.
    apply keeps_stack_bind; [apply keeps_stack_js_get|].
    intros m. apply keeps_stack_watchValue.
Qed.

Lemma Dep_target_stack w w' :
  targetStack w' = targetStack w → Dep_target w' = Dep_target w.
Proof. unfold Dep_target. by intros ->. Qed.

(** What [getData] does, by the exit of the data function: the function runs
    under an empty target, and the pop follows on both exits. *)
Lemma getData_unfold data vm w :
  getData E data vm w =
  match call_fn E data vm [vm] (with_targetStack (None :: targetStack w) w) with
  | (Return v, w1, t1) => (Return v, with_targetStack (tail (targetStack w1)) w1, t1)
  | (Throw e, w1, t1) =>
      let '(l, st) := allocObj emptyObj (store w1) in
      (Return (VObj l),
       with_targetStack (tail (targetStack w1)) (with_store st w1),
       t1 ++ [EHandleError e vm "data()"])
  end.
Proof.
  unfold getData. unfold bind at 1. unfold pushTarget, modifyWorld. simpl.
  unfold try_finally, try_catch.
  destruct (call_fn E data vm [vm] _) as [[[v|e] w1] t1]; simpl.
  - by rewrite app_nil_r.
  - unfold bind, handleError, emit, newObject. simpl.
    destruct (allocObj emptyObj (store w1)) as [l st]. simpl.
    by rewrite !app_nil_r.
Qed.

(** C6: every push of the active-target stack made by this layer is matched
    by a pop on every exit.  [getData] runs the data function under an empty
    target that it pushed, and pops it in its [finally] block, whether the
    function returns or throws; the immediate-callback path of [$watch] pops
    after the callback, which is always reached because the callback's
    exceptions are handled.  In both cases the stack, and with it the active
    target of the enclosing evaluator, is what it was before the call. *)
Theorem target_stack_restored data vm this expOrFn cb options w :
  getData E data vm w =
    match call_fn E data vm [vm] (with_targetStack (None :: targetStack w) w) with
    | (Return v, w1, t1) => (Return v, with_targetStack (tail (targetStack w1)) w1, t1)
    | (Throw e, w1, t1) =>
        let '(l, st) := allocObj emptyObj (store w1) in
        (Return (VObj l),
         with_targetStack (tail (targetStack w1)) (with_store st w1),
         t1 ++ [EHandleError e vm "data()"])
    end ∧
  targetStack (world_of (getData E data vm w)) = targetStack w ∧
  Dep_target (world_of (getData E data vm w)) = Dep_target w ∧
  targetStack (world_of (dollar_watch E this expOrFn cb options w)) = targetStack w ∧
  Dep_target (world_of (dollar_watch E this expOrFn cb options w)) = Dep_target w.
Proof.
  pose proof (keeps_stack_getData data vm w) as H1.
  pose proof (keeps_stack_dollar_watch this expOrFn cb options w) as H2.
  split; [apply getData_unfold|]. repeat split; auto using Dep_target_stack.
Qed.

(** C5: when the user's [data()] function throws, [getData] catches the
    exception, hands it to [handleError] with the instance and the label
    ["data()"], and returns a fresh empty object instead of propagating. *)
Theorem getData_catches id vm w e st1 :
  userBody E id vm [vm] (with_targetStack (None :: targetStack w) w) = (Throw e, st1) →
  let l := fresh (dom (heap st1)) in
  getData E (UserFn id) vm w =
    (Return (VObj l),
     with_store (with_heap (<[l := emptyObj]> (heap st1)) st1) w,
     [ECall id vm [vm]; EHandleError e vm "data()"]) ∧
  heap st1 !! l = None ∧
  theObj (with_heap (<[l := emptyObj]> (heap st1)) st1) l = emptyObj.
Proof.
  intros Hbody l. split; [|split].
  - rewrite getData_unfold. simpl. unfold bind, emit, runUser. simpl.
    by rewrite Hbody.
  - apply not_elem_of_dom. apply is_fresh.
  - unfold theObj. simpl. by rewrite lookup_insert_eq.
Qed.

End StackProofs.

Lemma getData_catches_witness :
  getData failingEnv (UserFn 0) (VObj 0) threeInstances =
    (Return (VObj 3),
     with_store
       (with_heap (<[3 := emptyObj]> (heap (store threeInstances)))
          (store threeInstances)) threeInstances,
     [ECall 0 (VObj 0) [VObj 0]; EHandleError (VError "Error") (VObj 0) "data()"]).
Proof.
  refine (proj1 (getData_catches failingEnv 0 (VObj 0) threeInstances
                   (VError "Error") (store threeInstances) _)).
  reflexivity.
Defined.

(** *** Property access *)

Lemma theObj_updateObj_eq l f st :
  is_Some (heap st !! l) → theObj (updateObj l f st) l = f (theObj st l).
Proof.
  intros [o Ho]. unfold theObj, updateObj. simpl.
  by rewrite lookup_alter_eq, Ho.
Qed.

Lemma theObj_updateObj_ne l l' f st :
  l ≠ l' → theObj (updateObj l f st) l' = theObj st l'.
Proof.
  intros Hne. unfold theObj, updateObj. simpl. by rewrite lookup_alter_ne.
Qed.

Lemma heap_updateObj_is_Some l l' f st :
  is_Some (heap (updateObj l f st) !! l') ↔ is_Some (heap st !! l').
Proof.
  unfold updateObj. simpl. destruct (decide (l = l')) as [->|Hne].
  - rewrite lookup_alter_eq. by rewrite fmap_is_Some.
  - by rewrite lookup_alter_ne.
Qed.

Section PropertyProofs.

Variable E : Env.

Lemma js_get_data n l k v w :
  props (theObj (store w) l) !! k = Some (DataProperty v) →
  js_get E (S n) (VObj l) k w = (Return v, w, []).
Proof. intros H. simpl. munfold. simpl. by rewrite H. Qed.

Lemma js_get_absent n l k w :
  props (theObj (store w) l) !! k = None →
  js_get E (S n) (VObj l) k w = (Return VUndefined, w, []).
Proof. intros H. simpl. munfold. simpl. by rewrite H. Qed.

Lemma js_set_plain n l k v w :
  plainSlot (props (theObj (store w) l) !! k) →
  js_set E (S n) (VObj l) k v w =
  (Return tt, with_store (updateObj l (setProperty k (DataProperty v)) (store w)) w, []).
Proof. intros [H|[x H]]; simpl; munfold; simpl; by rewrite H. Qed.

(** Reading through a proxy accessor is reading the backing storage. *)
Lemma js_get_proxy n l k sourceKey key s w :
  props (theObj (store w) l) !! k = Some (AccessorProperty (proxyGetter sourceKey key) s) →
  js_get E (S n) (VObj l) k w =
  (backing <- js_get E n (VObj l) sourceKey ;; js_get E n backing key) w.
Proof.
  intros H. simpl. unfold bind at 1, getStore at 1. rewrite H.
  by destruct ((backing <- _ ;; _) w) as [[r w2] t2].
Qed.

(** Writing through a proxy accessor is writing the backing storage. *)
Lemma js_set_proxy n l k sourceKey key g v w :
  props (theObj (store w) l) !! k = Some (AccessorProperty g (proxySetter sourceKey key)) →
  js_set E (S n) (VObj l) k v w =
  (backing <- js_get E n (VObj l) sourceKey ;; js_set E n backing key v) w.
Proof.
  intros H. simpl. unfold bind at 1, getStore at 1. rewrite H.
  by destruct ((backing <- _ ;; _) w) as [[r w2] t2].
Qed.

Lemma proxy_result target sourceKey key w :
  is_Some (heap (store w) !! target) →
  proxy (VObj target) sourceKey key w =
  (Return tt,
   with_store
     (updateObj target
        (setProperty key
           (AccessorProperty (proxyGetter sourceKey key) (proxySetter sourceKey key)))
        (store w))
     (with_sharedSet (proxySetter sourceKey key)
        (with_sharedGet (proxyGetter sourceKey key) w)),
   []).
Proof.
  intros H. unfold proxy, defineSharedProperty. munfold. simpl.
  by rewrite decide_True.
Qed.

Lemma props_setProperty_eq k p o : props (setProperty k p o) !! k = Some p.
Proof. unfold setProperty. simpl. apply lookup_insert_eq. Qed.

Lemma props_setProperty_ne k k' p o :
  k ≠ k' → props (setProperty k p o) !! k' = props o !! k'.
Proof. intros H. unfold setProperty. simpl. by apply lookup_insert_ne. Qed.

(** C8: the property installed by [proxy(target, sourceKey, key)] is pure
    indirection.  A read of [target[key]] is the read [target[sourceKey][key]]
    and a write [target[key] = v] is the write [target[sourceKey][key] = v],
    for every target, source key and key; installing the proxy registers and
    notifies nothing.  When the backing storage is an ordinary object apart
    from the target, writing through the proxy stores the value in the
    backing object exactly as a direct write does, and reading through the
    proxy afterwards yields the written value, with no event. *)
Theorem proxy_is_indirection target sourceKey key w :
  is_Some (heap (store w) !! target) →
  let w1 := world_of (proxy (VObj target) sourceKey key w) in
  outcome_of (proxy (VObj target) sourceKey key w) = Return tt ∧
  trace_of (proxy (VObj target) sourceKey key w) = [] ∧
  watchers (store w1) = watchers (store w) ∧
  subs (store w1) = subs (store w) ∧
  (∀ n,
     js_get E (S n) (VObj target) key w1 =
     (backing <- js_get E n (VObj target) sourceKey ;; js_get E n backing key) w1) ∧
  (∀ n v,
     js_set E (S n) (VObj target) key v w1 =
     (backing <- js_get E n (VObj target) sourceKey ;; js_set E n backing key v) w1) ∧
  (∀ n backing v,
     sourceKey ≠ key →
     props (theObj (store w) target) !! sourceKey = Some (DataProperty (VObj backing)) →
     backing ≠ target →
     is_Some (heap (store w) !! backing) →
     plainSlot (props (theObj (store w) backing) !! key) →
     let w2 :=
       with_store (updateObj backing (setProperty key (DataProperty v)) (store w1)) w1 in
     js_set E (S (S n)) (VObj target) key v w1 = (Return tt, w2, []) ∧
     js_set E (S n) (VObj backing) key v w1 = (Return tt, w2, []) ∧
     js_get E (S (S n)) (VObj target) key w2 = (Return v, w2, []) ∧
     js_get E (S n) (VObj backing) key w2 = (Return v, w2, [])).
Proof.
  intros Htarget w1. subst w1. rewrite (proxy_result _ _ _ _ Htarget).
  unfold world_of, outcome_of, trace_of. cbn [fst snd].
  set (acc := AccessorProperty (proxyGetter sourceKey key) (proxySetter sourceKey key)).
  set (w1 := with_store (updateObj target (setProperty key acc) (store w)) _).
  assert (props (theObj (store w1) target) !! key = Some acc) as Hkey.
  { subst w1. simpl. rewrite theObj_updateObj_eq by done. apply props_setProperty_eq. }
  split; [done|]. split; [done|]. split; [done|]. split; [done|].
  split; [|split].
  - intros n. by apply js_get_proxy with (s := proxySetter sourceKey key).
  - intros n v. by apply js_set_proxy with (g := proxyGetter sourceKey key).
  - intros n backing v Hne Hsrc Hapart Hb Hslot.
    set (w2 := with_store (updateObj backing _ (store w1)) w1).
    assert (props (theObj (store w1) target) !! sourceKey =
            Some (DataProperty (VObj backing))) as Hsrc1.
    { subst w1. simpl. rewrite theObj_updateObj_eq by done.
      by rewrite props_setProperty_ne. }
    assert (theObj (store w1) backing = theObj (store w) backing) as Hb1.
    { subst w1. simpl. by rewrite theObj_updateObj_ne. }
    assert (is_Some (heap (store w1) !! backing)) as Hb1'.
    { subst w1. simpl. by apply heap_updateObj_is_Some. }
    assert (theObj (store w2) target = theObj (store w1) target) as Ht2.
    { subst w2. simpl. by rewrite theObj_updateObj_ne. }
    assert (props (theObj (store w2) backing) !! key = Some (DataProperty v)) as Hb2.
    { subst w2. simpl. rewrite theObj_updateObj_eq by done.
      apply props_setProperty_eq. }
    assert (js_set E (S n) (VObj backing) key v w1 = (Return tt, w2, [])) as Hdirect.
    { rewrite js_set_plain; [done|]. by rewrite Hb1. }
    split; [|split; [done|split]].
    + rewrite (js_set_proxy _ _ _ _ _ _ _ _ Hkey). unfold bind.
      rewrite (js_get_data _ _ _ _ _ Hsrc1). by rewrite Hdirect.
    + rewrite (js_get_proxy (S n) target key sourceKey key (proxySetter sourceKey key))
        by (by rewrite Ht2).
      unfold bind. rewrite (js_get_data _ _ _ (VObj backing)) by (by rewrite Ht2).
      by rewrite (js_get_data _ _ _ _ _ Hb2).
    + by apply js_get_data.
Qed.

Lemma defineComputed_result target key userDef w :
  is_Some (heap (store w) !! target) →
  defineComputed E (VObj target) key userDef w =
  (Return tt,
   with_store
     (updateObj target
        (setProperty key
           (AccessorProperty (installedGetter E key userDef)
                             (installedSetter E key userDef)))
        (store w))
     (with_sharedSet (installedSetter E key userDef)
        (with_sharedGet (installedGetter E key userDef) w)),
   []).
Proof.
  intros H. unfold defineComputed, defineSharedProperty, installedGetter,
    installedSetter, createComputedGetter, createGetterInvoker.
  destruct userDef as [f|[gf|] [sf|] cache]; munfold; simpl;
    destruct (isServerRendering E), (production E); simpl;
    try destruct sf; simpl;
    try (destruct (decide (cache = VBool false));
         [rewrite bool_decide_eq_false_2 by (by intros ?)
         |rewrite bool_decide_eq_true_2 by done]);
    simpl; rewrite ?decide_True by done; reflexivity.
Qed.

(** When caching is enabled, the getter that [defineComputed] installs is
    the one made by [createComputedGetter]. *)
Lemma defineComputed_caching target key userDef w :
  is_Some (heap (store w) !! target) →
  isServerRendering E = false →
  cachingDef userDef →
  props (theObj (store (world_of (defineComputed E (VObj target) key userDef w))) target)
    !! key =
  Some (AccessorProperty (computedGetter key) (installedSetter E key userDef)).
Proof.
  intros Htarget Hssr Hdef. rewrite (defineComputed_result _ _ _ _ Htarget).
  unfold world_of. cbn [fst snd store with_store].
  rewrite theObj_updateObj_eq by done. rewrite props_setProperty_eq.
  do 2 f_equal. unfold installedGetter. rewrite Hssr.
  destruct userDef as [f|[gf|] sf cache]; [done| |by destruct Hdef as [[? [=]] _]].
  destruct Hdef as [_ Hc]. by rewrite decide_False.
Qed.

(** C9: after [defineComputed] with a definition that has no setter, an
    assignment to the property returns normally and changes nothing in the
    world (the watcher's cached value included): the installed setter is
    [noop] in a production build and only calls the warning hook
    otherwise. *)
Theorem computed_without_setter_assignment target key userDef w :
  is_Some (heap (store w) !! target) →
  noSetter userDef →
  let w1 := world_of (defineComputed E (VObj target) key userDef w) in
  outcome_of (defineComputed E (VObj target) key userDef w) = Return tt ∧
  ∀ n v,
    js_set E (S n) (VObj target) key v w1 =
    (Return tt, w1,
     if production E then [] else [EWarn (noSetterMessage key) (VObj target)]).
Proof.
  intros Htarget Hno w1. subst w1.
  rewrite (defineComputed_result _ _ _ _ Htarget).
  unfold world_of, outcome_of. cbn [fst snd]. split; [done|]. intros n v.
  assert (installedSetter E key userDef =
          if production E then setFn noop else computedWarnSetter key) as Hs.
  { destruct userDef as [f|g s c]; [done|]. simpl in Hno. by subst s. }
  set (w1 := with_store _ _).
  assert (props (theObj (store w1) target) !! key =
          Some (AccessorProperty (installedGetter E key userDef)
                  (if production E then setFn noop else computedWarnSetter key)))
    as Hkey.
  { subst w1. simpl. rewrite theObj_updateObj_eq by done.
    rewrite props_setProperty_eq. by rewrite Hs. }
  simpl. unfold bind at 1, getStore at 1. rewrite Hkey.
  destruct (production E); by simpl.
Qed.

End PropertyProofs.

(** An instance whose [msg] is proxied onto [_data]: a write through the
    proxy lands in the backing object, and the read gives it back. *)
Lemma proxy_is_indirection_witness :
  let w1 := world_of (proxy (VObj 0) "_data" "msg" dataWorld) in
  let w2 :=
    with_store (updateObj 1 (setProperty "msg" (DataProperty (VStr "bye"))) (store w1))
      w1 in
  js_set devEnv 2 (VObj 0) "msg" (VStr "bye") w1 = (Return tt, w2, []) ∧
  js_set devEnv 1 (VObj 1) "msg" (VStr "bye") w1 = (Return tt, w2, []) ∧
  js_get devEnv 2 (VObj 0) "msg" w2 = (Return (VStr "bye"), w2, []) ∧
  js_get devEnv 1 (VObj 1) "msg" w2 = (Return (VStr "bye"), w2, []).
Proof.
  assert (is_Some (heap (store dataWorld) !! 0)) as H0 by (by eexists).
  pose proof (proxy_is_indirection devEnv 0 "_data" "msg" dataWorld H0) as H.
  cbv zeta in H. destruct H as (_ & _ & _ & _ & _ & _ & H).
  apply (H 0 1 (VStr "bye")).
  - discriminate.
  - reflexivity.
  - discriminate.
  - by eexists.
  - right. by eexists.
Defined.

(** A computed property given as a function, development build: an
    assignment only warns. *)
Lemma computed_without_setter_assignment_witness :
  let w1 := world_of (defineComputed devEnv (VObj 0) "sum" (UserDefFn (UserFn 0)) dataWorld) in
  js_set devEnv 1 (VObj 0) "sum" (VNum 7) w1 =
  (Return tt, w1, [EWarn (noSetterMessage "sum") (VObj 0)]).
Proof.
  assert (is_Some (heap (store dataWorld) !! 0)) as H0 by (by eexists).
  pose proof (computed_without_setter_assignment devEnv 0 "sum" (UserDefFn (UserFn 0))
                dataWorld H0 I) as H.
  cbv zeta in H. destruct H as [_ H]. apply (H 0 (VNum 7)).
Defined.

(** *** The computed-property accessor *)

Lemma with_store_id w : with_store (store w) w = w.
Proof. by destruct w. Qed.

Lemma theWatcher_updateWatcher_eq id f st :
  theWatcher (updateWatcher id f st) id = f (theWatcher st id).
Proof. unfold theWatcher, updateWatcher. simpl. by rewrite lookup_insert_eq. Qed.

Lemma theWatcher_updateWatcher_ne id x f st :
  id ≠ x → theWatcher (updateWatcher id f st) x = theWatcher st x.
Proof.
  intros H. unfold theWatcher, updateWatcher. simpl. by rewrite lookup_insert_ne.
Qed.

Lemma same_cache_refl st : same_cache st st.
Proof. by split. Qed.

Lemma same_cache_trans st1 st2 st3 :
  same_cache st1 st2 → same_cache st2 st3 → same_cache st1 st3.
Proof.
  intros [H1 H1'] [H2 H2']. split; [congruence|].
  intros x. destruct (H1' x) as (?&?&?), (H2' x) as (?&?&?).
  repeat split; congruence.
Qed.

Lemma same_cache_addDep t d st : same_cache st (addDep t d st).
Proof.
  unfold addDep. destruct (decide (d ∈ newDeps (theWatcher st t))).
  { apply same_cache_refl. }
  assert (same_cache st
            (updateWatcher t
               (setDeps (deps (theWatcher st t)) (newDeps (theWatcher st t) ++ [d]))
               st)) as H.
  { split; [done|]. intros x. destruct (decide (t = x)) as [->|Hne].
    - by rewrite theWatcher_updateWatcher_eq.
    - by rewrite theWatcher_updateWatcher_ne. }
  destruct (decide (d ∈ deps (theWatcher st t))); [done|].
  eapply same_cache_trans; [exact H|]. by split.
Qed.

Lemma same_cache_foldl_depend target l : ∀ st,
  same_cache st (foldl (fun s d => dep_depend target d s) st l).
Proof.
  induction l as [|d l IH]; intros st; simpl; [apply same_cache_refl|].
  eapply same_cache_trans; [|apply IH].
  destruct target; simpl; [apply same_cache_addDep|apply same_cache_refl].
Qed.

Lemma same_cache_watcher_depend target id st :
  same_cache st (watcher_depend target id st).
Proof. apply same_cache_foldl_depend. Qed.

Lemma watcher_depend_None id st : watcher_depend None id st = st.
Proof.
  unfold watcher_depend. generalize (deps (theWatcher st id)).
  intros l. by induction l.
Qed.

(** After [addDep t d] the Dep is in the target's new-dep set, and stays
    there while further Deps are added. *)
Lemma addDep_newDeps t d st : d ∈ newDeps (theWatcher (addDep t d st) t).
Proof.
  unfold addDep. destruct (decide (d ∈ newDeps (theWatcher st t))); [done|].
  assert (d ∈ newDeps
            (theWatcher
               (updateWatcher t
                  (setDeps (deps (theWatcher st t)) (newDeps (theWatcher st t) ++ [d]))
                  st) t)) as H.
  { rewrite theWatcher_updateWatcher_eq. simpl. apply elem_of_app. right.
    apply list_elem_of_here. }
  by destruct (decide (d ∈ deps (theWatcher st t))).
Qed.

Lemma addDep_newDeps_mono t d d' st :
  d ∈ newDeps (theWatcher st t) → d ∈ newDeps (theWatcher (addDep t d' st) t).
Proof.
  intros Hin. unfold addDep.
  destruct (decide (d' ∈ newDeps (theWatcher st t))); [done|].
  assert (d ∈ newDeps
            (theWatcher
               (updateWatcher t
                  (setDeps (deps (theWatcher st t)) (newDeps (theWatcher st t) ++ [d']))
                  st) t)) as H.
  { rewrite theWatcher_updateWatcher_eq. simpl. apply elem_of_app. by left. }
  by destruct (decide (d' ∈ deps (theWatcher st t))).
Qed.

Lemma foldl_depend_newDeps t l : ∀ st d,
  d ∈ l ∨ d ∈ newDeps (theWatcher st t) →
  d ∈ newDeps (theWatcher (foldl (fun s d => dep_depend (Some t) d s) st l) t).
Proof.
  induction l as [|d' l IH]; intros st d H; simpl.
  - destruct H as [H|H]; [by apply elem_of_nil in H|done].
  - apply IH. destruct H as [H|H].
    + apply elem_of_cons in H as [->|H]; [right; apply addDep_newDeps|by left].
    + right. by apply addDep_newDeps_mono.
Qed.

(** [Watcher.depend]: every Dep the watcher holds ends up in the new-dep set
    of the active target. *)
Lemma watcher_depend_attaches t id st d :
  d ∈ deps (theWatcher st id) →
  d ∈ newDeps (theWatcher (watcher_depend (Some t) id st) t).
Proof. intros H. apply foldl_depend_newDeps. by left. Qed.

Section ComputedProofs.

Variable E : Env.

Lemma computed_read_clean key l id w :
  _computedWatchers (theObj (store w) l) ≫= (fun m => m !! key) = Some id →
  dirty (theWatcher (store w) id) = false →
  computedGetterBody E key (VObj l) w =
  (Return (value (theWatcher (store w) id)),
   with_store (watcher_depend (Dep_target w) id (store w)) w, []).
Proof.
  intros Hw Hd. unfold computedGetterBody. munfold. simpl. rewrite Hw, Hd. simpl.
  destruct (Dep_target w) as [t|]; simpl.
  - destruct (same_cache_watcher_depend (Some t) id (store w)) as [_ Hc].
    destruct (Hc id) as (_ & -> & _). done.
  - by rewrite watcher_depend_None, with_store_id.
Qed.

(** One evaluation of a computed watcher: the getter body is entered once,
    under the watcher as active target. *)
Lemma watcher_get_plain id g w :
  getter (theWatcher (store w) id) = UserFn g →
  user (theWatcher (store w) id) = false →
  deep (theWatcher (store w) id) = false →
  watcher_get E id w =
  let this := VObj (vm (theWatcher (store w) id)) in
  match userBody E g this [this] (with_targetStack (Some id :: targetStack w) w) with
  | (r, st1) => (r, with_store (cleanupDeps id st1) w, [ECall g this [this]])
  end.
Proof.
  intros Hg Hu Hdeep. unfold watcher_get. munfold. unfold pushTarget, popTarget.
  munfold. simpl. rewrite Hg, Hu, Hdeep. simpl. munfold. simpl.
  destruct (userBody E g _ _ _) as [[v|e] st1].
  - exact eq_refl.
  - exact eq_refl.
Qed.

Lemma evaluate_unfold id w :
  evaluate E id w =
  match watcher_get E id w with
  | (Return v, w1, t1) =>
      (Return tt,
       with_store (updateWatcher id (fun x => setDirty false (setValue v x)) (store w1)) w1,
       t1)
  | (Throw e, w1, t1) => (Throw e, w1, t1)
  end.
Proof.
  unfold evaluate. munfold.
  destruct (watcher_get E id w) as [[[v|e] w1] t1]; simpl; [|done].
  by rewrite app_nil_r.
Qed.

Lemma js_get_computed n l key s w :
  props (theObj (store w) l) !! key = Some (AccessorProperty (computedGetter key) s) →
  js_get E (S n) (VObj l) key w = computedGetterBody E key (VObj l) w.
Proof.
  intros H. cbn [js_get]. unfold bind at 1, getStore at 1. rewrite H.
  by destruct (computedGetterBody E key (VObj l) w) as [[r w2] t2].
Qed.

Lemma readTimes_clean c n l key s id : ∀ w,
  props (theObj (store w) l) !! key = Some (AccessorProperty (computedGetter key) s) →
  _computedWatchers (theObj (store w) l) ≫= (fun m => m !! key) = Some id →
  dirty (theWatcher (store w) id) = false →
  ∃ w',
    readTimes E c (S n) (VObj l) key w =
      (Return (replicate c (value (theWatcher (store w) id))), w', []) ∧
    same_cache (store w) (store w') ∧
    targetStack w' = targetStack w.
Proof.
  induction c as [|c IH]; intros w Hp Hw Hd.
  - exists w. repeat split; done.
  - set (w1 := with_store (watcher_depend (Dep_target w) id (store w)) w).
    pose proof (same_cache_watcher_depend (Dep_target w) id (store w)) as Hsame.
    assert (theObj (store w1) l = theObj (store w) l) as Hobj.
    { unfold theObj. subst w1. simpl. by rewrite (proj1 Hsame). }
    destruct (proj2 Hsame id) as (Hd1 & Hv1 & _).
    destruct (IH w1) as (w' & Hread & Hsame' & Hstack).
    { by rewrite Hobj. }
    { by rewrite Hobj. }
    { subst w1. simpl. by rewrite Hd1. }
    exists w'. split; [|split].
    + cbn [readTimes]. unfold bind at 1.
      rewrite (js_get_computed _ _ _ _ _ Hp), (computed_read_clean _ _ _ _ Hw Hd).
      fold w1. unfold bind. rewrite Hread. simpl. unfold ret.
      subst w1. simpl. by rewrite Hv1.
    + eapply same_cache_trans; [exact Hsame|exact Hsame'].
    + by rewrite Hstack.
Qed.

(** C1: the getter of a computed property installed with caching enabled.
    It evaluates the watcher when it is dirty, then makes the active outer
    target depend on the watcher's Deps, and returns the watcher's cached
    value.  While the watcher is clean a read enters no user code and returns
    the cached value, however many times the property is read; a read of a
    dirty watcher enters the getter body once, caches what it returns and
    leaves the watcher clean. *)
Theorem computed_getter_memoizes l key s id n w :
  props (theObj (store w) l) !! key = Some (AccessorProperty (computedGetter key) s) →
  _computedWatchers (theObj (store w) l) ≫= (fun m => m !! key) = Some id →
  let cached := value (theWatcher (store w) id) in
  let this := VObj (vm (theWatcher (store w) id)) in
  js_get E (S n) (VObj l) key w =
    ((if dirty (theWatcher (store w) id) then evaluate E id else ret tt) ;;
     w' <- getWorld ;;
     match Dep_target w' with
     | Some t => modifyStore (watcher_depend (Some t) id)
     | None => ret tt
     end ;;
     st' <- getStore ;;
     ret (value (theWatcher st' id))) w ∧
  (dirty (theWatcher (store w) id) = false →
   js_get E (S n) (VObj l) key w =
     (Return cached, with_store (watcher_depend (Dep_target w) id (store w)) w, []) ∧
   (∀ t d,
      Dep_target w = Some t →
      d ∈ deps (theWatcher (store w) id) →
      d ∈ newDeps (theWatcher (watcher_depend (Some t) id (store w)) t)) ∧
   (∀ c, ∃ w',
      readTimes E c (S n) (VObj l) key w = (Return (replicate c cached), w', []) ∧
      same_cache (store w) (store w'))) ∧
  (dirty (theWatcher (store w) id) = true →
   ∀ g v st1,
     getter (theWatcher (store w) id) = UserFn g →
     user (theWatcher (store w) id) = false →
     deep (theWatcher (store w) id) = false →
     userBody E g this [this] (with_targetStack (Some id :: targetStack w) w) =
       (Return v, st1) →
     let st2 :=
       updateWatcher id (fun x => setDirty false (setValue v x)) (cleanupDeps id st1) in
     let st3 := watcher_depend (Dep_target w) id st2 in
     js_get E (S n) (VObj l) key w =
       (Return v, with_store st3 w, [ECall g this [this]]) ∧
     dirty (theWatcher st3 id) = false ∧
     value (theWatcher st3 id) = v ∧
     (∀ t d,
        Dep_target w = Some t →
        d ∈ deps (theWatcher st2 id) →
        d ∈ newDeps (theWatcher st3 t))).
Proof.
  intros Hp Hw cached this.
  rewrite (js_get_computed _ _ _ _ _ Hp). split; [|split].
  - unfold computedGetterBody. unfold bind at 1, getStore at 1. rewrite Hw.
    apply triple_eta.
  - intros Hd. split; [by apply computed_read_clean|]. split.
    + intros t d _ Hin. by apply watcher_depend_attaches.
    + intros c. destruct (readTimes_clean c n l key s id w Hp Hw Hd)
        as (w' & Hr & Hs & _). by exists w'.
  - intros Hd g v st1 Hg Hu Hdeep Hbody st2 st3.
    assert (dirty (theWatcher st3 id) = false ∧ value (theWatcher st3 id) = v)
      as [Hd3 Hv3].
    { destruct (same_cache_watcher_depend (Dep_target w) id st2) as [_ Hc].
      destruct (Hc id) as (Hd' & Hv' & _). fold st3 in Hd', Hv'.
      rewrite Hd', Hv'. subst st2. by rewrite theWatcher_updateWatcher_eq. }
    split; [|split; [done|split; [done|]]].
    + unfold computedGetterBody. unfold bind at 1, getStore at 1.
      rewrite Hw, Hd. unfold bind at 1.
      rewrite evaluate_unfold, (watcher_get_plain _ _ _ Hg Hu Hdeep).
      cbv zeta. fold this. rewrite Hbody. munfold. cbn [store with_store targetStack].
      fold st2. unfold Dep_target at 1. cbn [targetStack with_store].
      fold (Dep_target w). subst st3.
      destruct (Dep_target w) as [t|]; cbn.
      * rewrite Hv3. exact eq_refl.
      * rewrite watcher_depend_None in *. rewrite Hv3. exact eq_refl.
    + intros t d Ht Hin. subst st3. rewrite Ht. by apply watcher_depend_attaches.
Qed.

End ComputedProofs.

(** The first read of [sum] runs the getter body once and yields 3. *)
Lemma computed_getter_memoizes_witness :
  dirty (theWatcher (store sumWorld) 0) = true ∧
  outcome_of (js_get sumEnv 1 (VObj 0) "sum" sumWorld) = Return (VNum 3) ∧
  trace_of (js_get sumEnv 1 (VObj 0) "sum" sumWorld) = [ECall 0 (VObj 0) [VObj 0]].
Proof.
  assert (props (theObj (store sumWorld) 0) !! "sum" =
          Some (AccessorProperty (computedGetter "sum") (computedWarnSetter "sum")))
    as Hp by (vm_compute; reflexivity).
  assert (_computedWatchers (theObj (store sumWorld) 0) ≫= (fun m => m !! "sum") =
          Some 0) as Hw by (vm_compute; reflexivity).
  assert (dirty (theWatcher (store sumWorld) 0) = true) as Hd
    by (vm_compute; reflexivity).
  pose proof (computed_getter_memoizes sumEnv 0 "sum" (computedWarnSetter "sum") 0 0
                sumWorld Hp Hw) as H.
  cbv zeta in H. destruct H as (_ & _ & H).
  destruct (H Hd 0 (VNum 3)
              (sumBody (with_targetStack (Some 0 :: targetStack sumWorld) sumWorld)).2)
    as (Hread & _).
  - vm_compute; reflexivity.
  - vm_compute; reflexivity.
  - vm_compute; reflexivity.
  - vm_compute; reflexivity.
  - split; [exact Hd|]. rewrite Hread. split; [reflexivity|].
    unfold trace_of. cbn [snd]. vm_compute. reflexivity.
Defined.

(** The specification's figures: [sum] read five times between writes
    enters the underlying function once and returns 3 each time. *)
Example sum_read_five_times :
  outcome_of (readTimes sumEnv 5 1 (VObj 0) "sum" sumWorld) =
    Return [VNum 3; VNum 3; VNum 3; VNum 3; VNum 3] ∧
  trace_of (readTimes sumEnv 5 1 (VObj 0) "sum" sumWorld) =
    [ECall 0 (VObj 0) [VObj 0]].
Proof. split; vm_compute; reflexivity. Qed.

(** *** [$watch] *)

Section WatchProofs.

Variable E : Env.

Lemma newWatcher_unfold owner ex callback o w :
  newWatcher E owner ex callback (Some o) w =
  let id := fresh (dom (watchers (store w))) in
  let w0 :=
    with_store (registerWatcher id (makeWatcher E owner ex callback o) (store w)) w in
  if o_lazy o then (Return id, w0, [])
  else
    match watcher_get E id w0 with
    | (Return v, w1, t1) =>
        (Return id, with_store (updateWatcher id (setValue v) (store w1)) w1, t1)
    | (Throw e, w1, t1) => (Throw e, w1, t1)
    end.
Proof.
  unfold newWatcher. munfold. change (default noOptions (Some o)) with o.
  cbv zeta. destruct (o_lazy o); [exact eq_refl|].
  destruct (watcher_get E _ _) as [[[v|e] w1] t1]; cbn; [|exact eq_refl].
  by rewrite !app_nil_r.
Qed.

Lemma theWatcher_registerWatcher id made st :
  theWatcher (registerWatcher id made st) id = made.
Proof.
  unfold theWatcher, registerWatcher, updateObj. simpl. by rewrite lookup_insert_eq.
Qed.

(** A watcher with the [user] option never lets a getter exception out. *)
Lemma watcher_get_user_returns id w :
  user (theWatcher (store w) id) = true →
  ∃ v w1 t1, watcher_get E id w = (Return v, w1, t1).
Proof.
  intros Hu. unfold watcher_get. munfold. unfold pushTarget, popTarget. munfold.
  cbn [store with_targetStack]. rewrite Hu.
  destruct (call_fn E _ _ _ _) as [[[v|e] w1] t1]; cbn.
  - destruct (deep _); cbn; eauto.
  - destruct (deep _); cbn; eauto.
Qed.

Lemma newWatcher_user_returns owner ex callback o w :
  o_user o = true →
  ∃ w1 t1,
    newWatcher E owner ex callback (Some o) w =
    (Return (fresh (dom (watchers (store w)))), w1, t1).
Proof.
  intros Hu. rewrite newWatcher_unfold. cbv zeta.
  destruct (o_lazy o); [eauto|].
  set (w0 := with_store _ w).
  destruct (watcher_get_user_returns (fresh (dom (watchers (store w)))) w0)
    as (v & w1 & t1 & ->); [|eauto].
  subst w0. cbn [store with_store]. by rewrite theWatcher_registerWatcher.
Qed.

Lemma depSubs_removeSub d d' id st :
  depSubs (removeSub d id st) d' =
  if decide (d = d') then depSubs st d ∖ {[id]} else depSubs st d'.
Proof.
  unfold depSubs at 1, removeSub. simpl. destruct (decide (d = d')) as [->|Hne].
  - by rewrite lookup_insert_eq.
  - by rewrite lookup_insert_ne.
Qed.

Lemma foldl_removeSub_gone id l : ∀ st d,
  d ∈ l ∨ id ∉ depSubs st d →
  id ∉ depSubs (foldl (fun s d => removeSub d id s) st l) d.
Proof.
  induction l as [|d' l IH]; intros st d H; simpl.
  - destruct H as [H|H]; [by apply elem_of_nil in H|done].
  - apply IH. rewrite depSubs_removeSub.
    destruct (decide (d' = d)) as [->|Hne].
    + right. intros Hin. apply elem_of_difference in Hin as [_ Hin].
      apply Hin. by apply elem_of_singleton.
    + destruct H as [H|H]; [|by right].
      apply elem_of_cons in H as [->|H]; [done|by left].
Qed.

(** [teardown] unsubscribes the watcher from every Dep it holds and leaves
    it inactive. *)
Lemma teardown_unsubscribes id st d :
  active (theWatcher st id) = true →
  d ∈ deps (theWatcher st id) →
  id ∉ depSubs (teardown id st) d.
Proof.
  intros Ha Hd. unfold teardown. rewrite Ha.
  set (st1 := updateObj _ _ st).
  pose proof (foldl_removeSub_gone id (deps (theWatcher st id)) st1 d (or_introl Hd)) as H.
  done.
Qed.

Lemma teardown_inactive id st : active (theWatcher (teardown id st) id) = false.
Proof.
  unfold teardown. destruct (active (theWatcher st id)) eqn:Ha; [|done].
  by rewrite theWatcher_updateWatcher_eq.
Qed.

(** C7: [$watch] with a function callback.  The Watcher is constructed with
    the [user] option set (so the call always returns, a throwing getter
    being reported instead of propagated), and the value returned is the
    closure [unwatchFn] over that watcher, whose call is the watcher's
    [teardown]: the watcher leaves the subscriber set of every Dep it holds
    and becomes inactive.  With [immediate], the callback is called exactly
    once, after the construction, with the instance as receiver and the
    watcher's initial value as only argument; without it, [$watch] does
    nothing beyond the construction. *)
Theorem watch_function_callback this expOrFn f options w :
  let o := withUser (default noOptions options) in
  let id := fresh (dom (watchers (store w))) in
  let made := makeWatcher E this expOrFn (VFun f) o in
  user made = true ∧
  cb made = VFun f ∧
  ∃ w1 t1,
    newWatcher E this expOrFn (VFun f) (Some o) w = (Return id, w1, t1) ∧
    dollar_watch E this expOrFn (HValue (VFun f)) options w =
      (if o_immediate o then
         let initial := value (theWatcher (store w1) id) in
         let info := "callback for immediate watcher " +:+
                     quoted (expression (theWatcher (store w1) id)) in
         match call_fn E f (VObj this) [initial]
                 (with_targetStack (None :: targetStack w1) w1) with
         | (Return _, w2, t2) =>
             (Return (VFun (unwatchFn id)),
              with_targetStack (tail (targetStack w2)) w2, t1 ++ t2)
         | (Throw e, w2, t2) =>
             (Return (VFun (unwatchFn id)),
              with_targetStack (tail (targetStack w2)) w2,
              t1 ++ t2 ++ [EHandleError e (VObj this) info])
         end
       else (Return (VFun (unwatchFn id)), w1, t1)) ∧
    (∀ receiver args w',
       call_fn E (unwatchFn id) receiver args w' =
       (Return VUndefined, with_store (teardown id (store w')) w', [])) ∧
    (∀ st d,
       active (theWatcher st id) = true →
       d ∈ deps (theWatcher st id) →
       id ∉ depSubs (teardown id st) d) ∧
    (∀ st, active (theWatcher (teardown id st) id) = false).
Proof.
  intros o id made. split; [done|]. split; [done|].
  destruct (newWatcher_user_returns this expOrFn (VFun f) o w eq_refl)
    as (w1 & t1 & Hnew).
  exists w1, t1. split; [exact Hnew|]. split; [|split; [|split]].
  - cbn [dollar_watch]. unfold watchValue. fold o. unfold bind at 1.
    rewrite Hnew. destruct (o_immediate o).
    + munfold. unfold pushTarget, popTarget, invokeWithErrorHandling, try_catch,
        call_value, handleError. munfold. cbn [store].
      destruct (call_fn E f _ _ _) as [[[r|e] w2] t2]; cbn.
      * by rewrite !app_nil_r.
      * by rewrite !app_nil_r.
    + munfold. cbn. by rewrite !app_nil_r.
  - intros receiver args w'. exact eq_refl.
  - intros st d. apply teardown_unsubscribes.
  - intros st. apply teardown_inactive.
Qed.

End WatchProofs.

(** *** [initInjections] *)

Section InjectionProofs.

Variable E : Env.

(** With the toggle off, [observe] creates nothing: it only reports the
    marker a value already has. *)
Lemma observeFuel_off fuel st v :
  observeFuel fuel false st v = (st, existingOb st v).
Proof.
  destruct fuel, v; simpl; try done;
    destruct (heap st !! l) as [o|]; simpl; try done; by destruct (ob o).
Qed.

Lemma defineReactive_off l key v c w :
  shouldObserve w = false →
  is_Some (heap (store w) !! l) →
  defineReactive (VObj l) key v c false w =
  (Return tt,
   with_store
     (updateObj l
        (setProperty key
           (ReactiveProperty
              {| r_val := v; r_dep := None; r_childOb := existingOb (store w) v;
                 r_customSetter := c; r_shallow := false |}))
        (store w)) w,
   []).
Proof.
  intros Hoff Hl. unfold defineReactive. munfold.
  rewrite decide_True by done. rewrite Hoff. unfold installReactive.
  rewrite observeFuel_off. exact eq_refl.
Qed.

Lemma existingOb_setProperty l k p st v :
  existingOb (updateObj l (setProperty k p) st) v = existingOb st v.
Proof.
  destruct v; try done. unfold existingOb, updateObj. simpl.
  destruct (decide (l = l0)) as [->|Hne].
  - rewrite lookup_alter_eq. by destruct (heap st !! l0).
  - by rewrite lookup_alter_ne.
Qed.

Lemma install_loop owner result st0 keys : ∀ w,
  shouldObserve w = false →
  is_Some (heap (store w) !! owner) →
  (∀ v, existingOb (store w) v = existingOb st0 v) →
  forEach keys
    (fun key =>
       if negb (production E) then
         defineReactive (VObj owner) key (result_get result key)
           (Some (injectionWarning key, VObj owner)) false
       else
         defineReactive (VObj owner) key (result_get result key) None false) w =
  (Return tt, with_store (installedStore E owner result st0 keys (store w)) w, []).
Proof.
  induction keys as [|key rest IH]; intros w Hoff Hown Hob.
  - cbn. by rewrite with_store_id.
  - cbn [forEach installedStore foldl]. unfold bind.
    assert ((if negb (production E) then
               defineReactive (VObj owner) key (result_get result key)
                 (Some (injectionWarning key, VObj owner)) false
             else
               defineReactive (VObj owner) key (result_get result key) None false) w =
            (Return tt,
             with_store
               (updateObj owner
                  (setProperty key
                     (injectedProperty E owner st0 key (result_get result key)))
                  (store w)) w, [])) as ->.
    { unfold injectedProperty. rewrite <- Hob.
      destruct (production E); cbn [negb]; by rewrite defineReactive_off. }
    rewrite IH.
    + exact eq_refl.
    + done.
    + cbn [store with_store]. by apply heap_updateObj_is_Some.
    + intros v. cbn [store with_store]. by rewrite existingOb_setProperty.
Qed.

Lemma installedStore_props owner result st0 keys k : ∀ st,
  is_Some (heap st !! owner) →
  props (theObj (installedStore E owner result st0 keys st) owner) !! k =
  if decide (k ∈ keys)
  then Some (injectedProperty E owner st0 k (result_get result k))
  else props (theObj st owner) !! k.
Proof.
  induction keys as [|key rest IH]; intros st Hown.
  - cbn. rewrite decide_False; [done|apply not_elem_of_nil].
  - cbn [installedStore foldl]. unfold installedStore in IH. rewrite IH
      by (by apply heap_updateObj_is_Some).
    rewrite theObj_updateObj_eq by done.
    destruct (decide (k ∈ rest)) as [Hin|Hnin].
    + rewrite decide_True; [done|]. by apply list_elem_of_further.
    + destruct (decide (k = key)) as [->|Hne].
      * rewrite decide_True by apply list_elem_of_here.
        by rewrite props_setProperty_eq.
      * rewrite decide_False.
        -- by rewrite props_setProperty_ne.
        -- intros Hin. by apply elem_of_cons in Hin as [?|?].
Qed.

(** The install loop touches nothing but the properties of the instance. *)
Lemma installedStore_frame owner result st0 keys : ∀ st,
  watchers (installedStore E owner result st0 keys st) = watchers st ∧
  subs (installedStore E owner result st0 keys st) = subs st ∧
  queue (installedStore E owner result st0 keys st) = queue st ∧
  (∀ l, l ≠ owner →
        heap (installedStore E owner result st0 keys st) !! l = heap st !! l) ∧
  (∀ l, ob (theObj (installedStore E owner result st0 keys st) l) = ob (theObj st l)).
Proof.
  induction keys as [|key rest IH]; intros st.
  - done.
  - cbn [installedStore foldl]. unfold installedStore in IH.
    destruct (IH (updateObj owner
                    (setProperty key
                       (injectedProperty E owner st0 key (result_get result key))) st))
      as (Hw & Hs & Hq & Hh & Ho).
    rewrite Hw, Hs, Hq. repeat split; try done.
    + intros l Hne. rewrite Hh by done. unfold updateObj. simpl.
      by rewrite lookup_alter_ne.
    + intros l. rewrite Ho. unfold theObj, updateObj. simpl.
      destruct (decide (owner = l)) as [->|Hne].
      * rewrite lookup_alter_eq. by destruct (heap st !! l).
      * by rewrite lookup_alter_ne.
Qed.

(** Reading a reactive property yields the value captured at install time
    and reports nothing. *)
Lemma reactiveGetter_value l key r w :
  outcome_of (reactiveGetter l key r w) = Return (r_val r) ∧
  trace_of (reactiveGetter l key r w) = [].
Proof.
  unfold reactiveGetter, outcome_of, trace_of. munfold.
  destruct (Dep_target w) as [t|]; [|done].
  destruct (r_dep r) as [d|].
  - by destruct (r_childOb r).
  - destruct (newDep (store w)) as [d st]. by destruct (r_childOb r).
Qed.

Lemma js_get_reactive n l k r w :
  props (theObj (store w) l) !! k = Some (ReactiveProperty r) →
  js_get E (S n) (VObj l) k w = reactiveGetter l k r w.
Proof.
  intros H. cbn [js_get]. unfold bind at 1, getStore at 1. rewrite H.
  apply triple_eta.
Qed.

Lemma alist_get_Some_keys {V} (k : string) (v : V) l :
  alist_get k l = Some v → k ∈ l.*1.
Proof.
  intros H. destruct (decide (k ∈ l.*1)) as [|Hn]; [done|].
  apply alist_get_None in Hn. congruence.
Qed.

Lemma marksKept_refl st : marksKept st st.
Proof. by split. Qed.

Lemma marksKept_trans st1 st2 st3 :
  marksKept st1 st2 → marksKept st2 st3 → marksKept st1 st3.
Proof. intros [H1 H2] [H3 H4]. split; auto. Qed.

Lemma marksKept_updateObj l f st :
  (∀ o, is_Some (ob o) → is_Some (ob (f o))) →
  marksKept st (updateObj l f st).
Proof.
  intros Hf. split.
  - intros l' H. by apply heap_updateObj_is_Some.
  - intros l' H. destruct (decide (l = l')) as [<-|Hne].
    + destruct (heap st !! l) as [o|] eqn:Ho.
      * rewrite theObj_updateObj_eq by (by eexists). by apply Hf.
      * unfold theObj in H. rewrite Ho in H. by destruct H.
    + by rewrite theObj_updateObj_ne.
Qed.

Lemma marksKept_installReactive obs l key val c sh st :
  (∀ s x, marksKept s (obs s x).1) →
  marksKept st (installReactive obs l key val c sh st).
Proof.
  intros Hobs. unfold installReactive.
  destruct sh.
  - by apply marksKept_updateObj.
  - pose proof (Hobs st val) as H. destruct (obs st val) as [st1 childOb].
    eapply marksKept_trans; [exact H|]. by apply marksKept_updateObj.
Qed.

Lemma marksKept_observeFuel fuel : ∀ so st v,
  marksKept st (observeFuel fuel so st v).1.
Proof.
  induction fuel as [|n IH]; intros so st v.
  - destruct v; try apply marksKept_refl. cbn [observeFuel].
    destruct (heap st !! l) as [o|]; [|apply marksKept_refl].
    destruct (ob o); [apply marksKept_refl|]. destruct so; apply marksKept_refl.
  - destruct v; try apply marksKept_refl. cbn [observeFuel].
    destruct (heap st !! l) as [o|] eqn:Ho; [|apply marksKept_refl].
    destruct (ob o) eqn:Hob; [apply marksKept_refl|].
    destruct so; [|apply marksKept_refl].
    destruct (newDep st) as [d st1] eqn:Hd. cbn [fst].
    assert (marksKept st st1) as H1.
    { unfold newDep in Hd. injection Hd as _ <-. by split. }
    eapply marksKept_trans; [exact H1|].
    eapply marksKept_trans; [by apply (marksKept_updateObj l (setOb (Some d)))|].
    generalize (updateObj l (setOb (Some d)) st1). intros s0.
    generalize (map_to_list (props o)). intros fields. revert s0.
    induction fields as [|kv fields IHf]; intros s0; [apply marksKept_refl|].
    cbn [foldl]. eapply marksKept_trans; [|apply IHf].
    destruct kv.2; try apply marksKept_refl.
    apply marksKept_installReactive. intros s x. apply IH.
Qed.

Lemma observeFuel_marks n st l :
  is_Some (heap st !! l) →
  is_Some (ob (theObj (observeFuel (S n) true st (VObj l)).1 l)).
Proof.
  intros [o Ho]. cbn [observeFuel]. rewrite Ho.
  destruct (ob o) as [d|] eqn:Hob.
  { cbn [fst]. unfold theObj. rewrite Ho. cbn. by rewrite Hob. }
  destruct (newDep st) as [d st1] eqn:Hd. cbn [fst].
  assert (is_Some (heap st1 !! l)) as H1.
  { unfold newDep in Hd. injection Hd as _ <-. by eexists. }
  assert (is_Some (ob (theObj (updateObj l (setOb (Some d)) st1) l))) as H2.
  { rewrite theObj_updateObj_eq by done. by eexists. }
  revert H2. generalize (updateObj l (setOb (Some d)) st1). intros s0.
  generalize (map_to_list (props o)). intros fields. revert s0.
  induction fields as [|kv fields IHf]; intros s0 H2; [done|].
  cbn [foldl]. apply IHf.
  destruct kv.2; try done.
  apply (marksKept_installReactive (observeFuel n true)); [|done].
  intros s x. apply marksKept_observeFuel.
Qed.

Lemma observe_result v w :
  ∃ fuel,
    observe v w =
    (Return (observeFuel (S fuel) (shouldObserve w) (store w) v).2,
     with_store (observeFuel (S fuel) (shouldObserve w) (store w) v).1 w, []).
Proof.
  unfold observe.
  match goal with
  | |- context [observeFuel (S ?n) ?b ?c ?d] => exists n
  end.
  destruct (observeFuel _ (shouldObserve w) (store w) v) as [st m].
  exact eq_refl.
Qed.

Lemma reactiveSetter_unsubscribed l key r newVal w :
  newVal ≠ r_val r →
  r_dep r = None →
  r_shallow r = false →
  ∃ fuel,
    let obs := observeFuel (S fuel) (shouldObserve w) (store w) newVal in
    reactiveSetter E l key r newVal w =
    (Return tt,
     with_store
       (updateObj l
          (setProperty key
             (ReactiveProperty
                {| r_val := newVal; r_dep := None; r_childOb := obs.2;
                   r_customSetter := r_customSetter r; r_shallow := false |}))
          obs.1) w,
     match r_customSetter r with
     | Some (msg, owner) => [EWarn msg owner]
     | None => []
     end).
Proof.
  intros Hne Hdep Hsh. destruct (observe_result newVal w) as [fuel Hobs].
  exists fuel. cbv zeta. unfold reactiveSetter. rewrite decide_False by done.
  rewrite Hdep, Hsh. unfold warn.
  destruct (r_customSetter r) as [[msg owner]|]; munfold; rewrite Hobs;
    exact eq_refl.
Qed.

Lemma js_set_reactive n l k r v w :
  props (theObj (store w) l) !! k = Some (ReactiveProperty r) →
  js_set E (S n) (VObj l) k v w = reactiveSetter E l k r v w.
Proof.
  intros H. cbn [js_set]. unfold bind at 1, getStore at 1. rewrite H.
  apply triple_eta.
Qed.

Lemma installedStore_heap owner result st0 keys l : ∀ st,
  is_Some (heap st !! l) →
  is_Some (heap (installedStore E owner result st0 keys st) !! l).
Proof.
  induction keys as [|key rest IH]; intros st H; [done|].
  cbn [installedStore foldl]. apply IH. by apply heap_updateObj_is_Some.
Qed.

(** C4, amended: [initInjections] installs every resolved binding on the
    instance through [defineReactive], with observation switched off before
    the loop and on again after it: each bound key becomes a reactive
    property holding the resolved value, no object is newly observed and no
    Dep is created by the install, and nothing else in the store changes.
    The property is an ordinary reactive property, not a shallow one (the
    [shallow] argument of [defineReactive] is not passed): only the install
    leaves the value unobserved, and an object assigned to the key afterwards
    is observed.  The binding is resolved once: the events of
    [initInjections] are those of its one call of [resolveInject], a later
    read returns the value the property holds without any event, and after
    an assignment that is the assigned value, not the provided one. *)
Theorem initInjections_installs vm w result w1 t1 :
  resolveInject E (inject vm) vm w = (Return (Some result), w1, t1) →
  is_Some (heap (store w1) !! self vm) →
  ∃ w2,
    initInjections E vm w = (Return tt, w2, t1) ∧
    shouldObserve w2 = true ∧
    targetStack w2 = targetStack w1 ∧
    watchers (store w2) = watchers (store w1) ∧
    subs (store w2) = subs (store w1) ∧
    (∀ l, ob (theObj (store w2) l) = ob (theObj (store w1) l)) ∧
    (∀ l, l ≠ self vm → heap (store w2) !! l = heap (store w1) !! l) ∧
    (∀ key,
       alist_get key result = None →
       props (theObj (store w2) (self vm)) !! key =
       props (theObj (store w1) (self vm)) !! key) ∧
    (∀ key v,
       alist_get key result = Some v →
       props (theObj (store w2) (self vm)) !! key =
         Some (injectedProperty E (self vm) (store w1) key v) ∧
       (∀ n,
          outcome_of (js_get E (S n) (VObj (self vm)) key w2) = Return v ∧
          trace_of (js_get E (S n) (VObj (self vm)) key w2) = []) ∧
       (∀ n newVal,
          newVal ≠ v →
          ∃ w3,
            js_set E (S n) (VObj (self vm)) key newVal w2 =
              (Return tt, w3,
               if production E then []
               else [EWarn (injectionWarning key) (VObj (self vm))]) ∧
            outcome_of (js_get E (S n) (VObj (self vm)) key w3) = Return newVal ∧
            trace_of (js_get E (S n) (VObj (self vm)) key w3) = [] ∧
            (∀ l, newVal = VObj l →
                  is_Some (heap (store w2) !! l) →
                  is_Some (ob (theObj (store w3) l))))).
Proof.
  intros Hres Hown.
  set (st2 := installedStore E (self vm) result (store w1) (result_keys result) (store w1)).
  exists (with_shouldObserve true (with_store st2 (with_shouldObserve false w1))).
  destruct (installedStore_frame (self vm) result (store w1) (result_keys result)
              (store w1)) as (Hw & Hs & _ & Hh & Ho).
  pose proof (fun k => installedStore_props (self vm) result (store w1)
                         (result_keys result) k (store w1) Hown) as Hprops.
  fold st2 in Hw, Hs, Hh, Ho, Hprops.
  set (w2 := with_shouldObserve true (with_store st2 (with_shouldObserve false w1))).
  assert (∀ key v,
            alist_get key result = Some v →
            props (theObj (store w2) (self vm)) !! key =
            Some (ReactiveProperty
                    {| r_val := v; r_dep := None;
                       r_childOb := existingOb (store w1) v;
                       r_customSetter :=
                         if production E then None
                         else Some (injectionWarning key, VObj (self vm));
                       r_shallow := false |})) as Hbound.
  { intros key v H. cbn [store with_shouldObserve with_store w2]. rewrite Hprops.
    rewrite decide_True by (by eapply alist_get_Some_keys).
    unfold result_get. by rewrite H. }
  split; [|repeat split; try done].
  - unfold initInjections. unfold bind at 1. rewrite Hres.
    unfold bind at 1, toggleObserving at 1, modifyWorld at 1.
    unfold bind at 1.
    rewrite (install_loop (self vm) result (store w1) (result_keys result)
               (with_shouldObserve false w1)) by done.
    unfold toggleObserving, modifyWorld. cbn [app store with_shouldObserve].
    fold st2. by rewrite app_nil_r.
  - intros key Hnone. cbn [store with_shouldObserve with_store].
    rewrite Hprops. rewrite decide_False; [done|]. by apply alist_get_None.
  - by apply Hbound.
  - rewrite (js_get_reactive n (self vm) key _ w2 (Hbound _ _ H)).
    apply reactiveGetter_value.
  - rewrite (js_get_reactive n (self vm) key _ w2 (Hbound _ _ H)).
    apply reactiveGetter_value.
  - intros n newVal Hnew.
    rewrite (js_set_reactive n (self vm) key _ newVal w2 (Hbound _ _ H)).
    destruct (reactiveSetter_unsubscribed (self vm) key
                {| r_val := v; r_dep := None;
                   r_childOb := existingOb (store w1) v;
                   r_customSetter :=
                     if production E then None
                     else Some (injectionWarning key, VObj (self vm));
                   r_shallow := false |}
                newVal w2 Hnew eq_refl eq_refl) as [fuel Hset].
    cbv zeta in Hset. cbn [r_customSetter] in Hset.
    set (obs := observeFuel (S fuel) (shouldObserve w2) (store w2) newVal) in Hset.
    destruct (marksKept_observeFuel (S fuel) (shouldObserve w2) (store w2) newVal)
      as [Hheap Hmarks].
    fold obs in Hheap, Hmarks.
    assert (is_Some (heap obs.1 !! self vm)) as Hown3.
    { apply Hheap. by apply installedStore_heap. }
    eexists. split; [|split; [|split]].
    + rewrite Hset. apply (f_equal2 pair); [exact eq_refl|].
      by destruct (production E).
    + rewrite (js_get_reactive n (self vm) key
                 {| r_val := newVal; r_dep := None; r_childOb := obs.2;
                    r_customSetter :=
                      if production E then None
                      else Some (injectionWarning key, VObj (self vm));
                    r_shallow := false |}).
      * apply reactiveGetter_value.
      * cbn [store with_store]. rewrite theObj_updateObj_eq by done.
        by rewrite props_setProperty_eq.
    + rewrite (js_get_reactive n (self vm) key
                 {| r_val := newVal; r_dep := None; r_childOb := obs.2;
                    r_customSetter :=
                      if production E then None
                      else Some (injectionWarning key, VObj (self vm));
                    r_shallow := false |}).
      * apply reactiveGetter_value.
      * cbn [store with_store]. rewrite theObj_updateObj_eq by done.
        by rewrite props_setProperty_eq.
    + intros l -> Hl. cbn [store with_store].
      apply marksKept_updateObj; [done|].
      subst obs. apply observeFuel_marks. exact Hl.
Qed.

End InjectionProofs.

(** Leaf's injection of [theme] is installed as a reactive property holding
    ['dark']. *)
Lemma initInjections_installs_witness :
  ∃ w2,
    initInjections devEnv Leaf threeInstances = (Return tt, w2, []) ∧
    shouldObserve w2 = true ∧
    outcome_of (js_get devEnv 1 (VObj 2) "theme" w2) = Return (VStr "dark").
Proof.
  assert (resolveInject devEnv (inject Leaf) Leaf threeInstances =
            (Return (Some [("theme", VStr "dark")]), threeInstances, [])) as H
    by (vm_compute; reflexivity).
  assert (is_Some (heap (store threeInstances) !! self Leaf)) as Hown by (by eexists).
  destruct (initInjections_installs devEnv Leaf threeInstances _ _ _ H Hown)
    as (w2 & Hinit & Hso & _ & _ & _ & _ & _ & _ & Hread).
  exists w2. split; [exact Hinit|]. split; [exact Hso|].
  destruct (Hread "theme" (VStr "dark") eq_refl) as (_ & Hget & _).
  exact (proj1 (Hget 0)).
Defined.

(** C4 as stated fails: the property that [initInjections] installs is not
    a shallow one.  After the install, an object assigned to the injected key
    is marked observed; after the same install with the [shallow] argument of
    [defineReactive] it is not. *)
Lemma initInjections_property_not_shallow :
  let w2 := world_of (initInjections prodEnv Leaf threeInstances) in
  let shallowly :=
    world_of ((toggleObserving false ;;
               defineReactive (VObj 2) "theme" (VStr "dark") None true ;;
               toggleObserving true) threeInstances) in
  outcome_of (initInjections prodEnv Leaf threeInstances) = Return tt ∧
  (∃ r, props (theObj (store w2) 2) !! "theme" = Some (ReactiveProperty r) ∧
        r_val r = VStr "dark" ∧ r_shallow r = false) ∧
  ob (theObj (store w2) 0) = None ∧
  ob (theObj (store (world_of (js_set prodEnv 1 (VObj 2) "theme" (VObj 0) w2))) 0)
    = Some 0 ∧
  ob (theObj (store (world_of (js_set prodEnv 1 (VObj 2) "theme" (VObj 0) shallowly)))
        0) = None.
Proof.
  cbv zeta. split; [vm_compute; reflexivity|]. split.
  - eexists. split; [vm_compute; reflexivity|]. split; reflexivity.
  - repeat split; vm_compute; reflexivity.
Qed.

(** Why the toggle matters: installed with observation on, an object value
    is marked observed; installed by [initInjections], it is not. *)
Example toggle_guards_observation :
  let w := dataWorld in
  ob (theObj (store (world_of (defineReactive (VObj 0) "cfg" (VObj 1) None false w))) 1)
    = Some 0 ∧
  ob (theObj (store (world_of
        ((toggleObserving false ;;
          defineReactive (VObj 0) "cfg" (VObj 1) None false ;;
          toggleObserving true) w))) 1) = None.
Proof. split; vm_compute; reflexivity. Qed.

(** One evaluation per dirty transition: the write to [a] marks the watcher
    dirty without running the getter; the next read recomputes once. *)
Example sum_recomputed_after_write :
  outcome_of (readWriteRead reactiveSumWorld) =
    Return [VNum 3; VNum 3; VNum 7; VNum 7] ∧
  trace_of (readWriteRead reactiveSumWorld) =
    [ECall 0 (VObj 0) [VObj 0]; ECall 0 (VObj 0) [VObj 0]].
Proof. split; vm_compute; reflexivity. Qed.

(** The exceptional path of [getData] under an enclosing evaluator: the
    exception is reported, an empty object is returned and the enclosing
    target is active again. *)
Example getData_restores_enclosing_target :
  outcome_of (getData failingEnv (UserFn 0) (VObj 0) nestedWorld) = Return (VObj 2) ∧
  targetStack (world_of (getData failingEnv (UserFn 0) (VObj 0) nestedWorld)) = [Some 9] ∧
  trace_of (getData failingEnv (UserFn 0) (VObj 0) nestedWorld) =
    [ECall 0 (VObj 0) [VObj 0]; EHandleError (VError "Error") (VObj 0) "data()"].
Proof. repeat split; vm_compute; reflexivity. Qed.

(** [$watch('msg', cb, { immediate: true })] with a throwing callback: the
    callback is entered once with the initial value, its exception is
    reported, the unwatch closure is returned and the enclosing target is
    active again. *)
Example watch_immediate_throwing_callback :
  outcome_of (dollar_watch failingEnv 0 (ExpPath "msg") (HValue (VFun (UserFn 3)))
                (Some immediateOptions) nestedWorld) =
    Return (VFun (unwatchFn 0)) ∧
  targetStack (world_of (dollar_watch failingEnv 0 (ExpPath "msg")
                           (HValue (VFun (UserFn 3)))
                           (Some immediateOptions) nestedWorld)) = [Some 9] ∧
  trace_of (dollar_watch failingEnv 0 (ExpPath "msg") (HValue (VFun (UserFn 3)))
              (Some immediateOptions) nestedWorld) =
    [ECall 3 (VObj 0) [VUndefined];
     EHandleError (VError "Error") (VObj 0)
       ("callback for immediate watcher " +:+ quoted "msg")].
Proof. repeat split; vm_compute; reflexivity. Qed.


(** *** [resolveModifiedOptions] *)

Section ModifiedOptionsProofs.

Variable R : Realm.

Implicit Types latest sealed : list (string * OptionValue R).

Lemma resolveModifiedKeys_lookup latest sealed key keys : ∀ modified,
  alist_get key (default [] (resolveModifiedKeys R latest sealed keys modified)) =
  if decide (key ∈ keys ∧
             strictEquals R (optionValue R latest key) (optionValue R sealed key)
               = false)
  then Some (optionValue R latest key)
  else alist_get key (default [] modified).
Proof.
  induction keys as [|k rest IH]; intros modified; cbn [resolveModifiedKeys].
  - rewrite decide_False; [done|]. intros [H _]. by apply elem_of_nil in H.
  - destruct (strictEquals R (optionValue R latest k) (optionValue R sealed k))
      eqn:Hk; cbn [negb].
    + rewrite IH.
      destruct (decide (key ∈ rest ∧ _)) as [[Hin Hd]|Hn].
      * rewrite decide_True; [done|]. split; [by apply list_elem_of_further|done].
      * rewrite decide_False; [done|]. intros [Hin Hd]. apply Hn. split; [|done].
        apply elem_of_cons in Hin as [->|?]; [|done]. congruence.
    + rewrite IH. cbn [default from_option id].
      destruct (decide (key ∈ rest ∧ _)) as [[Hin Hd]|Hn].
      * rewrite decide_True; [done|]. split; [by apply list_elem_of_further|done].
      * destruct (decide (key = k)) as [->|Hne].
        -- rewrite alist_get_set_eq. rewrite decide_True; [done|].
           split; [apply list_elem_of_here|done].
        -- rewrite alist_get_set_ne by done. rewrite decide_False; [done|].
           intros [Hin Hd]. apply Hn. split; [|done].
           by apply elem_of_cons in Hin as [?|?].
Qed.

Lemma resolveModifiedKeys_None latest sealed keys : ∀ modified,
  resolveModifiedKeys R latest sealed keys modified = None ↔
  modified = None ∧
  ∀ key, key ∈ keys →
         strictEquals R (optionValue R latest key) (optionValue R sealed key) = true.
Proof.
  induction keys as [|k rest IH]; intros modified; cbn [resolveModifiedKeys].
  - split; [intros ->; split; [done|]|by intros [-> _]].
    intros key H. by apply elem_of_nil in H.
  - destruct (strictEquals R (optionValue R latest k) (optionValue R sealed k))
      eqn:Hk; cbn [negb].
    + rewrite IH. split.
      * intros [-> H]. split; [done|]. intros key Hin.
        apply elem_of_cons in Hin as [->|Hin]; auto.
      * intros [-> H]. split; [done|]. intros key Hin.
        by apply H, list_elem_of_further.
    + rewrite IH. split; [by intros [[=] _]|]. intros [_ H].
      rewrite (H k) in Hk; [done|apply list_elem_of_here].
Qed.

(** X1: [resolveModifiedOptions] returns undefined exactly when every key the
    [for ... in] loop visits in the latest options reads, in the sealed
    options, a value [===] to the one it reads in the latest ones; both reads
    go through [Object.prototype], and a value that is not [===] to itself
    always counts as modified. *)
Theorem resolveModifiedOptions_none_iff latest sealed :
  resolveModifiedOptions R latest sealed = None ↔
  ∀ key, key ∈ forInKeys R latest →
         strictEquals R (optionValue R latest key) (optionValue R sealed key) = true.
Proof.
  unfold resolveModifiedOptions. rewrite resolveModifiedKeys_None.
  split; [by intros [_ H]|by intros H].
Qed.

(** X2: the object returned by [resolveModifiedOptions] has as own
    properties, each with the value read in the latest options, the visited
    keys whose value in the latest options is not [===] to what the sealed
    options read under the key, and nothing else: a key that only the sealed
    options have is never reported. *)
Theorem resolveModifiedOptions_content latest sealed key :
  alist_get key (default [] (resolveModifiedOptions R latest sealed)) =
  if decide (key ∈ forInKeys R latest ∧
             strictEquals R (optionValue R latest key) (optionValue R sealed key)
               = false)
  then Some (optionValue R latest key)
  else None.
Proof.
  unfold resolveModifiedOptions. by rewrite resolveModifiedKeys_lookup.
Qed.

End ModifiedOptionsProofs.

(** The example options: [created] and [mounted] are reported, the unchanged
    [el] and the removed [name] are not. *)
Example resolveModifiedOptions_example :
  resolveModifiedOptions valueRealm latestOptions sealedOptions =
  Some [("created", VFun (UserFn 2)); ("mounted", VFun (UserFn 3))].
Proof. vm_compute. reflexivity. Qed.

(** A latest option named like a property of [Object.prototype]: the sealed
    options read the inherited [toString], so the key is reported, also when
    its latest value is [undefined]. *)
Example resolveModifiedOptions_inherited :
  resolveModifiedOptions valueRealm [("toString", VUndefined)] [] =
  Some [("toString", VUndefined)].
Proof. vm_compute. reflexivity. Qed.


(** *** More on [resolveInject] and [initInjections] *)

Section MoreInjectProofs.

Variable E : Env.

Lemma alist_set_keys {V} (k key : string) (v : V) l :
  k ∈ (alist_set key v l).*1 → k = key ∨ k ∈ l.*1.
Proof.
  induction l as [|[k' v'] l IH]; simpl.
  - intros H. apply elem_of_cons in H as [->|H]; [by left|by right].
  - destruct (decide (key = k')) as [->|Hne]; simpl; intros H.
    + apply elem_of_cons in H as [->|H]; [by left|].
      right. by apply list_elem_of_further.
    + apply elem_of_cons in H as [->|H]; [right; apply list_elem_of_here|].
      destruct (IH H) as [->|Hin]; [by left|right; by apply list_elem_of_further].
Qed.

Lemma resolveInjectKeys_keys inj vm keys : ∀ result w r w' t k,
  resolveInjectKeys E inj vm keys result w = (Return r, w', t) →
  k ∈ r.*1 → k ∈ keys ∨ k ∈ result.*1.
Proof.
  induction keys as [|key rest IH]; intros result w r w' t k H Hk; simpl in H.
  - injection H as <- _ _. by right.
  - apply bind_Return_inv in H as (r1 & w1 & t1 & t2 & H1 & H2 & _).
    destruct (IH _ _ _ _ _ _ H2 Hk) as [Hin|Hin].
    + left. by apply list_elem_of_further.
    + apply resolveInjectKey_shape in H1 as [->|[_ [v ->]]]; [by right|].
      apply alist_set_keys in Hin as [->|Hin]; [left; apply list_elem_of_here|by right].
Qed.

Lemma Object_keys_subset inj key : key ∈ Object_keys inj → key ∈ inj.*1.
Proof.
  unfold Object_keys. intros H. apply list_elem_of_fmap in H as [[k p] [-> H]].
  apply list_elem_of_filter in H as [_ H]. apply list_elem_of_fmap. by exists (k, p).
Qed.

Lemma Object_keys_enumerable inj key :
  key ∈ Object_keys inj → ∃ p, (key, p) ∈ inj ∧ enumerable p = true.
Proof.
  unfold Object_keys. intros H. apply list_elem_of_fmap in H as [[k p] [-> H]].
  apply list_elem_of_filter in H as [He H]. by exists p.
Qed.

(** X3: [resolveInject] binds only keys it was asked for: every key of the
    result is one of the keys the loop visits, so an own key of the inject
    object, and, where the keys come from [Object.keys], an enumerable
    one. *)
Theorem resolveInject_binds_only_requested inj vm w result w' t key :
  resolveInject E (Some inj) vm w = (Return (Some result), w', t) →
  key ∈ result_keys result →
  key ∈ injectKeys E inj ∧
  key ∈ inj.*1 ∧
  (hasSymbol E = false → ∃ p, (key, p) ∈ inj ∧ enumerable p = true).
Proof.
  intros H Hkey. unfold resolveInject in H.
  apply bind_Return_inv in H as (r & w1 & t1 & t2 & H & Hret & _).
  injection Hret as <- _ _.
  destruct (resolveInjectKeys_keys _ _ _ _ _ _ _ _ _ H Hkey) as [Hin|Hin];
    [|by apply elem_of_nil in Hin].
  split; [done|]. unfold injectKeys in Hin. split.
  - destruct (hasSymbol E); [done|by apply Object_keys_subset].
  - intros Hs. rewrite Hs in Hin. by apply Object_keys_enumerable.
Qed.





Lemma resolveInjectKeys_app_Return inj vm pre post result w r1 w1 t1 :
  resolveInjectKeys E inj vm pre result w = (Return r1, w1, t1) →
  resolveInjectKeys E inj vm (pre ++ post) result w =
  match resolveInjectKeys E inj vm post r1 w1 with
  | (r, w2, t2) => (r, w2, t1 ++ t2)
  end.
Proof.
  revert result w t1. induction pre as [|k pre IH]; intros result w t1 H.
  - injection H as <- <- <-. cbn [app].
    by destruct (resolveInjectKeys E inj vm post result w) as [[r w2] t2].
  - cbn [app resolveInjectKeys] in *. unfold bind in *.
    destruct (resolveInjectKey E inj vm result k w) as [[[ra|e] wa] ta]; [|done].
    destruct (resolveInjectKeys E inj vm pre ra wa) as [[[rb|e] wb] tb] eqn:Hb;
      [|done].
    injection H as <- <- <-. rewrite (IH _ _ _ Hb).
    destruct (resolveInjectKeys E inj vm post rb wb) as [[r w2] t2].
    by rewrite app_assoc.
Qed.

Lemma call_fn_toggle f this args w :
  shouldObserve (world_of (call_fn E f this args w)) = shouldObserve w.
Proof.
  unfold call_fn, world_of. destruct f; munfold; cbn; try done.
  - by destruct (userBody E id this args w) as [[v|e] st].
  - by destruct (pathBody E path (hd VUndefined args) w) as [[v|e] st].
Qed.

Lemma resolveInjectKey_toggle inj vm result key w :
  shouldObserve (world_of (resolveInjectKey E inj vm result key w)) =
  shouldObserve w.
Proof.
  unfold resolveInjectKey. destruct (decide (key = "__ob__")); [done|].
  destruct (alist_get key inj) as [p|]; [|done].
  destruct (findProvided vm (from (descriptor p))); [done|].
  destruct (idefault (descriptor p)) as [d|].
  - destruct d; try done. unfold bind.
    pose proof (call_fn_toggle f (VObj (self vm)) [] w) as H.
    by destruct (call_fn E f (VObj (self vm)) [] w) as [[[v|e] w1] t1].
  - by destruct (production E).
Qed.

Lemma resolveInjectKeys_toggle inj vm keys : ∀ result w,
  shouldObserve (world_of (resolveInjectKeys E inj vm keys result w)) =
  shouldObserve w.
Proof.
  induction keys as [|key rest IH]; intros result w; [done|].
  cbn [resolveInjectKeys]. unfold bind.
  pose proof (resolveInjectKey_toggle inj vm result key w) as H1.
  destruct (resolveInjectKey E inj vm result key w) as [[[r1|e] w1] t1]; [|done].
  pose proof (IH r1 w1) as H2.
  destruct (resolveInjectKeys E inj vm rest r1 w1) as [[r2 w2] t2].
  unfold world_of in *. cbn [fst snd] in *. congruence.
Qed.

(** X6: an exception thrown by a default factory is not caught.  Whatever
    the keys before it did (found a provider, took a default or were warned
    about), once the loop has reached the key [resolveInject] and
    [initInjections] throw the exception on to the caller right after the
    factory call: the trace ends with that call, the world is the one the
    factory left, so no binding is installed, and the observation toggle is
    not touched. *)
Theorem initInjections_factory_exception vm inj pre key post p id e r1 w1 t1 st1 w :
  inject vm = Some inj →
  injectKeys E inj = pre ++ key :: post →
  resolveInjectKeys E inj vm pre [] w = (Return r1, w1, t1) →
  key ≠ "__ob__" →
  alist_get key inj = Some p →
  findProvided vm (from (descriptor p)) = None →
  idefault (descriptor p) = Some (VFun (UserFn id)) →
  userBody E id (VObj (self vm)) [] w1 = (Throw e, st1) →
  resolveInject E (Some inj) vm w =
    (Throw e, with_store st1 w1, t1 ++ [ECall id (VObj (self vm)) []]) ∧
  initInjections E vm w =
    (Throw e, with_store st1 w1, t1 ++ [ECall id (VObj (self vm)) []]) ∧
  shouldObserve (world_of (initInjections E vm w)) = shouldObserve w.
Proof.
  intros Hinj Hkeys Hpre Hne Hp Hnone Hd Hbody.
  assert (resolveInject E (Some inj) vm w =
          (Throw e, with_store st1 w1, t1 ++ [ECall id (VObj (self vm)) []]))
    as Hres.
  { unfold resolveInject. unfold bind at 1. rewrite Hkeys.
    rewrite (resolveInjectKeys_app_Return _ _ _ _ _ _ _ _ _ Hpre).
    cbn [resolveInjectKeys]. unfold bind at 1. unfold resolveInjectKey.
    rewrite decide_False by done. rewrite Hp, Hnone, Hd.
    cbn [call_fn]. munfold. by rewrite Hbody. }
  split; [done|].
  assert (initInjections E vm w =
          (Throw e, with_store st1 w1, t1 ++ [ECall id (VObj (self vm)) []]))
    as Hinit.
  { unfold initInjections. rewrite Hinj. unfold bind at 1. by rewrite Hres. }
  split; [done|]. rewrite Hinit. unfold world_of. cbn [fst snd shouldObserve with_store].
  pose proof (resolveInjectKeys_toggle inj vm pre [] w) as Ht.
  rewrite Hpre in Ht. exact Ht.
Qed.

End MoreInjectProofs.


Lemma call_fn_same_application E E' f this args w :
  same_application E E' → call_fn E f this args w = call_fn E' f this args w.
Proof.
  intros (_ & Hu & Hp). destruct f; cbn [call_fn]; try done.
  - munfold. by rewrite Hu.
  - munfold. by rewrite Hp.
Qed.

Lemma withoutWarnings_app t1 t2 :
  withoutWarnings (t1 ++ t2) = withoutWarnings t1 ++ withoutWarnings t2.
Proof. apply filter_app. Qed.

Lemma resolveInjectKey_build_independent E E' inj vm result key w :
  same_application E E' →
  outcome_of (resolveInjectKey E inj vm result key w) =
    outcome_of (resolveInjectKey E' inj vm result key w) ∧
  world_of (resolveInjectKey E inj vm result key w) =
    world_of (resolveInjectKey E' inj vm result key w) ∧
  withoutWarnings (trace_of (resolveInjectKey E inj vm result key w)) =
    withoutWarnings (trace_of (resolveInjectKey E' inj vm result key w)).
Proof.
  intros Hsame. unfold resolveInjectKey.
  destruct (decide (key = "__ob__")); [done|].
  destruct (alist_get key inj) as [p|]; [|done].
  destruct (findProvided vm (from (descriptor p))); [done|].
  destruct (idefault (descriptor p)) as [d|].
  - destruct d; try done. unfold bind.
    by rewrite (call_fn_same_application E E' _ _ _ _ Hsame).
  - by destruct (production E), (production E').
Qed.

Lemma resolveInjectKeys_build_independent E E' inj vm keys : ∀ result w,
  same_application E E' →
  outcome_of (resolveInjectKeys E inj vm keys result w) =
    outcome_of (resolveInjectKeys E' inj vm keys result w) ∧
  world_of (resolveInjectKeys E inj vm keys result w) =
    world_of (resolveInjectKeys E' inj vm keys result w) ∧
  withoutWarnings (trace_of (resolveInjectKeys E inj vm keys result w)) =
    withoutWarnings (trace_of (resolveInjectKeys E' inj vm keys result w)).
Proof.
  induction keys as [|key rest IH]; intros result w Hsame; [done|].
  cbn [resolveInjectKeys]. unfold bind.
  destruct (resolveInjectKey_build_independent E E' inj vm result key w Hsame)
    as (Ho & Hw & Ht).
  unfold outcome_of, world_of, trace_of in *.
  destruct (resolveInjectKey E inj vm result key w) as [[o1 w1] t1].
  destruct (resolveInjectKey E' inj vm result key w) as [[o1' w1'] t1'].
  cbn [fst snd] in *. subst o1' w1'.
  destruct o1 as [r1|e]; [|done].
  destruct (IH r1 w1 Hsame) as (Ho2 & Hw2 & Ht2).
  unfold outcome_of, world_of, trace_of in *.
  destruct (resolveInjectKeys E inj vm rest r1 w1) as [[o2 w2] t2].
  destruct (resolveInjectKeys E' inj vm rest r1 w1) as [[o2' w2'] t2'].
  cbn [fst snd] in *. subst o2' w2'.
  repeat split. by rewrite !withoutWarnings_app, Ht, Ht2.
Qed.

(** X5: the build does not change what [resolveInject] resolves.  For the
    same application code, a production and a development build give the same
    outcome (the same result mapping or the same exception) and the same
    world, and their traces differ only in the warnings. *)
Theorem resolveInject_build_independent E E' inj vm w :
  same_application E E' →
  outcome_of (resolveInject E inj vm w) = outcome_of (resolveInject E' inj vm w) ∧
  world_of (resolveInject E inj vm w) = world_of (resolveInject E' inj vm w) ∧
  withoutWarnings (trace_of (resolveInject E inj vm w)) =
    withoutWarnings (trace_of (resolveInject E' inj vm w)).
Proof.
  intros Hsame. destruct inj as [inj|]; [|done]. unfold resolveInject, injectKeys.
  destruct Hsame as (Hs & Hu & Hp). rewrite <- Hs.
  destruct (resolveInjectKeys_build_independent E E' inj vm
              (if hasSymbol E then Reflect_ownKeys inj else Object_keys inj) [] w
              (conj Hs (conj Hu Hp))) as (Ho & Hw & Ht).
  unfold bind, outcome_of, world_of, trace_of in *.
  destruct (resolveInjectKeys E inj vm _ [] w) as [[o1 w1] t1].
  destruct (resolveInjectKeys E' inj vm _ [] w) as [[o1' w1'] t1'].
  cbn [fst snd] in *. subst o1' w1'.
  destruct o1 as [r1|e]; unfold ret; cbn [fst snd]; rewrite ?app_nil_r; done.
Qed.

Lemma resolveInject_build_independent_witness :
  outcome_of (resolveInject devEnv (Some themeInject) BareLeaf threeInstances) =
    outcome_of (resolveInject prodEnv (Some themeInject) BareLeaf threeInstances) ∧
  trace_of (resolveInject devEnv (Some themeInject) BareLeaf threeInstances) ≠
    trace_of (resolveInject prodEnv (Some themeInject) BareLeaf threeInstances).
Proof.
  split.
  - apply (resolveInject_build_independent devEnv prodEnv (Some themeInject)
             BareLeaf threeInstances).
    repeat split.
  - vm_compute. discriminate.
Defined.

Lemma resolveInject_binds_only_requested_witness :
  "theme" ∈ injectKeys devEnv themeInject.
Proof.
  refine (proj1 (resolveInject_binds_only_requested devEnv themeInject Leaf
                   threeInstances [("theme", VStr "dark")] threeInstances []
                   "theme" _ _)).
  - vm_compute. reflexivity.
  - vm_compute. apply list_elem_of_here.
Defined.


(** An earlier key without provider or default is warned about, then the
    default factory of [theme] runs and its exception propagates. *)
Lemma initInjections_factory_exception_witness :
  initInjections failingEnv WarnedFactoryLeaf threeInstances =
    (Throw (VError "Error"), threeInstances,
     [EWarn (notFoundMessage "locale") (VObj 2); ECall 5 (VObj 2) []]).
Proof.
  refine (proj1 (proj2
    (initInjections_factory_exception failingEnv WarnedFactoryLeaf
       localeAndTheme ["locale"] "theme" []
       {| enumerable := true;
          descriptor := {| from := KStr "theme";
                           idefault := Some (VFun (UserFn 5)) |} |}
       5 (VError "Error") [] threeInstances
       [EWarn (notFoundMessage "locale") (VObj 2)]
       (store threeInstances) threeInstances
       eq_refl eq_refl _ _ eq_refl eq_refl eq_refl eq_refl))).
  - vm_compute. reflexivity.
  - discriminate.
Defined.


(** *** More on [proxy] and [defineComputed] *)

Section MoreStateProofs.

Variable E : Env.

Lemma props_Some_in_heap st l k p :
  props (theObj st l) !! k = Some p → is_Some (heap st !! l).
Proof.
  unfold theObj. destruct (heap st !! l); [by eexists|]. simpl.
  by rewrite lookup_empty.
Qed.

Lemma js_get_through_proxy n t k sourceKey key s backing v w :
  props (theObj (store w) t) !! k = Some (AccessorProperty (proxyGetter sourceKey key) s) →
  props (theObj (store w) t) !! sourceKey = Some (DataProperty (VObj backing)) →
  props (theObj (store w) backing) !! key = Some (DataProperty v) →
  js_get E (S (S n)) (VObj t) k w = (Return v, w, []).
Proof.
  intros Hk Hs Hb. rewrite (js_get_proxy _ _ _ _ _ _ _ _ Hk). unfold bind.
  rewrite (js_get_data _ _ _ _ _ _ Hs). by rewrite (js_get_data _ _ _ _ _ _ Hb).
Qed.

Lemma js_set_through_proxy n t k sourceKey key g backing v w :
  props (theObj (store w) t) !! k = Some (AccessorProperty g (proxySetter sourceKey key)) →
  props (theObj (store w) t) !! sourceKey = Some (DataProperty (VObj backing)) →
  plainSlot (props (theObj (store w) backing) !! key) →
  js_set E (S (S n)) (VObj t) k v w =
  (Return tt,
   with_store (updateObj backing (setProperty key (DataProperty v)) (store w)) w, []).
Proof.
  intros Hk Hs Hb. rewrite (js_set_proxy _ _ _ _ _ _ _ _ _ Hk). unfold bind.
  rewrite (js_get_data _ _ _ _ _ _ Hs). by rewrite (js_set_plain _ _ _ _ _ _ Hb).
Qed.

(** X7: a proxy of a key onto itself ([key = sourceKey]) can be neither read
    nor written: at every call depth the access ends in the runtime's
    RangeError, its getter calling itself without end. *)
Theorem proxy_onto_its_source_unusable target key w :
  is_Some (heap (store w) !! target) →
  let w1 := world_of (proxy (VObj target) key key w) in
  ∀ n v,
    js_get E n (VObj target) key w1 = (Throw (VError "RangeError"), w1, []) ∧
    js_set E n (VObj target) key v w1 = (Throw (VError "RangeError"), w1, []).
Proof.
  intros Htarget w1 n v. subst w1. rewrite (proxy_result _ _ _ _ Htarget).
  unfold world_of. cbn [fst snd].
  set (w1 := with_store _ _).
  assert (props (theObj (store w1) target) !! key =
          Some (AccessorProperty (proxyGetter key key) (proxySetter key key))) as Hkey.
  { subst w1. cbn [store with_store]. rewrite theObj_updateObj_eq by done.
    apply props_setProperty_eq. }
  assert (∀ m, js_get E m (VObj target) key w1 = (Throw (VError "RangeError"), w1, []))
    as Hget.
  { induction m as [|m IH]; [done|].
    rewrite (js_get_proxy _ _ _ _ _ _ _ _ Hkey). unfold bind. by rewrite IH. }
  split; [apply Hget|]. destruct n as [|n]; [done|].
  rewrite (js_set_proxy _ _ _ _ _ _ _ _ _ Hkey). unfold bind. by rewrite Hget.
Qed.

(** X8: proxies of distinct keys onto the same backing object do not
    interfere: after [proxy(target, sourceKey, a)] and [proxy(target,
    sourceKey, b)], a write through [a] is read back through [a] and leaves
    what is read through [b] as it was. *)
Theorem proxies_of_distinct_keys_independent target sourceKey a b backing va vb v n w :
  is_Some (heap (store w) !! target) →
  a ≠ b → sourceKey ≠ a → sourceKey ≠ b → backing ≠ target →
  props (theObj (store w) target) !! sourceKey = Some (DataProperty (VObj backing)) →
  props (theObj (store w) backing) !! a = Some (DataProperty va) →
  props (theObj (store w) backing) !! b = Some (DataProperty vb) →
  let w2 :=
    world_of ((proxy (VObj target) sourceKey a ;; proxy (VObj target) sourceKey b) w) in
  ∃ w3,
    js_set E (S (S n)) (VObj target) a v w2 = (Return tt, w3, []) ∧
    js_get E (S (S n)) (VObj target) a w3 = (Return v, w3, []) ∧
    js_get E (S (S n)) (VObj target) b w3 = (Return vb, w3, []) ∧
    js_get E (S (S n)) (VObj target) b w2 = (Return vb, w2, []).
Proof.
  intros Ht Hab Hsa Hsb Hbt Hsrc Hva Hvb w2'.
  pose proof (proxy_result target sourceKey a w Ht) as H1.
  set (w1 := with_store _ _) in H1.
  assert (is_Some (heap (store w1) !! target)) as Ht1.
  { subst w1. cbn [store with_store]. by apply heap_updateObj_is_Some. }
  pose proof (proxy_result target sourceKey b w1 Ht1) as H2.
  set (w2 := with_store _ _) in H2.
  assert (w2' = w2) as ->.
  { subst w2'. unfold bind. by rewrite H1, H2. }
  clear H1 H2.
  pose proof (props_Some_in_heap _ _ _ _ Hva) as Hb.
  assert (theObj (store w2) backing = theObj (store w) backing) as Hback.
  { subst w2 w1. cbn [store with_store with_sharedGet with_sharedSet].
    by rewrite !theObj_updateObj_ne. }
  assert (props (theObj (store w2) target) !! a =
          Some (AccessorProperty (proxyGetter sourceKey a) (proxySetter sourceKey a)))
    as Ha2.
  { subst w2 w1. cbn [store with_store with_sharedGet with_sharedSet].
    rewrite theObj_updateObj_eq by done. rewrite props_setProperty_ne by done.
    rewrite theObj_updateObj_eq by done. apply props_setProperty_eq. }
  assert (props (theObj (store w2) target) !! b =
          Some (AccessorProperty (proxyGetter sourceKey b) (proxySetter sourceKey b)))
    as Hb2.
  { subst w2. cbn [store with_store]. rewrite theObj_updateObj_eq by done.
    apply props_setProperty_eq. }
  assert (props (theObj (store w2) target) !! sourceKey =
          Some (DataProperty (VObj backing))) as Hs2.
  { subst w2 w1. cbn [store with_store with_sharedGet with_sharedSet].
    rewrite theObj_updateObj_eq by done. rewrite props_setProperty_ne by done.
    rewrite theObj_updateObj_eq by done. by rewrite props_setProperty_ne. }
  set (w3 := with_store (updateObj backing (setProperty a (DataProperty v)) (store w2)) w2).
  assert (is_Some (heap (store w2) !! backing)) as Hbh2.
  { subst w2 w1. cbn [store with_store with_sharedGet with_sharedSet].
    by do 2 apply heap_updateObj_is_Some. }
  assert (theObj (store w3) target = theObj (store w2) target) as Ht3.
  { subst w3. cbn [store with_store]. by rewrite theObj_updateObj_ne. }
  exists w3. split; [|split; [|split]].
  - apply js_set_through_proxy with (g := proxyGetter sourceKey a)
      (sourceKey := sourceKey) (backing := backing); try done.
    right. exists va. by rewrite Hback.
  - apply js_get_through_proxy with (sourceKey := sourceKey) (key := a)
      (s := proxySetter sourceKey a) (backing := backing); rewrite ?Ht3; try done.
    subst w3. cbn [store with_store]. rewrite theObj_updateObj_eq by done.
    apply props_setProperty_eq.
  - apply js_get_through_proxy with (sourceKey := sourceKey) (key := b)
      (s := proxySetter sourceKey b) (backing := backing); rewrite ?Ht3; try done.
    subst w3. cbn [store with_store]. rewrite theObj_updateObj_eq by done.
    rewrite props_setProperty_ne by done. by rewrite Hback.
  - apply js_get_through_proxy with (sourceKey := sourceKey) (key := b)
      (s := proxySetter sourceKey b) (backing := backing); try done.
    by rewrite Hback.
Qed.

(** X9: the shared descriptor object never leaks from one use to the next:
    what [proxy] and [defineComputed] install, return and leave behind does
    not depend on the accessors an earlier call stored in it. *)
Theorem shared_descriptor_never_leaks target sourceKey key userDef g s w :
  proxy target sourceKey key (with_sharedGet g (with_sharedSet s w)) =
    proxy target sourceKey key w ∧
  defineComputed E target key userDef (with_sharedGet g (with_sharedSet s w)) =
    defineComputed E target key userDef w.
Proof.
  split.
  - unfold proxy, defineSharedProperty. munfold.
    cbn [store with_sharedGet with_sharedSet sharedGet sharedSet].
    destruct target; exact eq_refl.
  - unfold defineComputed, defineSharedProperty. munfold.
    destruct userDef as [f|gf sf cache];
      cbn [store with_sharedGet with_sharedSet sharedGet sharedSet];
      destruct (negb (production E) && _);
      cbn [store with_sharedGet with_sharedSet sharedGet sharedSet];
      destruct target; exact eq_refl.
Qed.

(** X10: under server rendering, or for a definition with [cache: false],
    the property installed by [defineComputed] is not cached: a read is a call
    of the user's getter with the instance as receiver and as argument, and
    no watcher is consulted.  With a getter that returns [v] and touches
    nothing, [c] reads enter the getter [c] times. *)
Theorem defineComputed_uncached_read target key userDef gf w :
  is_Some (heap (store w) !! target) →
  uncachedGetter E userDef = Some gf →
  let w1 := world_of (defineComputed E (VObj target) key userDef w) in
  (∀ n,
     js_get E (S n) (VObj target) key w1 =
     call_fn E gf (VObj target) [VObj target] w1) ∧
  (∀ id v n c,
     gf = UserFn id →
     userBody E id (VObj target) [VObj target] w1 = (Return v, store w1) →
     readTimes E c (S n) (VObj target) key w1 =
     (Return (replicate c v), w1,
      replicate c (ECall id (VObj target) [VObj target]))).
Proof.
  intros Htarget Hgf w1. subst w1.
  rewrite (defineComputed_result _ _ _ _ _ Htarget).
  unfold world_of. cbn [fst snd]. set (w1 := with_store _ _).
  assert (installedGetter E key userDef = getterInvoker gf) as Hg.
  { unfold installedGetter, uncachedGetter in *.
    destruct userDef as [f|[g|] sf cache]; [| |done].
    - destruct (isServerRendering E); congruence.
    - destruct (isServerRendering E); [congruence|].
      destruct (decide (cache = VBool false)); congruence. }
  assert (props (theObj (store w1) target) !! key =
          Some (AccessorProperty (getterInvoker gf) (installedSetter E key userDef)))
    as Hkey.
  { subst w1. cbn [store with_store]. rewrite theObj_updateObj_eq by done.
    rewrite props_setProperty_eq. by rewrite Hg. }
  assert (∀ n, js_get E (S n) (VObj target) key w1 =
               call_fn E gf (VObj target) [VObj target] w1) as Hread.
  { intros n. cbn [js_get]. unfold bind at 1, getStore at 1. rewrite Hkey.
    unfold getterInvokerBody. apply triple_eta. }
  split; [exact Hread|].
  intros id v n c -> Hbody.
  assert (call_fn E (UserFn id) (VObj target) [VObj target] w1 =
          (Return v, w1, [ECall id (VObj target) [VObj target]])) as Hcall.
  { cbn [call_fn]. munfold. rewrite Hbody. by rewrite with_store_id. }
  induction c as [|c IH]; [done|].
  cbn [readTimes replicate]. unfold bind at 1. rewrite Hread, Hcall.
  unfold bind at 1. rewrite IH. unfold ret. cbn [app]. by rewrite app_nil_r.
Qed.

(** X11: when the computed definition has a setter, an assignment to the
    property is one call of that setter with the instance as receiver and the
    assigned value as argument, in a production and in a development build
    alike: no warning is emitted, and an exception of the setter reaches the
    assigner. *)
Theorem defineComputed_user_setter target key g id cache w :
  is_Some (heap (store w) !! target) →
  let w1 :=
    world_of (defineComputed E (VObj target) key
                (UserDefObj g (Some (UserFn id)) cache) w) in
  ∀ n v,
    js_set E (S n) (VObj target) key v w1 =
    match userBody E id (VObj target) [v] w1 with
    | (Return _, st) => (Return tt, with_store st w1, [ECall id (VObj target) [v]])
    | (Throw e, st) => (Throw e, with_store st w1, [ECall id (VObj target) [v]])
    end.
Proof.
  intros Htarget w1 n v. subst w1.
  rewrite (defineComputed_result _ _ _ _ _ Htarget).
  unfold world_of. cbn [fst snd]. set (w1 := with_store _ _).
  assert (props (theObj (store w1) target) !! key =
          Some (AccessorProperty
                  (installedGetter E key (UserDefObj g (Some (UserFn id)) cache))
                  (setFn (UserFn id)))) as Hkey.
  { subst w1. cbn [store with_store]. rewrite theObj_updateObj_eq by done.
    by rewrite props_setProperty_eq. }
  cbn [js_set]. unfold bind at 1, getStore at 1. rewrite Hkey.
  cbn [call_fn]. munfold.
  destruct (userBody E id (VObj target) [v] w1) as [[r|e] st]; exact eq_refl.
Qed.

End MoreStateProofs.

Lemma proxy_onto_its_source_unusable_witness :
  let w1 := world_of (proxy (VObj 0) "_data" "_data" dataWorld) in
  js_get devEnv 64 (VObj 0) "_data" w1 = (Throw (VError "RangeError"), w1, []).
Proof.
  assert (is_Some (heap (store dataWorld) !! 0)) as H0 by (by eexists).
  pose proof (proxy_onto_its_source_unusable devEnv 0 "_data" dataWorld H0) as H.
  cbv zeta in H. exact (proj1 (H 64 VUndefined)).
Defined.

Lemma proxies_of_distinct_keys_independent_witness :
  let w2 := world_of ((proxy (VObj 0) "_data" "a" ;; proxy (VObj 0) "_data" "b")
                        twoFieldWorld) in
  ∃ w3,
    js_set devEnv 2 (VObj 0) "a" (VNum 7) w2 = (Return tt, w3, []) ∧
    js_get devEnv 2 (VObj 0) "a" w3 = (Return (VNum 7), w3, []) ∧
    js_get devEnv 2 (VObj 0) "b" w3 = (Return (VNum 2), w3, []) ∧
    js_get devEnv 2 (VObj 0) "b" w2 = (Return (VNum 2), w2, []).
Proof.
  apply (proxies_of_distinct_keys_independent devEnv 0 "_data" "a" "b" 1
           (VNum 1) (VNum 2) (VNum 7) 0 twoFieldWorld).
  - by eexists.
  - discriminate.
  - discriminate.
  - discriminate.
  - discriminate.
  - reflexivity.
  - reflexivity.
  - reflexivity.
Defined.

(** Server rendering: three reads, three calls of the getter. *)
Lemma defineComputed_uncached_read_witness :
  let w1 := world_of (defineComputed serverEnv (VObj 0) "sum" (UserDefFn (UserFn 0))
                        dataWorld) in
  readTimes serverEnv 3 1 (VObj 0) "sum" w1 =
  (Return [VNum 3; VNum 3; VNum 3], w1,
   [ECall 0 (VObj 0) [VObj 0]; ECall 0 (VObj 0) [VObj 0]; ECall 0 (VObj 0) [VObj 0]]).
Proof.
  assert (is_Some (heap (store dataWorld) !! 0)) as H0 by (by eexists).
  pose proof (defineComputed_uncached_read serverEnv 0 "sum" (UserDefFn (UserFn 0))
                (UserFn 0) dataWorld H0 eq_refl) as H.
  cbv zeta in H. destruct H as [_ H].
  apply (H 0 (VNum 3) 0 3 eq_refl). reflexivity.
Defined.

Lemma defineComputed_user_setter_witness :
  let w1 :=
    world_of (defineComputed failingEnv (VObj 0) "sum"
                (UserDefObj (Some (UserFn 0)) (Some (UserFn 1)) VUndefined) dataWorld) in
  js_set failingEnv 1 (VObj 0) "sum" (VNum 7) w1 =
  (Throw (VError "Error"), w1, [ECall 1 (VObj 0) [VNum 7]]).
Proof.
  assert (is_Some (heap (store dataWorld) !! 0)) as H0 by (by eexists).
  pose proof (defineComputed_user_setter failingEnv 0 "sum" (Some (UserFn 0)) 1
                VUndefined dataWorld H0) as H.
  cbv zeta in H. cbv zeta. rewrite (H 0 (VNum 7)). vm_compute. reflexivity.
Defined.


(** *** More on [$watch], [createWatcher] and [initWatch] *)

Section MoreWatchProofs.

Variable E : Env.

Lemma watchValue_returns this ex c o w :
  ∃ id w' t, watchValue E this ex c o w = (Return (VFun (unwatchFn id)), w', t).
Proof.
  unfold watchValue.
  destruct (newWatcher_user_returns E this ex c (withUser (default noOptions o)) w
              eq_refl) as (w1 & t1 & Hnew).
  unfold bind at 1. rewrite Hnew.
  destruct (o_immediate (withUser (default noOptions o))).
  - munfold. unfold pushTarget, popTarget. munfold. cbn [store].
    match goal with
    | |- context [invokeWithErrorHandling E ?h ?c ?a ?o ?i ?w] =>
        destruct (invoke_never_throws E h c a o i w) as [r Hr];
        unfold outcome_of in Hr;
        destruct (invokeWithErrorHandling E h c a o i w) as [[r' w2] t2]
    end.
    cbn [fst] in Hr. subst r'. cbn. eauto.
  - munfold. cbn. eauto.
Qed.

Lemma dollar_watch_innermost this ex cb : ∀ options,
  namesMethod cb = false →
  dollar_watch E this ex cb options =
  watchValue E this ex (innermostHandler cb) (innermostOptions cb options).
Proof.
  induction cb as [v|handler IH opts]; intros options Hn; [done|].
  cbn [dollar_watch innermostHandler innermostOptions].
  destruct handler as [v|h o].
  - destruct v; try done.
  - apply IH. exact Hn.
Qed.

(** X12: a plain-object callback is unwrapped down to its innermost handler,
    and the options that count are those of the innermost object: [$watch(e,
    { handler: f, ...opts })] is [$watch(e, f, opts)], and whatever is passed
    as third argument beside a plain-object callback is ignored. *)
Theorem dollar_watch_unwraps this expOrFn cb options :
  (namesMethod cb = false →
   dollar_watch E this expOrFn cb options =
   dollar_watch E this expOrFn (HValue (innermostHandler cb))
     (innermostOptions cb options)) ∧
  (∀ handler opts other,
     cb = HObject handler opts →
     dollar_watch E this expOrFn cb options = dollar_watch E this expOrFn cb other).
Proof.
  split.
  - intros Hn. by rewrite dollar_watch_innermost.
  - intros handler opts other ->. done.
Qed.

Lemma dollar_watch_returns this ex cb options w :
  namesMethod cb = false →
  ∃ id w' t,
    dollar_watch E this ex cb options w = (Return (VFun (unwatchFn id)), w', t).
Proof.
  intros Hn. rewrite dollar_watch_innermost by done. apply watchValue_returns.
Qed.

Lemma createWatcher_returns this ex handler options w :
  byMethodName handler = false →
  ∃ id w' t,
    createWatcher E this ex handler options w = (Return (VFun (unwatchFn id)), w', t).
Proof.
  intros Hn. unfold createWatcher. destruct handler as [v|inner opts].
  - destruct v; try done; by apply dollar_watch_returns.
  - cbn [byMethodName] in Hn. destruct inner as [v|h o].
    + destruct v; try done; by apply dollar_watch_returns.
    + apply dollar_watch_returns. exact Hn.
Qed.

Lemma keeps_stack_createWatcher this ex handler options :
  keeps_stack (createWatcher E this ex handler options).
Proof.
  unfold createWatcher. destruct handler as [v|inner opts].
  - destruct v; try apply keeps_stack_dollar_watch.
    apply keeps_stack_bind; [apply keeps_stack_js_get|].
    intros m. apply keeps_stack_dollar_watch.
  - destruct inner as [v|h o]; [|apply keeps_stack_dollar_watch].
    destruct v; try apply keeps_stack_dollar_watch.
    apply keeps_stack_bind; [apply keeps_stack_js_get|].
    intros m. apply keeps_stack_dollar_watch.
Qed.

Lemma keeps_stack_initWatch vm watch : keeps_stack (initWatch E vm watch).
Proof.
  unfold initWatch. apply keeps_stack_forEach. intros [key entry]. cbn [fst snd].
  destruct entry.
  - apply keeps_stack_bind; [apply keeps_stack_createWatcher|auto with stack].
  - apply keeps_stack_forEach. intros h.
    apply keeps_stack_bind; [apply keeps_stack_createWatcher|auto with stack].
Qed.

Lemma forEach_returns {A} (l : list A) (f : A → M unit) :
  (∀ a w, a ∈ l → ∃ w' t, f a w = (Return tt, w', t)) →
  ∀ w, ∃ w' t, forEach l f w = (Return tt, w', t).
Proof.
  induction l as [|x l IH]; intros Hf w; cbn [forEach].
  - by exists w, [].
  - destruct (Hf x w) as (w1 & t1 & H1); [apply list_elem_of_here|].
    destruct (IH (fun a w Hin => Hf a w (list_elem_of_further _ _ _ Hin)) w1)
      as (w2 & t2 & H2).
    unfold bind. rewrite H1, H2. eauto.
Qed.

(** X13: [initWatch] cannot fail on behalf of application code.  When no
    handler is given by method name, it returns normally whatever the watched
    getters and the immediate callbacks do (their exceptions go to
    [handleError], every watcher being a user watcher), and the active-target
    stack is what it was. *)
Theorem initWatch_always_returns vm watch w :
  (∀ entry handler,
     entry ∈ watch → handler ∈ handlersOf entry.2 → byMethodName handler = false) →
  ∃ w' t,
    initWatch E vm watch w = (Return tt, w', t) ∧
    targetStack w' = targetStack w.
Proof.
  intros Hn.
  assert (∃ w' t, initWatch E vm watch w = (Return tt, w', t)) as (w' & t & H).
  { unfold initWatch. apply forEach_returns. intros [key entry] w0 Hin.
    cbn [fst snd]. destruct entry as [handler|handlers].
    - destruct (createWatcher_returns vm (ExpPath key) handler None w0)
        as (id & w1 & t1 & H1).
      { apply (Hn _ _ Hin). apply list_elem_of_here. }
      unfold bind. rewrite H1. cbn. eauto.
    - apply forEach_returns. intros handler w1 Hh.
      destruct (createWatcher_returns vm (ExpPath key) handler None w1)
        as (id & w2 & t2 & H2).
      { by apply (Hn _ _ Hin). }
      unfold bind. rewrite H2. cbn. eauto. }
  exists w', t. split; [done|].
  pose proof (keeps_stack_initWatch vm watch w) as Hs. by rewrite H in Hs.
Qed.

End MoreWatchProofs.

Lemma dollar_watch_unwraps_witness :
  dollar_watch failingEnv 0 (ExpPath "msg")
    (HObject (HObject (HValue (VFun (UserFn 7))) immediateOptions) lazyOptions)
    None =
  dollar_watch failingEnv 0 (ExpPath "msg") (HValue (VFun (UserFn 7)))
    (Some immediateOptions).
Proof.
  refine (proj1 (dollar_watch_unwraps failingEnv 0 (ExpPath "msg")
                   (HObject (HObject (HValue (VFun (UserFn 7))) immediateOptions)
                      lazyOptions) None) _).
  reflexivity.
Defined.

(** Every application function throws, and [initWatch] still returns. *)
Lemma initWatch_always_returns_witness :
  ∃ w' t,
    initWatch failingEnv 0 msgWatch nestedWorld = (Return tt, w', t) ∧
    targetStack w' = targetStack nestedWorld.
Proof.
  apply (initWatch_always_returns failingEnv 0 msgWatch nestedWorld).
  intros entry handler Hin Hh. vm_compute in Hin.
  apply elem_of_cons in Hin as [->|Hin]; [|by apply elem_of_nil in Hin].
  cbn in Hh. apply elem_of_cons in Hh as [->|Hh]; [reflexivity|].
  apply elem_of_cons in Hh as [->|Hh]; [reflexivity|by apply elem_of_nil in Hh].
Defined.

Example initWatch_reports_every_failure :
  outcome_of (initWatch failingEnv 0 msgWatch nestedWorld) = Return tt ∧
  trace_of (initWatch failingEnv 0 msgWatch nestedWorld) =
    [ECall 7 (VObj 0) [VUndefined];
     EHandleError (VError "Error") (VObj 0)
       ("callback for immediate watcher " +:+ quoted "msg")].
Proof. split; vm_compute; reflexivity. Qed.


(** *** More on computed properties: [initComputed] *)

Section MoreComputedProofs.

Variable E : Env.
Variable shape : InstanceShape.

Lemma withComputedWatcher_obj owner key userDef st :
  is_Some (heap st !! owner) →
  theObj (withComputedWatcher E owner key userDef st) owner =
  let id := fresh (dom (watchers st)) in
  setComputedWatchers
    (Some (<[key := id]> (default ∅ (_computedWatchers (theObj st owner)))))
    (setWatcherList (_watchers (theObj st owner) ++ [id]) (theObj st owner)).
Proof.
  intros Hvm. unfold withComputedWatcher, registerWatcher. cbv zeta.
  change (vm (computedWatcher E owner userDef)) with owner.
  rewrite theObj_updateObj_eq by (by apply heap_updateObj_is_Some).
  rewrite theObj_updateObj_eq by done. exact eq_refl.
Qed.

Lemma withComputedWatcher_watchers vm key userDef st :
  watchers (withComputedWatcher E vm key userDef st) =
  <[fresh (dom (watchers st)) := computedWatcher E vm userDef]> (watchers st).
Proof. exact eq_refl. Qed.

Lemma fresh_watcher_None (st : Store) : watchers st !! fresh (dom (watchers st)) = None.
Proof. apply not_elem_of_dom. apply is_fresh. Qed.

Lemma computedKeyStore_spec vm key userDef st :
  is_Some (heap st !! vm) →
  is_Some (_computedWatchers (theObj st vm)) →
  let st' := computedKeyStore E shape vm key userDef st in
  is_Some (heap st' !! vm) ∧
  is_Some (_computedWatchers (theObj st' vm)) ∧
  (∀ k, k ≠ key ∨ hasKey (otherKeys shape) (theObj st vm) key = true →
        props (theObj st' vm) !! k = props (theObj st vm) !! k) ∧
  ob (theObj st' vm) = ob (theObj st vm) ∧
  (∀ k, k ≠ key → computedSlot st' vm k = computedSlot st vm k) ∧
  (∀ id, is_Some (watchers st !! id) → watchers st' !! id = watchers st !! id) ∧
  (∀ id wt, watchers st' !! id = Some wt →
            watchers st !! id = Some wt ∨
            isServerRendering E = false ∧ wt = computedWatcher E vm userDef) ∧
  subs st' = subs st ∧ queue st' = queue st ∧
  (isServerRendering E = true → watchers st' = watchers st) ∧
  (isServerRendering E = false →
   ∃ id, computedSlot st' vm key = Some id ∧
         watchers st' !! id = Some (computedWatcher E vm userDef)) ∧
  (hasKey (otherKeys shape) (theObj st vm) key = false →
   props (theObj st' vm) !! key =
   Some (AccessorProperty (installedGetter E key userDef)
                          (installedSetter E key userDef))).
Proof.
  intros Hvm Hslot. unfold computedKeyStore. cbv zeta.
  set (st1 := if isServerRendering E then st else _).
  assert (is_Some (heap st1 !! vm)) as Hvm1.
  { subst st1. destruct (isServerRendering E); [done|].
    unfold withComputedWatcher, registerWatcher.
    by do 2 apply heap_updateObj_is_Some. }
  assert (props (theObj st1 vm) = props (theObj st vm) ∧
          ob (theObj st1 vm) = ob (theObj st vm) ∧
          is_Some (_computedWatchers (theObj st1 vm))) as (Hp1 & Hob1 & Hs1).
  { subst st1. destruct (isServerRendering E); [done|].
    rewrite withComputedWatcher_obj by done. done. }
  assert (hasKey (otherKeys shape) (theObj st1 vm) key =
          hasKey (otherKeys shape) (theObj st vm) key) as Hhas.
  { unfold hasKey. rewrite Hp1, Hob1. do 2 f_equal.
    apply bool_decide_ext. tauto. }
  assert (∀ k, k ≠ key → computedSlot st1 vm k = computedSlot st vm k) as Hslot1.
  { intros k Hk. subst st1. destruct (isServerRendering E); [done|].
    unfold computedSlot. rewrite withComputedWatcher_obj by done. cbn.
    rewrite lookup_insert_ne by done. by destruct Hslot as [m ->]. }
  assert (subs st1 = subs st ∧ queue st1 = queue st) as [Hsubs1 Hq1].
  { subst st1. by destruct (isServerRendering E). }
  assert (∀ id, is_Some (watchers st !! id) → watchers st1 !! id = watchers st !! id)
    as Hw1.
  { intros id Hid. subst st1. destruct (isServerRendering E); [done|].
    rewrite withComputedWatcher_watchers. apply lookup_insert_ne.
    intros <-. rewrite fresh_watcher_None in Hid. by destruct Hid. }
  assert (∀ id wt, watchers st1 !! id = Some wt →
            watchers st !! id = Some wt ∨
            isServerRendering E = false ∧ wt = computedWatcher E vm userDef) as Hn1.
  { intros id wt. subst st1. destruct (isServerRendering E); [by left|].
    rewrite withComputedWatcher_watchers.
    destruct (decide (id = fresh (dom (watchers st)))) as [->|Hne].
    - rewrite lookup_insert_eq. intros [= <-]. by right.
    - rewrite lookup_insert_ne by done. by left. }
  assert (isServerRendering E = true → watchers st1 = watchers st) as Hssr1.
  { intros H. subst st1. by rewrite H. }
  assert (isServerRendering E = false →
          ∃ id, computedSlot st1 vm key = Some id ∧
                watchers st1 !! id = Some (computedWatcher E vm userDef)) as Hnew1.
  { intros H. subst st1. rewrite H. exists (fresh (dom (watchers st))). split.
    - unfold computedSlot. rewrite withComputedWatcher_obj by done. cbn.
      by rewrite lookup_insert_eq.
    - rewrite withComputedWatcher_watchers. by rewrite lookup_insert_eq. }
  clearbody st1. rewrite Hhas.
  destruct (hasKey (otherKeys shape) (theObj st vm) key) eqn:Hk.
  - rewrite Hp1, Hob1. repeat split; try done.
  - unfold computedSlot in *.
    rewrite theObj_updateObj_eq by done.
    repeat split; try done.
    + by apply heap_updateObj_is_Some.
    + intros k [Hne|?]; [|done]. cbn. rewrite lookup_insert_ne by done.
      by rewrite Hp1.
    + cbn. by rewrite lookup_insert_eq.
Qed.


Lemma js_in_obj proto key l w :
  js_in proto key (VObj l) w = (Return (hasKey proto (theObj (store w) l) key), w, []).
Proof. exact eq_refl. Qed.

Lemma initComputedKey_result vm key userDef w :
  instanceReady E (store w) vm →
  ∃ w' t,
    initComputedKey E shape vm key userDef w = (Return tt, w', t) ∧
    store w' = computedKeyStore E shape vm key userDef (store w) ∧
    targetStack w' = targetStack w ∧
    shouldObserve w' = shouldObserve w ∧
    Forall isWarn t ∧
    (production E = true → t = []).
Proof.
  intros [Hvm Hdata]. unfold initComputedKey.
  set (warning := if negb (production E) && _ then _ else _).
  assert (∃ tw, warning w = (Return tt, w, tw) ∧ Forall isWarn tw ∧
                (production E = true → tw = [])) as (tw & Hw & Htw & Hprod).
  { subst warning. destruct (negb (production E) && _) eqn:Hc.
    - eexists. split; [reflexivity|]. split; [repeat constructor|].
      intros Hp. by rewrite Hp in Hc.
    - eexists. split; [reflexivity|]. split; [constructor|done]. }
  rewrite (bind_Return _ _ _ _ _ _ Hw). clear Hw warning.
  set (mid := if negb (isServerRendering E) then _ else _).
  set (st1 := if isServerRendering E then store w
              else withComputedWatcher E vm key userDef (store w)).
  assert (mid w = (Return tt, with_store st1 w, [])) as Hmid.
  { subst mid st1. destruct (isServerRendering E); cbn [negb].
    - by rewrite with_store_id.
    - unfold bind at 1. rewrite newWatcher_unfold. exact eq_refl. }
  rewrite (bind_Return _ _ _ _ _ _ Hmid). clear Hmid mid.
  assert (is_Some (heap st1 !! vm) ∧
          props (theObj st1 vm) = props (theObj (store w) vm)) as [Hvm1 Hp1].
  { subst st1. destruct (isServerRendering E); [done|]. split.
    - unfold withComputedWatcher, registerWatcher.
      by do 2 apply heap_updateObj_is_Some.
    - by rewrite withComputedWatcher_obj. }
  rewrite (bind_Return _ _ _ _ _ _ (js_in_obj _ _ _ _)).
  cbn [store with_store]. unfold computedKeyStore. cbv zeta. fold st1.
  destruct (hasKey (otherKeys shape) (theObj st1 vm) key); cbn [negb].
  - destruct (production E) eqn:Hp; cbn [negb].
    + eexists _, _. split; [exact eq_refl|]. cbn. rewrite app_nil_r.
      repeat split; try done.
    + destruct (Hdata eq_refl) as (Hlimit & d & Hd).
      destruct (stackLimit E) as [|n]; [lia|].
      assert (js_get E (S n) (VObj vm) "_data" (with_store st1 w) =
              (Return (VObj d), with_store st1 w, [])) as Hget.
      { apply js_get_data. cbn [store with_store]. by rewrite Hp1. }
      rewrite (bind_Return _ _ _ _ _ _ Hget).
      rewrite (bind_Return _ _ _ _ _ _ (js_in_obj _ _ _ _)).
      destruct (hasKey _ _ _);
        [|destruct (keyInOption _ _ _); [|destruct (keyInOption _ _ _)]];
        (eexists _, _; split; [exact eq_refl|]; cbn;
         repeat split; try done;
         rewrite ?app_nil_r; try done;
         try (apply Forall_app_2; [done|by repeat constructor])).

  - rewrite (defineComputed_result E vm key userDef (with_store st1 w) Hvm1).
    eexists _, _. split; [exact eq_refl|]. cbn. rewrite app_nil_r.
    repeat split; try done.
Qed.

Lemma hasKey_ext proto o o' key :
  props o' !! key = props o !! key →
  ob o' = ob o →
  is_Some (_computedWatchers o) →
  is_Some (_computedWatchers o') →
  hasKey proto o' key = hasKey proto o key.
Proof.
  intros Hp Hob Hs Hs'. unfold hasKey. rewrite Hp, Hob. do 2 f_equal.
  apply bool_decide_ext. tauto.
Qed.

Lemma instanceReady_computedKeyStore vm key userDef st :
  instanceReady E st vm →
  is_Some (_computedWatchers (theObj st vm)) →
  instanceReady E (computedKeyStore E shape vm key userDef st) vm.
Proof.
  intros [Hvm Hdata] Hslot.
  destruct (computedKeyStore_spec vm key userDef st Hvm Hslot)
    as (Hvm' & _ & Hprops & _).
  split; [done|]. intros Hp. destruct (Hdata Hp) as (Hl & d & Hd).
  split; [done|]. exists d. rewrite Hprops; [done|].
  destruct (decide ("_data" = key)) as [<-|Hne]; [right|by left].
  unfold hasKey. rewrite Hd. by rewrite bool_decide_eq_true_2.
Qed.

Lemma initComputed_loop vm computed : ∀ w,
  instanceReady E (store w) vm →
  is_Some (_computedWatchers (theObj (store w) vm)) →
  ∃ w' t,
    forEach computed (fun entry => initComputedKey E shape vm entry.1 entry.2) w =
      (Return tt, w', t) ∧
    store w' = computedStore E shape vm computed (store w) ∧
    targetStack w' = targetStack w ∧
    shouldObserve w' = shouldObserve w ∧
    Forall isWarn t ∧
    (production E = true → t = []).
Proof.
  induction computed as [|[key userDef] computed IH]; intros w Hready Hslot.
  - exists w, []. by repeat split.
  - destruct (initComputedKey_result vm key userDef w Hready)
      as (w1 & t1 & H1 & Hst1 & Hts1 & Hso1 & Ht1 & Hp1).
    destruct (IH w1) as (w2 & t2 & H2 & Hst2 & Hts2 & Hso2 & Ht2 & Hp2).
    { rewrite Hst1. by apply instanceReady_computedKeyStore. }
    { rewrite Hst1. destruct Hready as [Hvm _].
      by destruct (computedKeyStore_spec vm key userDef _ Hvm Hslot) as (_ & ? & _). }
    exists w2, (t1 ++ t2). cbn [forEach fst snd].
    rewrite (bind_Return _ _ _ _ _ _ H1), H2.
    repeat split.
    + rewrite Hst2, Hst1. exact eq_refl.
    + congruence.
    + congruence.
    + by apply Forall_app_2.
    + intros Hp. by rewrite Hp1, Hp2.
Qed.

Lemma computedStore_spec vm computed : ∀ st,
  is_Some (heap st !! vm) →
  is_Some (_computedWatchers (theObj st vm)) →
  let st' := computedStore E shape vm computed st in
  is_Some (heap st' !! vm) ∧
  is_Some (_computedWatchers (theObj st' vm)) ∧
  ob (theObj st' vm) = ob (theObj st vm) ∧
  (∀ k, k ∉ computed.*1 ∨ hasKey (otherKeys shape) (theObj st vm) k = true →
        props (theObj st' vm) !! k = props (theObj st vm) !! k) ∧
  (∀ k, k ∉ computed.*1 → computedSlot st' vm k = computedSlot st vm k) ∧
  (∀ id, is_Some (watchers st !! id) → watchers st' !! id = watchers st !! id) ∧
  (∀ id wt, watchers st' !! id = Some wt →
            watchers st !! id = Some wt ∨
            isServerRendering E = false ∧
            ∃ entry, entry ∈ computed ∧ wt = computedWatcher E vm entry.2) ∧
  subs st' = subs st ∧ queue st' = queue st ∧
  (isServerRendering E = true → watchers st' = watchers st).
Proof.
  induction computed as [|[key userDef] computed IH]; intros st Hvm Hslot; cbv zeta.
  - repeat split; try done. intros id wt H. by left.
  - unfold computedStore. cbn [foldl fst snd].
    fold (computedStore E shape vm computed
            (computedKeyStore E shape vm key userDef st)).
    destruct (computedKeyStore_spec vm key userDef st Hvm Hslot)
      as (Hvm1 & Hslot1 & Hp1 & Hob1 & Hs1 & Hw1 & Hn1 & Hsub1 & Hq1 & Hssr1 & _).
    set (st1 := computedKeyStore E shape vm key userDef st) in *.
    destruct (IH st1 Hvm1 Hslot1)
      as (Hvm2 & Hslot2 & Hob2 & Hp2 & Hs2 & Hw2 & Hn2 & Hsub2 & Hq2 & Hssr2).
    repeat split; try done.
    + congruence.
    + intros k Hk.
      assert (props (theObj st1 vm) !! k = props (theObj st vm) !! k) as Hk1.
      { apply Hp1. destruct Hk as [Hk|Hk].
        - left. intros ->. apply Hk. cbn. apply list_elem_of_here.
        - destruct (decide (k = key)) as [->|Hne]; [by right|by left]. }
      rewrite Hp2; [done|]. destruct Hk as [Hk|Hk].
      * left. intros Hin. apply Hk. cbn. by apply list_elem_of_further.
      * right. rewrite <- Hk. by apply hasKey_ext.
    + intros k Hk. rewrite Hs2, Hs1; [done| |].
      * intros ->. apply Hk. cbn. apply list_elem_of_here.
      * intros Hin. apply Hk. cbn. by apply list_elem_of_further.
    + intros id Hid. rewrite Hw2; [by apply Hw1|]. by rewrite Hw1.
    + intros id wt H. destruct (Hn2 id wt H) as [H1|[Hssr (entry & Hin & ->)]].
      * destruct (Hn1 id wt H1) as [H0|[Hssr ->]]; [by left|].
        right. split; [done|]. exists (key, userDef). split; [|done].
        apply list_elem_of_here.
      * right. split; [done|]. exists entry. split; [|done].
        by apply list_elem_of_further.
    + congruence.
    + congruence.
    + intros Hssr. rewrite Hssr2, Hssr1; done.
Qed.

Lemma computedStore_app vm pre post st :
  computedStore E shape vm (pre ++ post) st =
  computedStore E shape vm post (computedStore E shape vm pre st).
Proof. unfold computedStore. by rewrite foldl_app. Qed.

Lemma computedStore_key vm computed key userDef st :
  is_Some (heap st !! vm) →
  is_Some (_computedWatchers (theObj st vm)) →
  NoDup computed.*1 →
  (key, userDef) ∈ computed →
  let st' := computedStore E shape vm computed st in
  (isServerRendering E = false →
   ∃ id, computedSlot st' vm key = Some id ∧
         watchers st' !! id = Some (computedWatcher E vm userDef)) ∧
  props (theObj st' vm) !! key =
    if hasKey (otherKeys shape) (theObj st vm) key then props (theObj st vm) !! key
    else Some (AccessorProperty (installedGetter E key userDef)
                                (installedSetter E key userDef)).
Proof.
  intros Hvm Hslot Hnd Hin. cbv zeta.
  apply list_elem_of_split in Hin as (pre & post & ->).
  rewrite fmap_app, fmap_cons in Hnd. cbn [fst] in Hnd.
  apply NoDup_app in Hnd as (_ & Hpre & Hnd).
  apply NoDup_cons in Hnd as [Hpost _].
  assert (key ∉ pre.*1) as Hpre'.
  { intros Hin. apply (Hpre _ Hin). apply list_elem_of_here. }
  rewrite computedStore_app.
  destruct (computedStore_spec vm pre st Hvm Hslot)
    as (Hvm1 & Hslot1 & Hob1 & Hp1 & _).
  set (st1 := computedStore E shape vm pre st) in *.
  change (computedStore E shape vm ((key, userDef) :: post) st1)
    with (computedStore E shape vm post (computedKeyStore E shape vm key userDef st1)).
  destruct (computedKeyStore_spec vm key userDef st1 Hvm1 Hslot1)
    as (Hvm2 & Hslot2 & Hp2 & _ & _ & _ & _ & _ & _ & _ & Hnew & Hacc).
  set (st2 := computedKeyStore E shape vm key userDef st1) in *.
  destruct (computedStore_spec vm post st2 Hvm2 Hslot2)
    as (_ & _ & _ & Hp3 & Hs3 & Hw3 & _).
  assert (hasKey (otherKeys shape) (theObj st1 vm) key =
          hasKey (otherKeys shape) (theObj st vm) key) as Hhas.
  { apply hasKey_ext; try done. apply Hp1. by left. }
  split.
  - intros Hssr. destruct (Hnew Hssr) as (id & Hid & Hwt). exists id.
    rewrite Hs3 by done. split; [done|]. rewrite Hw3; [done|]. by rewrite Hwt.
  - rewrite Hp3 by (by left). rewrite Hhas in Hacc, Hp2.
    destruct (hasKey (otherKeys shape) (theObj st vm) key).
    + rewrite Hp2 by (by right). apply Hp1. by left.
    + by apply Hacc.
Qed.

Lemma initComputed_result vm computed w :
  instanceReady E (store w) vm →
  let st0 := updateObj vm (setComputedWatchers (Some ∅)) (store w) in
  is_Some (heap st0 !! vm) ∧
  is_Some (_computedWatchers (theObj st0 vm)) ∧
  ∃ w' t,
    initComputed E shape vm computed w = (Return tt, w', t) ∧
    store w' = computedStore E shape vm computed st0 ∧
    targetStack w' = targetStack w ∧
    Forall isWarn t ∧
    (production E = true → t = []).
Proof.
  intros [Hvm Hdata] st0.
  assert (theObj st0 vm = setComputedWatchers (Some ∅) (theObj (store w) vm)) as Hobj.
  { subst st0. by rewrite theObj_updateObj_eq. }
  assert (is_Some (heap st0 !! vm)) as Hvm0 by (by apply heap_updateObj_is_Some).
  assert (is_Some (_computedWatchers (theObj st0 vm))) as Hslot0 by (by rewrite Hobj).
  split; [done|]. split; [done|].
  destruct (initComputed_loop vm computed (with_store st0 w))
    as (w' & t & H & Hst & Hts & _ & Ht & Hp).
  { split; [done|]. cbn [store with_store]. by rewrite Hobj. }
  { done. }
  exists w', t. unfold initComputed.
  rewrite (bind_Return _ _ w tt (with_store st0 w) []) by exact eq_refl.
  rewrite H. by repeat split.
Qed.

(** X14: [initComputed] evaluates nothing.  On an instance of the store it
    returns normally, calls no application function (the trace holds
    warnings only, and none in a production build), leaves the active-target
    stack, every Dep's subscribers, the scheduler queue and every existing
    watcher as they were, and each watcher it adds (none under server
    rendering) is lazy and dirty, holds no value and no Dep, belongs to the
    instance and has the getter of one of the definitions, or [noop]. *)
Theorem initComputed_evaluates_nothing owner computed w :
  instanceReady E (store w) owner →
  ∃ w' t,
    initComputed E shape owner computed w = (Return tt, w', t) ∧
    Forall isWarn t ∧
    (production E = true → t = []) ∧
    targetStack w' = targetStack w ∧
    subs (store w') = subs (store w) ∧
    queue (store w') = queue (store w) ∧
    (∀ id, is_Some (watchers (store w) !! id) →
           watchers (store w') !! id = watchers (store w) !! id) ∧
    (∀ id wt,
       watchers (store w') !! id = Some wt →
       watchers (store w) !! id = None →
       isServerRendering E = false ∧
       lazy wt = true ∧ dirty wt = true ∧ value wt = VUndefined ∧
       deps wt = [] ∧ vm wt = owner ∧
       ∃ entry, entry ∈ computed ∧ getter wt = default noop (userGetter entry.2)).
Proof.
  intros Hready.
  destruct (initComputed_result owner computed w Hready)
    as (Hvm0 & Hslot0 & w' & t & H & Hst & Hts & Ht & Hp).
  destruct (computedStore_spec owner computed _ Hvm0 Hslot0)
    as (_ & _ & _ & _ & _ & Hw & Hn & Hsubs & Hq & _).
  exists w', t. rewrite Hst. do 6 (split; [done|]). split; [exact Hw|].
  intros id wt Hid Hnone.
  destruct (Hn id wt Hid) as [Hold|[Hssr (entry & Hin & ->)]].
  { cbn in Hold. congruence. }
  do 6 (split; [done|]). by exists entry.
Qed.

(** X15: what [initComputed] leaves for one key of [computed].  Outside
    server rendering the key has a watcher in [_computedWatchers], the lazy
    watcher of its definition, whether or not a property is defined.  The
    property is defined by [defineComputed] exactly when the key is not
    already in the instance; a key that is ([data], a prop, a method, or
    anything on the prototype chain) keeps what it had. *)
Theorem initComputed_installs vm computed key userDef w :
  instanceReady E (store w) vm →
  NoDup computed.*1 →
  (key, userDef) ∈ computed →
  ∃ w' t,
    initComputed E shape vm computed w = (Return tt, w', t) ∧
    (isServerRendering E = false →
     ∃ id,
       _computedWatchers (theObj (store w') vm) ≫= (fun m => m !! key) = Some id ∧
       theWatcher (store w') id = computedWatcher E vm userDef) ∧
    props (theObj (store w') vm) !! key =
      if hasKey (otherKeys shape)
           (setComputedWatchers (Some ∅) (theObj (store w) vm)) key
      then props (theObj (store w) vm) !! key
      else Some (AccessorProperty (installedGetter E key userDef)
                                  (installedSetter E key userDef)).
Proof.
  intros Hready Hnd Hin.
  destruct (initComputed_result vm computed w Hready)
    as (Hvm0 & Hslot0 & w' & t & H & Hst & _).
  destruct (computedStore_key vm computed key userDef _ Hvm0 Hslot0 Hnd Hin)
    as [Hnew Hprop].
  exists w', t. rewrite Hst. split; [done|]. split.
  - intros Hssr. destruct (Hnew Hssr) as (id & Hid & Hwt). exists id.
    split; [done|]. unfold theWatcher. by rewrite Hwt.
  - rewrite Hprop. destruct Hready as [Hvm _].
    by rewrite theObj_updateObj_eq.
Qed.
End MoreComputedProofs.

Lemma initComputed_evaluates_nothing_witness :
  ∃ w' t,
    initComputed sumEnv plainShape 0 sumComputed twoFieldWorld = (Return tt, w', t) ∧
    Forall isWarn t.
Proof.
  destruct (initComputed_evaluates_nothing sumEnv plainShape 0 sumComputed
              twoFieldWorld) as (w' & t & H & Ht & _).
  { split; [by eexists|]. intros _. split; [cbn; lia|]. by exists 1. }
  by exists w', t.
Defined.

Lemma initComputed_installs_witness :
  ∃ w' t,
    initComputed sumEnv plainShape 0 sumComputed twoFieldWorld = (Return tt, w', t) ∧
    props (theObj (store w') 0) !! "sum" =
      Some (AccessorProperty (computedGetter "sum") (computedWarnSetter "sum")).
Proof.
  destruct (initComputed_installs sumEnv plainShape 0 sumComputed "sum"
              (UserDefFn (UserFn 0)) twoFieldWorld) as (w' & t & H & _ & Hp).
  { split; [by eexists|]. intros _. split; [cbn; lia|]. by exists 1. }
  { by apply (bool_decide_unpack _). }
  { apply list_elem_of_here. }
  by exists w', t.
Defined.

(** The getter of [sum] is not called by [initComputed], is called by the
    first read and is not called by the second; the key [_data], already on
    the instance, is left alone. *)
Example computed_is_lazy :
  let run := initComputed sumEnv plainShape 0 sumComputed twoFieldWorld in
  trace_of run =
    [EWarn ("Getter is missing for computed property " +:+ quoted "_data" +:+ ".")
       (VObj 0)] ∧
  props (theObj (store (world_of run)) 0) !! "_data" = Some (DataProperty (VObj 1)) ∧
  outcome_of (readTimes sumEnv 2 64 (VObj 0) "sum" (world_of run)) =
    Return [VNum 3; VNum 3] ∧
  trace_of (readTimes sumEnv 2 64 (VObj 0) "sum" (world_of run)) =
    [ECall 0 (VObj 0) [VObj 0]].
Proof. cbv zeta. repeat split; vm_compute; reflexivity. Qed.
